(** * cgf: two OpenGL mesh viewers (flat shading, Gouraud/Phong shading)

    Shallow embedding of [part1.cpp] (flat-shading viewer) and [part2.cpp]
    (Gouraud/Phong viewer): the SMF loaders [loadSMF] / [load_smf], the
    normal processors of both [main] functions, the key handlers [onKey] /
    [key_callback] and the per-frame projection choice of the render loops.

    C++ [float] is IEEE-754 binary32 with round-to-nearest-even; it is
    modelled by the Standard Library's [spec_float] at precision 24 and
    maximal exponent 128.  [unsigned int] is a 32-bit integer, modelled as
    [Z] with the wrap-around written out. *)

From Stdlib Require Import ZArith Ascii String Floats.SpecFloat.
From stdpp Require Import base numbers list.

Local Open Scope Z_scope.

(** ** binary32 arithmetic *)

Module F32.

Definition prec : Z := 24.
Definition emax : Z := 128.

Definition float : Type := spec_float.

Definition add : float → float → float := SFadd prec emax.
Definition sub : float → float → float := SFsub prec emax.
Definition mul : float → float → float := SFmul prec emax.
Definition div : float → float → float := SFdiv prec emax.
Definition sqrt : float → float := SFsqrt prec emax.
Definition ltb : float → float → bool := SFltb.
Definition leb : float → float → bool := SFleb.

(** [(float) n] for an integer [n]. *)
Definition of_Z (n : Z) : float := binary_normalize prec emax n 0 false.

Definition zero : float := S754_zero false.
Definition one : float := of_Z 1.

(** [std::numeric_limits<float>::epsilon()], 2^-23. *)
Definition epsilon : float := S754_finite false 8388608 (-46).
Definition two : float := of_Z 2.
Definition max_float : float := SFmax_float prec emax.

(** The binary32 value nearest to [(-1)^neg * m * 10^e]: what a decimal
    literal of the source text or of an input file denotes. *)
Definition of_decimal (neg : bool) (m : Z) (e : Z) : float :=
  match m with
  | Zpos p =>
      if 0 <=? e then binary_normalize prec emax (if neg then - (m * 10 ^ e) else m * 10 ^ e) 0 neg
      else
        let '(q, e', l) := SFdiv_core_binary prec emax m 0 (10 ^ (- e)) 0 in
        binary_round_aux prec emax neg q e' l
  | _ => S754_zero neg
  end.

(** [std::max(a, b)] is [(a < b) ? b : a]. *)
Definition max (a b : float) : float := if ltb a b then b else a.

Definition is_infinity (x : float) : bool :=
  match x with S754_infinity _ => true | _ => false end.

Definition sign (x : float) : bool :=
  match x with
  | S754_zero s | S754_infinity s | S754_finite s _ _ => s
  | S754_nan => false
  end.

#[global] Instance float_eq_dec : EqDecision float.
Proof. unfold float. solve_decision. Defined.

End F32.

Abbreviation float := F32.float.

(** ** The glm vector operations the two programs call

    [glm::vec3] is [vec<3, float>] and [glm::uvec3] is [vec<3, unsigned>];
    the functions below follow glm's generic (non-SIMD) definitions:
    [cross] and [dot] component by component, [normalize v] as
    [v * inversesqrt(dot(v, v))] with [inversesqrt x = 1 / sqrt x], and
    [length v] as [sqrt(dot(v, v))]. *)

Module Glm.

Record vec (T : Type) : Type := Vec { x : T; y : T; z : T }.
Arguments Vec {T} _ _ _.
Arguments x {T} _.
Arguments y {T} _.
Arguments z {T} _.

Definition vec3 : Type := vec float.
Definition uvec3 : Type := vec Z.

(** [glm::vec3(0.0f)] *)
Definition vec3_0 : vec3 := Vec F32.zero F32.zero F32.zero.

Definition vadd (a b : vec3) : vec3 :=
  Vec (F32.add (x a) (x b)) (F32.add (y a) (y b)) (F32.add (z a) (z b)).

Definition vsub (a b : vec3) : vec3 :=
  Vec (F32.sub (x a) (x b)) (F32.sub (y a) (y b)) (F32.sub (z a) (z b)).

Definition vscale (a : vec3) (s : float) : vec3 :=
  Vec (F32.mul (x a) s) (F32.mul (y a) s) (F32.mul (z a) s).

Definition vdiv (a : vec3) (s : float) : vec3 :=
  Vec (F32.div (x a) s) (F32.div (y a) s) (F32.div (z a) s).

Definition cross (a b : vec3) : vec3 :=
  Vec (F32.sub (F32.mul (y a) (z b)) (F32.mul (y b) (z a)))
      (F32.sub (F32.mul (z a) (x b)) (F32.mul (z b) (x a)))
      (F32.sub (F32.mul (x a) (y b)) (F32.mul (x b) (y a))).

Definition dot (a b : vec3) : float :=
  F32.add (F32.add (F32.mul (x a) (x b)) (F32.mul (y a) (y b)))
          (F32.mul (z a) (z b)).

Definition inversesqrt (s : float) : float := F32.div F32.one (F32.sqrt s).

Definition normalize (v : vec3) : vec3 := vscale v (inversesqrt (dot v v)).

Definition length (v : vec3) : float := F32.sqrt (dot v v).

(** [glm::abs(x)] of a signed scalar is [x >= 0 ? x : -x]: it keeps a
    negative zero as it is. *)
Definition abs1 (a : float) : float := if F32.leb F32.zero a then a else SFopp a.

Definition abs (v : vec3) : vec3 := Vec (abs1 (x v)) (abs1 (y v)) (abs1 (z v)).

(** The condition [glm::perspective] asserts on its aspect argument:
    [abs(aspect - epsilon) > 0]. *)
Definition perspective_assert (aspect : float) : bool :=
  F32.ltb F32.zero (abs1 (F32.sub aspect F32.epsilon)).

(** [glm::radians(d)] multiplies by the constant pi/180 as glm spells it. *)
Definition radians (d : float) : float :=
  F32.mul d (F32.of_decimal false 1745329251994329576923690768489 (-32)).

#[global] Instance vec_eq_dec `{EqDecision T} : EqDecision (vec T).
Proof. solve_decision. Defined.

End Glm.

Abbreviation vec3 := Glm.vec3.
Abbreviation uvec3 := Glm.uvec3.
Abbreviation Vec := Glm.Vec.

(** ** Input streams: [std::getline] and [std::istringstream] extraction

    A stream is the characters still to be read and its fail flag.  Once
    the flag is set every later extraction is a no-op that leaves its
    target variable untouched.  An extraction returns [None] when it did
    not write its target and [Some v] when it stored [v]. *)

Module Stream.

Definition code (c : ascii) : Z := Z.of_N (N_of_ascii c).

(** [isspace] in the "C" locale: space, and the controls 9 to 13. *)
Definition isspace (c : ascii) : bool :=
  (code c =? 32) || ((9 <=? code c) && (code c <=? 13)).

Definition isdigit (c : ascii) : bool := (48 <=? code c) && (code c <=? 57).

Definition newline : ascii := ascii_of_N 10.

Fixpoint skipws (s : list ascii) : list ascii :=
  match s with
  | c :: r => if isspace c then skipws r else s
  | [] => []
  end.

Fixpoint span (p : ascii → bool) (s : list ascii) : list ascii * list ascii :=
  match s with
  | c :: r => if p c then let '(a, b) := span p r in (c :: a, b) else ([], s)
  | [] => ([], [])
  end.

(** The value of a run of decimal digits. *)
Definition digits_value (ds : list ascii) : Z :=
  fold_left (λ acc c, 10 * acc + (code c - 48)) ds 0.

(** [std::getline(in, line)]: the characters up to the next newline, which
    is consumed and not stored; the remaining input. *)
Fixpoint getline (s : list ascii) : list ascii * list ascii :=
  match s with
  | [] => ([], [])
  | c :: r =>
      if Ascii.eqb c newline then ([], r)
      else let '(l, r') := getline r in (c :: l, r')
  end.

(** The lines that [while (std::getline(in, line))] goes through: the
    loop ends when a call extracts nothing at the end of the input. *)
Fixpoint getlines (s : list ascii) : list (list ascii) :=
  match s with
  | [] => []
  | c :: r =>
      if Ascii.eqb c newline then [] :: getlines r
      else match getlines r with
           | [] => [[c]]
           | l :: ls => (c :: l) :: ls
           end
  end.

Record istringstream : Type := Iss { buf : list ascii; failed : bool }.

(** [std::istringstream iss(line)] *)
Definition open (line : list ascii) : istringstream := Iss line false.

(** [iss >> c] for a [char c]: skip whitespace, take one character. *)
Definition get_char (s : istringstream) : option ascii * istringstream :=
  if failed s then (None, s)
  else match skipws (buf s) with
       | [] => (None, Iss [] true)
       | c :: r => (Some c, Iss r false)
       end.

Definition scan_sign (s : list ascii) : bool * list ascii :=
  match s with
  | c :: r =>
      if Ascii.eqb c "-" then (true, r)
      else if Ascii.eqb c "+" then (false, r)
      else (false, s)
  | [] => (false, [])
  end.

Definition is_exp_char (c : ascii) : bool := Ascii.eqb c "e" || Ascii.eqb c "E".

(** The decimal floating-point field at the head of [s] and what follows
    it: sign, digits with an optional point, optional exponent.  [None]
    when the characters do not form a number. *)
Definition scan_float (s : list ascii) : option (float * list ascii) :=
  let '(neg, s1) := scan_sign s in
  let '(ip, s2) := span isdigit s1 in
  let '(fp, s3) :=
    match s2 with
    | c :: r => if Ascii.eqb c "." then span isdigit r else ([], s2)
    | [] => ([], s2)
    end in
  let m := digits_value (ip ++ fp) in
  let k := Z.of_nat (length fp) in
  match ip ++ fp with
  | [] => None
  | _ =>
      match s3 with
      | c :: r =>
          if is_exp_char c then
            let '(eneg, r1) := scan_sign r in
            let '(ed, r2) := span isdigit r1 in
            match ed with
            | [] => None
            | _ =>
                let e := if eneg then - digits_value ed else digits_value ed in
                Some (F32.of_decimal neg m (e - k), r2)
            end
          else Some (F32.of_decimal neg m (- k), s3)
      | [] => Some (F32.of_decimal neg m (- k), s3)
      end
  end.

(** [iss >> x] for a [float x].  At the end of the input the sentry fails
    and [x] is not written; a field that is not a number stores 0; a
    number beyond the binary32 range stores the largest finite value of
    its sign.  Both set the fail flag. *)
Definition get_float (s : istringstream) : option float * istringstream :=
  if failed s then (None, s)
  else match skipws (buf s) with
       | [] => (None, Iss [] true)
       | b =>
           match scan_float b with
           | None => (Some F32.zero, Iss b true)
           | Some (v, r) =>
               if F32.is_infinity v
               then (Some (if F32.sign v then SFopp F32.max_float else F32.max_float),
                     Iss r true)
               else (Some v, Iss r false)
           end
       end.

Definition UINT_MAX : Z := 4294967295.

(** Arithmetic of [unsigned int]: reduction modulo 2^32. *)
Definition wrap32 (n : Z) : Z := n mod 2 ^ 32.

(** The integer field at the head of [s]: optional sign, decimal digits.
    The result is the magnitude, whether a minus sign was read, and what
    follows. *)
Definition scan_unsigned (s : list ascii) : option (bool * Z * list ascii) :=
  let '(neg, s1) := scan_sign s in
  let '(ds, s2) := span isdigit s1 in
  match ds with
  | [] => None
  | _ => Some (neg, digits_value ds, s2)
  end.

(** [iss >> a] for an [unsigned a].  No digits stores 0, a magnitude above
    [UINT_MAX] stores [UINT_MAX], both with the fail flag; a minus sign
    negates modulo 2^32. *)
Definition get_unsigned (s : istringstream) : option Z * istringstream :=
  if failed s then (None, s)
  else match skipws (buf s) with
       | [] => (None, Iss [] true)
       | b =>
           match scan_unsigned b with
           | None => (Some 0, Iss b true)
           | Some (neg, n, r) =>
               if UINT_MAX <? n then (Some UINT_MAX, Iss r true)
               else (Some (if neg then wrap32 (- n) else n), Iss r false)
           end
       end.

(** A local variable that an extraction may leave unwritten keeps the
    indeterminate value [old] it was created with. *)
Definition store {A : Type} (old : A) (r : option A) : A := default old r.

End Stream.

(** ** The text of an SMF file

    The shapes of line the loaders are meant for, with the directive each
    one denotes.  Numbers are decimal: a float field is an optional sign,
    digits with an optional point, an optional exponent; an index field is
    a run of digits. *)

Module SMF.
Import Stream.

Inductive directive : Type :=
  | DVertex (x y z : float)
  | DFace (a b c : Z).

Definition blanks (s : list ascii) : Prop := Forall (λ c, isspace c = true) s.
Definition digits (s : list ascii) : Prop := Forall (λ c, isdigit c = true) s.

(** [stops p rest]: a run of characters satisfying [p] ends where [rest]
    begins. *)
Definition stops (p : ascii → bool) (rest : list ascii) : Prop :=
  match rest with
  | [] => True
  | c :: _ => p c = false
  end.

(** What may follow a field: the end of the line or whitespace. *)
Definition delimited (rest : list ascii) : Prop :=
  match rest with
  | [] => True
  | c :: _ => isspace c = true
  end.

Inductive sign_text : list ascii → bool → Prop :=
  | sign_none : sign_text [] false
  | sign_plus : sign_text ["+"%char] false
  | sign_minus : sign_text ["-"%char] true.

Inductive fraction_text : list ascii → list ascii → Prop :=
  | fraction_none : fraction_text [] []
  | fraction_some fp : digits fp → fraction_text ("."%char :: fp) fp.

Inductive exponent_text : list ascii → Z → Prop :=
  | exponent_none : exponent_text [] 0
  | exponent_some c sgn neg ed :
      is_exp_char c = true → sign_text sgn neg → digits ed → ed ≠ [] →
      exponent_text (c :: sgn ++ ed)
                    (if neg then - digits_value ed else digits_value ed).

(** [float_text t v]: [t] is a decimal literal and [v] the binary32 value
    nearest to it, which is finite. *)
Inductive float_text : list ascii → float → Prop :=
  | float_text_intro sgn neg ip fr fp ex e :
      sign_text sgn neg → digits ip → fraction_text fr fp → ip ++ fp ≠ [] →
      exponent_text ex e →
      F32.is_infinity
        (F32.of_decimal neg (digits_value (ip ++ fp)) (e - Z.of_nat (length fp))) = false →
      float_text (sgn ++ ip ++ fr ++ ex)
        (F32.of_decimal neg (digits_value (ip ++ fp)) (e - Z.of_nat (length fp))).

(** [index_text t n]: [t] is a run of digits whose value [n] fits an
    [unsigned int]. *)
Inductive index_text : list ascii → Z → Prop :=
  | index_text_intro t :
      digits t → t ≠ [] → digits_value t <= UINT_MAX →
      index_text t (digits_value t).

(** [line_denotes line d]: what a line of the file stands for, its tag
    being its first non-blank character.  A line of blanks only has no
    tag and is left out. *)
Inductive line_denotes : list ascii → option directive → Prop :=
  | line_empty : line_denotes [] None
  | line_vertex ws0 ws1 t1 ws2 t2 ws3 t3 rest x y z :
      blanks ws0 → blanks ws1 → blanks ws2 → ws2 ≠ [] → blanks ws3 → ws3 ≠ [] →
      float_text t1 x → float_text t2 y → float_text t3 z → delimited rest →
      line_denotes (ws0 ++ "v"%char :: ws1 ++ t1 ++ ws2 ++ t2 ++ ws3 ++ t3 ++ rest)
                   (Some (DVertex x y z))
  | line_face ws0 ws1 t1 ws2 t2 ws3 t3 rest a b c :
      blanks ws0 → blanks ws1 → blanks ws2 → ws2 ≠ [] → blanks ws3 → ws3 ≠ [] →
      index_text t1 a → index_text t2 b → index_text t3 c → delimited rest →
      line_denotes (ws0 ++ "f"%char :: ws1 ++ t1 ++ ws2 ++ t2 ++ ws3 ++ t3 ++ rest)
                   (Some (DFace a b c))
  | line_other ws0 c rest :
      blanks ws0 → isspace c = false → c ≠ "v"%char → c ≠ "f"%char →
      line_denotes (ws0 ++ c :: rest) None.

(** The first whitespace-delimited token of a line. *)
Definition first_token (line : list ascii) : list ascii :=
  fst (span (λ c, negb (isspace c)) (skipws line)).

(** The vertices and the faces a list of directives asks for, in order;
    a face index is the file's number minus one in [unsigned]
    arithmetic. *)
Definition vertex_of (d : option directive) : list vec3 :=
  match d with Some (DVertex x y z) => [Vec x y z] | _ => [] end.

Definition face_of (d : option directive) : list uvec3 :=
  match d with
  | Some (DFace a b c) => [Vec (wrap32 (a - 1)) (wrap32 (b - 1)) (wrap32 (c - 1))]
  | _ => []
  end.

Definition vertices_of (ds : list (option directive)) : list vec3 :=
  concat (map vertex_of ds).

Definition faces_of (ds : list (option directive)) : list uvec3 :=
  concat (map face_of ds).

Definition is_vertex (d : option directive) : bool :=
  match d with Some (DVertex _ _ _) => true | _ => false end.

Definition is_face (d : option directive) : bool :=
  match d with Some (DFace _ _ _) => true | _ => false end.

(** The face numbers exactly as written in the file. *)
Definition file_face_of (d : option directive) : list (Z * Z * Z) :=
  match d with Some (DFace a b c) => [(a, b, c)] | _ => [] end.

Definition file_faces_of (ds : list (option directive)) : list (Z * Z * Z) :=
  concat (map file_face_of ds).

End SMF.

(** ** The SMF loaders *)

(** The locals of the loop body ([char type; float x, y, z; unsigned a, b,
    c;]) are declared without an initialiser: where an extraction does not
    write one of them, the value the body goes on to use is whatever the
    variable held.  [Indet] is that content for one iteration. *)
Record Indet : Type := MkIndet {
  i_type : ascii;
  i_x : float; i_y : float; i_z : float;
  i_a : Z; i_b : Z; i_c : Z
}.

(** What a program can see of its surroundings: which paths open (and the
    bytes read from them), the indeterminate locals of each loader
    iteration, and whether the three graphics start-up calls succeed. *)
Record Env : Type := MkEnv {
  fopen : string → option (list ascii);
  indet : nat → Indet;
  glfwInit : bool;
  glfwCreateWindow : bool;
  gladLoadGLLoader : bool
}.

(** ** Definitions shared by the two programs *)

(** [v[i]] of a [std::vector]: reading an element the vector does not have
    is undefined behaviour, which the model reports as [None]. *)
Definition at_index {A : Type} (v : list A) (i : Z) : option A :=
  if i <? 0 then None else v !! Z.to_nat i.

(** How a [main] ends before its render loop, or the state it enters the
    loop with.  [Undefined] stands for an out-of-range vector access. *)
Inductive Outcome (S : Type) : Type :=
  | Exit (status : Z)
  | Undefined
  | Running (st : S).
Arguments Exit {S} _.
Arguments Undefined {S}.
Arguments Running {S} _.

(** The arguments of [glm::perspective] and [glm::ortho]. *)
Inductive Projection : Type :=
  | perspective (fovy aspect zNear zFar : float)
  | ortho (left right bottom top zNear zFar : float).

(** The key and action codes of [GLFW/glfw3.h]. *)
Module GLFW.
Definition RELEASE : Z := 0.
Definition PRESS : Z := 1.
Definition REPEAT : Z := 2.
Definition KEY_1 : Z := 49.
Definition KEY_2 : Z := 50.
Definition KEY_A : Z := 65.
Definition KEY_D : Z := 68.
Definition KEY_E : Z := 69.
Definition KEY_I : Z := 73.
Definition KEY_J : Z := 74.
Definition KEY_K : Z := 75.
Definition KEY_L : Z := 76.
Definition KEY_M : Z := 77.
Definition KEY_O : Z := 79.
Definition KEY_P : Z := 80.
Definition KEY_Q : Z := 81.
Definition KEY_S : Z := 83.
Definition KEY_U : Z := 85.
Definition KEY_W : Z := 87.
Definition KEY_ESCAPE : Z := 256.
End GLFW.

(** One key event as GLFW hands it to the callback. *)
Record KeyEvent : Type := MkKey { key : Z; action : Z }.

(** What one pass of the render loop receives: the key events
    [glfwPollEvents] delivers to the callback, whether it also processes
    a request to close the window (which sets the close flag), and the
    framebuffer size. *)
Record FrameInput : Type := MkFrame {
  events : list KeyEvent;
  close_request : bool;
  width : Z;
  height : Z
}.

(** How a run of the render loop over given inputs ends: the inputs are
    used up with the loop still going, the loop is left because the close
    flag is set, or the assertion inside [glm::perspective] fails and the
    process is aborted. *)
Inductive Ending : Type := StillRunning | Closed | Aborted.

(** The state a run ends in, the frames it drew, and how it ended. *)
Record Run (S F : Type) : Type := MkRun {
  final : S;
  frames : list F;
  ending : Ending
}.
Arguments MkRun {S F} _ _ _.
Arguments final {S F} _.
Arguments frames {S F} _.
Arguments ending {S F} _.

(** The literal [0.05f] of the key handlers. *)
Definition step_0_05 : float := F32.of_decimal false 5 (-2).

(** [centroid]: the sum of the positions divided by their number. *)
Definition mesh_centroid (positions : list vec3) : vec3 :=
  Glm.vdiv (fold_left Glm.vadd positions Glm.vec3_0)
           (F32.of_Z (Z.of_nat (length positions))).

(** [maxRadius] / [maxrad]: the largest distance of a position from the
    centroid, starting from [0.0f]. *)
Definition mesh_max_radius (positions : list vec3) (centroid : vec3) : float :=
  fold_left (λ m p, F32.max m (Glm.length (Glm.vsub p centroid))) positions F32.zero.

(** The projection both render loops build each frame. *)
Definition frame_projection (persp : bool) (maxRadius : float) (w h : Z) : Projection :=
  let aspect := F32.div (F32.of_Z w) (F32.of_Z h) in
  if persp then
    perspective (Glm.radians (F32.of_Z 45)) aspect
                (F32.of_decimal false 1 (-2)) (F32.of_Z 100)
  else
    let s := F32.mul maxRadius F32.two in
    ortho (F32.mul (SFopp s) aspect) (F32.mul s aspect) (SFopp s) s
          (SFopp (F32.of_Z 100)) (F32.of_Z 100).

(** Building the projection aborts the process: the program was compiled
    with assertions, the mode is perspective, and the aspect ratio fails
    the assertion of [glm::perspective]. *)
Definition frame_aborts (asserts persp : bool) (w h : Z) : bool :=
  asserts && persp &&
  negb (Glm.perspective_assert (F32.div (F32.of_Z w) (F32.of_Z h))).

Module Part1.
Import Stream.

(** One iteration of the [while (std::getline(file, line))] loop of
    [loadSMF]. *)
Definition loadSMF_body (u : Indet) (line : list ascii)
    (acc : list vec3 * list uvec3) : list vec3 * list uvec3 :=
  let '(vertices, faces) := acc in
  match line with
  | [] => (vertices, faces)
  | _ =>
      let iss := open line in
      let '(r, iss) := get_char iss in
      let type := store (i_type u) r in
      if Ascii.eqb type "v" then
        let '(r, iss) := get_float iss in let x := store (i_x u) r in
        let '(r, iss) := get_float iss in let y := store (i_y u) r in
        let '(r, iss) := get_float iss in let z := store (i_z u) r in
        (vertices ++ [Vec x y z], faces)
      else if Ascii.eqb type "f" then
        let '(r, iss) := get_unsigned iss in let a := store (i_a u) r in
        let '(r, iss) := get_unsigned iss in let b := store (i_b u) r in
        let '(r, iss) := get_unsigned iss in let c := store (i_c u) r in
        (vertices, faces ++ [Vec (wrap32 (a - 1)) (wrap32 (b - 1)) (wrap32 (c - 1))])
      else (vertices, faces)
  end.

Fixpoint loadSMF_loop (u : nat → Indet) (i : nat) (lines : list (list ascii))
    (acc : list vec3 * list uvec3) : list vec3 * list uvec3 :=
  match lines with
  | [] => acc
  | line :: rest => loadSMF_loop u (S i) rest (loadSMF_body (u i) line acc)
  end.

(** [loadSMF(filename, out_positions, out_faces)]: the returned flag and
    the two output vectors after the call. *)
Definition loadSMF (env : Env) (filename : string)
    (out_positions : list vec3) (out_faces : list uvec3)
    : bool * list vec3 * list uvec3 :=
  match fopen env filename with
  | None => (false, out_positions, out_faces)
  | Some content =>
      let '(vertices, faces) :=
        loadSMF_loop (indet env) 0 (getlines content) ([], []) in
      (true, vertices, faces)
  end.

Record Vertex : Type := MkVertex { pos : vec3; normal : vec3; color : vec3 }.

(** The body of [for (auto& f : faces)] in [main]: the three corner
    positions, the face normal, its colour, three [push_back]s. *)
Definition flat_face (positions : list vec3) (f : uvec3)
    (vertices : list Vertex) : option (list Vertex) :=
  p0 ← at_index positions (Glm.x f);
  p1 ← at_index positions (Glm.y f);
  p2 ← at_index positions (Glm.z f);
  let normal := Glm.normalize (Glm.cross (Glm.vsub p1 p0) (Glm.vsub p2 p0)) in
  let color := Glm.abs normal in
  Some (vertices ++ [MkVertex p0 normal color; MkVertex p1 normal color;
                     MkVertex p2 normal color]).

Fixpoint flat_loop (positions : list vec3) (faces : list uvec3)
    (vertices : list Vertex) : option (list Vertex) :=
  match faces with
  | [] => Some vertices
  | f :: rest => flat_face positions f vertices ≫= flat_loop positions rest
  end.

(** The vertex data [main] builds from the loaded mesh. *)
Definition flat_vertices (positions : list vec3) (faces : list uvec3)
    : option (list Vertex) :=
  flat_loop positions faces [].

(** The globals of the program, the close flag of its window, and the
    locals of [main] that are alive during the render loop. *)
Record State : Type := MkState {
  cameraTheta : float;
  cameraRadius : float;
  cameraHeight : float;
  usePerspective : bool;
  windowShouldClose : bool;
  positions : list vec3;
  faces : list uvec3;
  vertices : list Vertex;
  centroid : vec3;
  maxRadius : float
}.

Definition set_cameraTheta (v : float) (s : State) : State :=
  MkState v (cameraRadius s) (cameraHeight s) (usePerspective s)
          (windowShouldClose s) (positions s) (faces s) (vertices s)
          (centroid s) (maxRadius s).
Definition set_cameraRadius (v : float) (s : State) : State :=
  MkState (cameraTheta s) v (cameraHeight s) (usePerspective s)
          (windowShouldClose s) (positions s) (faces s) (vertices s)
          (centroid s) (maxRadius s).
Definition set_cameraHeight (v : float) (s : State) : State :=
  MkState (cameraTheta s) (cameraRadius s) v (usePerspective s)
          (windowShouldClose s) (positions s) (faces s) (vertices s)
          (centroid s) (maxRadius s).
Definition set_usePerspective (v : bool) (s : State) : State :=
  MkState (cameraTheta s) (cameraRadius s) (cameraHeight s) v
          (windowShouldClose s) (positions s) (faces s) (vertices s)
          (centroid s) (maxRadius s).
Definition set_windowShouldClose (v : bool) (s : State) : State :=
  MkState (cameraTheta s) (cameraRadius s) (cameraHeight s) (usePerspective s)
          v (positions s) (faces s) (vertices s) (centroid s) (maxRadius s).

(** [onKey(window, key, scancode, action, mods)] *)
Definition onKey (s : State) (key action : Z) : State :=
  if (action =? GLFW.PRESS) || (action =? GLFW.REPEAT) then
    if key =? GLFW.KEY_A then set_cameraTheta (F32.sub (cameraTheta s) step_0_05) s
    else if key =? GLFW.KEY_D then set_cameraTheta (F32.add (cameraTheta s) step_0_05) s
    else if key =? GLFW.KEY_W then set_cameraRadius (F32.sub (cameraRadius s) step_0_05) s
    else if key =? GLFW.KEY_S then set_cameraRadius (F32.add (cameraRadius s) step_0_05) s
    else if key =? GLFW.KEY_Q then set_cameraHeight (F32.add (cameraHeight s) step_0_05) s
    else if key =? GLFW.KEY_E then set_cameraHeight (F32.sub (cameraHeight s) step_0_05) s
    else if key =? GLFW.KEY_P then set_usePerspective (negb (usePerspective s)) s
    else if key =? GLFW.KEY_ESCAPE then set_windowShouldClose true s
    else s
  else s.

(** [main] up to the render loop.  [argv] holds the program name and the
    arguments, so [argc] is its length. *)
Definition main (env : Env) (argv : list string) : Outcome State :=
  if (length argv <? 2)%nat then Exit (-1)
  else
    let filename := default EmptyString (argv !! 1%nat) in
    let '(ok, positions, faces) := loadSMF env filename [] [] in
    if negb ok then Exit (-1)
    else
      let centroid := mesh_centroid positions in
      match flat_vertices positions faces with
      | None => Undefined
      | Some vertices =>
          if negb (glfwInit env) then Exit (-1)
          else if negb (glfwCreateWindow env) then Exit (-1)
          else if negb (gladLoadGLLoader env) then Exit (-1)
          else
            let maxRadius := mesh_max_radius positions centroid in
            Running (MkState F32.zero (F32.mul maxRadius F32.two)
                             (F32.of_decimal false 5 (-1)) true false
                             positions faces vertices centroid maxRadius)
      end.

(** The key events of [glfwPollEvents()]: the callback runs once per
    delivered event. *)
Definition poll_events (s : State) (evs : list KeyEvent) : State :=
  fold_left (λ s e, onKey s (key e) (action e)) evs s.

(** What one pass of the loop body hands to the GPU: the projection and
    the vertex count of [glDrawArrays]. *)
Record Frame : Type := MkFrameOut { proj : Projection; drawn : nat }.

Definition render (s : State) (w h : Z) : Frame :=
  MkFrameOut (frame_projection (usePerspective s) (maxRadius s) w h)
             (length (vertices s)).

(** [glfwPollEvents()] of one pass: the key events, and the close flag
    set when the window was asked to close. *)
Definition glfwPollEvents (s : State) (i : FrameInput) : State :=
  let s := poll_events s (events i) in
  if close_request i then set_windowShouldClose true s else s.

(** The render loop over the inputs of successive passes.  The loop
    condition is tested before each pass; a pass polls the events, builds
    the projection and draws.  [asserts] tells whether the program was
    compiled with assertions. *)
Fixpoint render_loop (asserts : bool) (s : State) (inputs : list FrameInput)
    : Run State Frame :=
  match inputs with
  | [] => MkRun s [] (if windowShouldClose s then Closed else StillRunning)
  | i :: rest =>
      if windowShouldClose s then MkRun s [] Closed
      else
        let s' := glfwPollEvents s i in
        if frame_aborts asserts (usePerspective s') (width i) (height i)
        then MkRun s' [] Aborted
        else
          let r := render_loop asserts s' rest in
          MkRun (final r) (render s' (width i) (height i) :: frames r) (ending r)
  end.

End Part1.

Module Part2.
Import Stream.

(** One iteration of the [while (std::getline(in, line))] loop of
    [load_smf]. *)
Definition load_smf_body (u : Indet) (line : list ascii)
    (acc : list vec3 * list uvec3) : list vec3 * list uvec3 :=
  let '(positions, faces) := acc in
  if (length line =? 0)%nat then (positions, faces)
  else
    let iss := open line in
    let '(r, iss) := get_char iss in
    let t := store (i_type u) r in
    if Ascii.eqb t "v" then
      let '(r, iss) := get_float iss in let x := store (i_x u) r in
      let '(r, iss) := get_float iss in let y := store (i_y u) r in
      let '(r, iss) := get_float iss in let z := store (i_z u) r in
      (positions ++ [Vec x y z], faces)
    else if Ascii.eqb t "f" then
      let '(r, iss) := get_unsigned iss in let a := store (i_a u) r in
      let '(r, iss) := get_unsigned iss in let b := store (i_b u) r in
      let '(r, iss) := get_unsigned iss in let c := store (i_c u) r in
      (positions, faces ++ [Vec (wrap32 (a - 1)) (wrap32 (b - 1)) (wrap32 (c - 1))])
    else (positions, faces).

Fixpoint load_smf_loop (u : nat → Indet) (i : nat) (lines : list (list ascii))
    (acc : list vec3 * list uvec3) : list vec3 * list uvec3 :=
  match lines with
  | [] => acc
  | line :: rest => load_smf_loop u (S i) rest (load_smf_body (u i) line acc)
  end.

(** [load_smf(filename, out_positions, out_faces)] *)
Definition load_smf (env : Env) (filename : string)
    (out_positions : list vec3) (out_faces : list uvec3)
    : bool * list vec3 * list uvec3 :=
  match fopen env filename with
  | None => (false, out_positions, out_faces)
  | Some content =>
      let '(positions, faces) :=
        load_smf_loop (indet env) 0 (getlines content) ([], []) in
      (true, positions, faces)
  end.

Record Vertex : Type := MkVertex { pos : vec3; normal : vec3 }.

(** The first loop of [main]: [faceNormals[i]] for every face. *)
Definition face_normal (positions : list vec3) (f : uvec3) : option vec3 :=
  p0 ← at_index positions (Glm.x f);
  p1 ← at_index positions (Glm.y f);
  p2 ← at_index positions (Glm.z f);
  Some (Glm.normalize (Glm.cross (Glm.vsub p1 p0) (Glm.vsub p2 p0))).

Fixpoint face_normals (positions : list vec3) (faces : list uvec3)
    : option (list vec3) :=
  match faces with
  | [] => Some []
  | f :: rest =>
      n ← face_normal positions f;
      ns ← face_normals positions rest;
      Some (n :: ns)
  end.

(** [v[i] = g(v[i])] on a vector. *)
Definition modify {A : Type} (g : A → A) (i : Z) (v : list A) : option (list A) :=
  _ ← at_index v i; Some (alter g (Z.to_nat i) v).

(** The body of the accumulation loop: the face normal is added to the
    running sum of each of the three corners, then the three counts are
    incremented. *)
Definition accumulate_face (f : uvec3) (n : vec3)
    (acc : list vec3 * list Z) : option (list vec3 * list Z) :=
  let '(vertexNormals, counts) := acc in
  vn ← modify (λ s, Glm.vadd s n) (Glm.x f) vertexNormals;
  vn ← modify (λ s, Glm.vadd s n) (Glm.y f) vn;
  vn ← modify (λ s, Glm.vadd s n) (Glm.z f) vn;
  cs ← modify Z.succ (Glm.x f) counts;
  cs ← modify Z.succ (Glm.y f) cs;
  cs ← modify Z.succ (Glm.z f) cs;
  Some (vn, cs).

Fixpoint accumulate (faces : list uvec3) (faceNormals : list vec3)
    (acc : list vec3 * list Z) : option (list vec3 * list Z) :=
  match faces, faceNormals with
  | f :: faces', n :: ns => accumulate_face f n acc ≫= accumulate faces' ns
  | [], _ => Some acc
  | _ :: _, [] => None
  end.

(** The last loop: a vertex with a positive count gets the normalised
    average, any other keeps what it has. *)
Definition finish_normal (s : vec3) (count : Z) : vec3 :=
  if 0 <? count then Glm.normalize (Glm.vdiv s (F32.of_Z count)) else s.

(** [vertexNormals] as [main] has it after the three loops. *)
Definition vertex_normals (positions : list vec3) (faces : list uvec3)
    : option (list vec3) :=
  faceNormals ← face_normals positions faces;
  '(sums, counts) ← accumulate faces faceNormals
      (replicate (length positions) Glm.vec3_0, replicate (length positions) 0);
  Some (zip_with finish_normal sums counts).

(** The triangle list: position and averaged normal of each corner. *)
Definition corner (positions vertexNormals : list vec3) (i : Z) : option Vertex :=
  p ← at_index positions i;
  n ← at_index vertexNormals i;
  Some (MkVertex p n).

Fixpoint triangle_list (positions vertexNormals : list vec3) (faces : list uvec3)
    (vertices : list Vertex) : option (list Vertex) :=
  match faces with
  | [] => Some vertices
  | f :: rest =>
      v0 ← corner positions vertexNormals (Glm.x f);
      v1 ← corner positions vertexNormals (Glm.y f);
      v2 ← corner positions vertexNormals (Glm.z f);
      triangle_list positions vertexNormals rest (vertices ++ [v0; v1; v2])
  end.

(** The global variables of the program. *)
Record Globals : Type := MkGlobals {
  camAngle : float; camRadius : float; camHeight : float;
  lightAngle : float; lightRadius : float; lightHeight : float;
  perspectiveProj : bool;
  shadingMode : Z;
  currentMaterial : Z
}.

Definition set_camAngle (v : float) (g : Globals) : Globals :=
  MkGlobals v (camRadius g) (camHeight g) (lightAngle g) (lightRadius g)
            (lightHeight g) (perspectiveProj g) (shadingMode g) (currentMaterial g).
Definition set_camRadius (v : float) (g : Globals) : Globals :=
  MkGlobals (camAngle g) v (camHeight g) (lightAngle g) (lightRadius g)
            (lightHeight g) (perspectiveProj g) (shadingMode g) (currentMaterial g).
Definition set_camHeight (v : float) (g : Globals) : Globals :=
  MkGlobals (camAngle g) (camRadius g) v (lightAngle g) (lightRadius g)
            (lightHeight g) (perspectiveProj g) (shadingMode g) (currentMaterial g).
Definition set_lightAngle (v : float) (g : Globals) : Globals :=
  MkGlobals (camAngle g) (camRadius g) (camHeight g) v (lightRadius g)
            (lightHeight g) (perspectiveProj g) (shadingMode g) (currentMaterial g).
Definition set_lightRadius (v : float) (g : Globals) : Globals :=
  MkGlobals (camAngle g) (camRadius g) (camHeight g) (lightAngle g) v
            (lightHeight g) (perspectiveProj g) (shadingMode g) (currentMaterial g).
Definition set_lightHeight (v : float) (g : Globals) : Globals :=
  MkGlobals (camAngle g) (camRadius g) (camHeight g) (lightAngle g) (lightRadius g)
            v (perspectiveProj g) (shadingMode g) (currentMaterial g).
Definition set_perspectiveProj (v : bool) (g : Globals) : Globals :=
  MkGlobals (camAngle g) (camRadius g) (camHeight g) (lightAngle g) (lightRadius g)
            (lightHeight g) v (shadingMode g) (currentMaterial g).
Definition set_shadingMode (v : Z) (g : Globals) : Globals :=
  MkGlobals (camAngle g) (camRadius g) (camHeight g) (lightAngle g) (lightRadius g)
            (lightHeight g) (perspectiveProj g) v (currentMaterial g).
Definition set_currentMaterial (v : Z) (g : Globals) : Globals :=
  MkGlobals (camAngle g) (camRadius g) (camHeight g) (lightAngle g) (lightRadius g)
            (lightHeight g) (perspectiveProj g) (shadingMode g) v.

(** The globals, the close flag of the window, and the locals of [main]
    that are alive during the render loop. *)
Record State : Type := MkState {
  globals : Globals;
  windowShouldClose : bool;
  positions : list vec3;
  faces : list uvec3;
  vertexNormals : list vec3;
  vertices : list Vertex;
  centroid : vec3;
  maxrad : float
}.

Definition on_globals (g : Globals → Globals) (s : State) : State :=
  MkState (g (globals s)) (windowShouldClose s) (positions s) (faces s)
          (vertexNormals s) (vertices s) (centroid s) (maxrad s).
Definition set_windowShouldClose (v : bool) (s : State) : State :=
  MkState (globals s) v (positions s) (faces s) (vertexNormals s)
          (vertices s) (centroid s) (maxrad s).

(** [if (c) stmt;] as a state transformer. *)
Definition when (c : bool) (stmt : State → State) (s : State) : State :=
  if c then stmt s else s.

(** [key_callback(window, key, scancode, action, mods)]: the statements of
    the guarded block, in order.  [%] on [int] is the truncating
    remainder. *)
Definition key_callback (s : State) (key action : Z) : State :=
  if (action =? GLFW.PRESS) || (action =? GLFW.REPEAT) then
    let s := when (key =? GLFW.KEY_A) (λ s, on_globals (set_camAngle (F32.sub (camAngle (globals s)) step_0_05)) s) s in
    let s := when (key =? GLFW.KEY_D) (λ s, on_globals (set_camAngle (F32.add (camAngle (globals s)) step_0_05)) s) s in
    let s := when (key =? GLFW.KEY_W) (λ s, on_globals (set_camRadius (F32.sub (camRadius (globals s)) step_0_05)) s) s in
    let s := when (key =? GLFW.KEY_S) (λ s, on_globals (set_camRadius (F32.add (camRadius (globals s)) step_0_05)) s) s in
    let s := when (key =? GLFW.KEY_Q) (λ s, on_globals (set_camHeight (F32.add (camHeight (globals s)) step_0_05)) s) s in
    let s := when (key =? GLFW.KEY_E) (λ s, on_globals (set_camHeight (F32.sub (camHeight (globals s)) step_0_05)) s) s in
    let s := when (key =? GLFW.KEY_J) (λ s, on_globals (set_lightAngle (F32.sub (lightAngle (globals s)) step_0_05)) s) s in
    let s := when (key =? GLFW.KEY_L) (λ s, on_globals (set_lightAngle (F32.add (lightAngle (globals s)) step_0_05)) s) s in
    let s := when (key =? GLFW.KEY_I) (λ s, on_globals (set_lightRadius (F32.sub (lightRadius (globals s)) step_0_05)) s) s in
    let s := when (key =? GLFW.KEY_K) (λ s, on_globals (set_lightRadius (F32.add (lightRadius (globals s)) step_0_05)) s) s in
    let s := when (key =? GLFW.KEY_U) (λ s, on_globals (set_lightHeight (F32.add (lightHeight (globals s)) step_0_05)) s) s in
    let s := when (key =? GLFW.KEY_O) (λ s, on_globals (set_lightHeight (F32.sub (lightHeight (globals s)) step_0_05)) s) s in
    let s := when (key =? GLFW.KEY_P) (λ s, on_globals (set_perspectiveProj (negb (perspectiveProj (globals s)))) s) s in
    let s := when (key =? GLFW.KEY_1) (on_globals (set_shadingMode 1)) s in
    let s := when (key =? GLFW.KEY_2) (on_globals (set_shadingMode 2)) s in
    let s := when ((key =? GLFW.KEY_M) && (action =? GLFW.PRESS))
                  (λ s, on_globals (set_currentMaterial (Z.rem (currentMaterial (globals s) + 1) 3)) s) s in
    let s := when (key =? GLFW.KEY_ESCAPE) (set_windowShouldClose true) s in
    s
  else s.

(** [main] up to the render loop. *)
Definition main (env : Env) (argv : list string) : Outcome State :=
  if (length argv <? 2)%nat then Exit (-1)
  else
    let filename := default EmptyString (argv !! 1%nat) in
    let '(ok, positions, faces) := load_smf env filename [] [] in
    if negb ok then Exit (-1)
    else
      match vertex_normals positions faces with
      | None => Undefined
      | Some vertexNormals =>
          match triangle_list positions vertexNormals faces [] with
          | None => Undefined
          | Some vertices =>
              let centroid := mesh_centroid positions in
              let maxrad := mesh_max_radius positions centroid in
              if negb (glfwInit env) then Exit (-1)
              else if negb (glfwCreateWindow env) then Exit (-1)
              else if negb (gladLoadGLLoader env) then Exit (-1)
              else
                Running (MkState
                  (MkGlobals F32.zero (F32.mul maxrad (F32.of_decimal false 25 (-1)))
                             F32.zero F32.zero F32.two F32.zero true 1 0)
                  false positions faces vertexNormals vertices centroid maxrad)
          end
      end.

(** The key events of [glfwPollEvents()]: the callback runs once per
    delivered event. *)
Definition poll_events (s : State) (evs : list KeyEvent) : State :=
  fold_left (λ s e, key_callback s (key e) (action e)) evs s.

(** What one pass of the loop body hands to the GPU: the projection, the
    shader program selected ([true] for Gouraud), the material index and
    the vertex count of [glDrawArrays]. *)
Record Frame : Type := MkFrameOut {
  proj : Projection;
  gouraud : bool;
  material : Z;
  drawn : nat
}.

Definition render (s : State) (w h : Z) : Frame :=
  MkFrameOut (frame_projection (perspectiveProj (globals s)) (maxrad s) w h)
             (shadingMode (globals s) =? 1)
             (currentMaterial (globals s))
             (length (vertices s)).

(** [glfwPollEvents()] of one pass: the key events, and the close flag
    set when the window was asked to close. *)
Definition glfwPollEvents (s : State) (i : FrameInput) : State :=
  let s := poll_events s (events i) in
  if close_request i then set_windowShouldClose true s else s.

(** The render loop over the inputs of successive passes, as in the
    first program. *)
Fixpoint render_loop (asserts : bool) (s : State) (inputs : list FrameInput)
    : Run State Frame :=
  match inputs with
  | [] => MkRun s [] (if windowShouldClose s then Closed else StillRunning)
  | i :: rest =>
      if windowShouldClose s then MkRun s [] Closed
      else
        let s' := glfwPollEvents s i in
        if frame_aborts asserts (perspectiveProj (globals s')) (width i) (height i)
        then MkRun s' [] Aborted
        else
          let r := render_loop asserts s' rest in
          MkRun (final r) (render s' (width i) (height i) :: frames r) (ending r)
  end.

End Part2.

(** [in_range n f]: the three indices of the face [f] are below [n]. *)
Definition in_range (n : nat) (f : uvec3) : Prop :=
  (0 <= Glm.x f < Z.of_nat n) ∧ (0 <= Glm.y f < Z.of_nat n) ∧
  (0 <= Glm.z f < Z.of_nat n).

(** The normals the accumulation loop of the smooth variant adds to vertex
    [i]: the normal of a face once for each of its corners that is [i], in
    loop order. *)
Definition corner_normals (i : Z) (f : uvec3) (n : vec3) : list vec3 :=
  (if decide (Glm.x f = i) then [n] else []) ++
  (if decide (Glm.y f = i) then [n] else []) ++
  (if decide (Glm.z f = i) then [n] else []).

Fixpoint incident (i : Z) (faces : list uvec3) (faceNormals : list vec3) : list vec3 :=
  match faces, faceNormals with
  | f :: faces', n :: ns => corner_normals i f n ++ incident i faces' ns
  | _, _ => []
  end.


(** Sample positions with small integer coordinates. *)
Definition point (a b c : Z) : vec3 := Vec (F32.of_Z a) (F32.of_Z b) (F32.of_Z c).



(** Two triangles in the plane z = 0 and a fifth vertex no face uses. *)
Definition flat_quad_positions : list vec3 :=
  [point 0 0 0; point 1 0 0; point 0 1 0; point 1 1 0; point 5 5 5].

Definition flat_quad_faces : list uvec3 := [Vec 0 1 2; Vec 1 3 2].

(** ** Sample surroundings

    [file_env content] opens every path on the text [content], gives every
    indeterminate local the value zero and lets the graphics start-up
    succeed. *)

Definition indet0 : Indet :=
  MkIndet Ascii.zero F32.zero F32.zero F32.zero 0 0 0.

Definition file_env (content : string) : Env :=
  MkEnv (λ _, Some (list_ascii_of_string content)) (λ _, indet0) true true true.

(** A line break, for sample texts. *)
Definition LF : string := String Stream.newline EmptyString.

(** A sample file: three vertices, an empty line, a comment, one face. *)
Definition sample_mesh : string :=
  ("v 0 0 0" ++ LF ++ "v 1.0 0 0" ++ LF ++ "v 0 1e0 -0" ++ LF ++ LF ++
   "# one triangle" ++ LF ++ "f 1 2 3" ++ LF)%string.

Definition sample_directives : list (option SMF.directive) :=
  [ Some (SMF.DVertex F32.zero F32.zero F32.zero);
    Some (SMF.DVertex F32.one F32.zero F32.zero);
    Some (SMF.DVertex F32.zero F32.one (S754_zero true));
    None; None;
    Some (SMF.DFace 1 2 3) ].

(** The render-loop state of the second program on an empty mesh, as its
    initialisers set the globals. *)
Definition part2_initial : Part2.State :=
  Part2.MkState
    (Part2.MkGlobals F32.zero F32.two F32.zero F32.zero F32.two F32.zero true 1 0)
    false [] [] [] [] Glm.vec3_0 F32.zero.

(** [same_mesh s s']: the locals of [main] agree in the two states. *)
Definition same_mesh (s s' : Part2.State) : Prop :=
  Part2.positions s' = Part2.positions s ∧ Part2.faces s' = Part2.faces s ∧
  Part2.vertexNormals s' = Part2.vertexNormals s ∧
  Part2.vertices s' = Part2.vertices s ∧ Part2.centroid s' = Part2.centroid s ∧
  Part2.maxrad s' = Part2.maxrad s.

(** The top of an orthographic projection: its vertical half-extent. *)
Definition ortho_top (p : Projection) : option float :=
  match p with
  | ortho _ _ _ top _ _ => Some top
  | perspective _ _ _ _ => None
  end.

(** The orthographic half-extent the first program shows for a file: the
    state [main] enters the loop with, the key P pressed once, one frame
    of 1024 by 768. *)
Definition part1_ortho_top (content : string) : option float :=
  match Part1.main (file_env content) ["viewer"; "mesh.smf"]%string with
  | Running st =>
      ortho_top (Part1.proj (Part1.render (Part1.onKey st GLFW.KEY_P GLFW.PRESS) 1024 768))
  | _ => None
  end.

(** A triangle, and the same triangle scaled by 3 and by -1. *)
Definition triangle_file : string :=
  ("v 0 0 0" ++ LF ++ "v 1 0 0" ++ LF ++ "v 0 1 0" ++ LF ++ "f 1 2 3" ++ LF)%string.
Definition triangle_times_3_file : string :=
  ("v 0 0 0" ++ LF ++ "v 3 0 0" ++ LF ++ "v 0 3 0" ++ LF ++ "f 1 2 3" ++ LF)%string.
Definition triangle_times_minus_1_file : string :=
  ("v 0 0 0" ++ LF ++ "v -1 0 0" ++ LF ++ "v 0 -1 0" ++ LF ++ "f 1 2 3" ++ LF)%string.

(** A file whose only line is a face with the number 0. *)
Definition zero_index_file : string := ("f 0 1 2" ++ LF)%string.

(** Surroundings in which the file opens and [glfwInit] fails. *)
Definition no_glfw_env (content : string) : Env :=
  MkEnv (λ _, Some (list_ascii_of_string content)) (λ _, indet0) false true true.

(** ** Lines by their first character *)

Module Lines.
Import Stream.

(** The character [iss >> type] reads from a line, if there is one. *)
Definition first_char (line : list ascii) : option ascii := head (skipws line).

Definition has_tag (c : ascii) (line : list ascii) : bool :=
  match first_char line with
  | Some d => Ascii.eqb d c
  | None => false
  end.

(** A line that is not empty and holds blanks only. *)
Definition blank_only (line : list ascii) : bool :=
  match line, first_char line with
  | _ :: _, None => true
  | _, _ => false
  end.

(** A character no float field starts with. *)
Definition starts_no_number (c : ascii) : bool :=
  negb (isspace c) && negb (isdigit c) && negb (Ascii.eqb c "-") &&
  negb (Ascii.eqb c "+") && negb (Ascii.eqb c ".").

End Lines.

(** Sample indeterminate locals that can be told apart from what a file
    holds, and a sample file with malformed lines. *)
Definition indet_marked : Indet :=
  MkIndet "v" (F32.of_Z 7) (F32.of_Z 8) (F32.of_Z 9) 7 8 9.

Definition ragged_file : string :=
  ("vn 0 0 1" ++ LF ++ "v 1" ++ LF ++ "foo" ++ LF ++ "f x" ++ LF ++ LF ++ "v")%string.

(** ** Special float values *)

(** The vector of three NaNs. *)
Definition vec3_nan : vec3 := Vec S754_nan S754_nan S754_nan.

Definition zero_or_nan (x : float) : bool :=
  match x with
  | S754_zero _ | S754_nan => true
  | _ => false
  end.

Definition is_nan (x : float) : bool :=
  match x with S754_nan => true | _ => false end.

(** Two corners of the face name the same vertex. *)
Definition degenerate (f : uvec3) : Prop :=
  Glm.x f = Glm.y f ∨ Glm.x f = Glm.z f ∨ Glm.y f = Glm.z f.

(** The place of a float that is not NaN in the order [<] compares by:
    its class (-2 for -infinity, -1 negative, 0 zero, 1 positive, 2
    +infinity), then exponent and mantissa, negated for negative
    numbers. *)
Definition float_rank (x : float) : Z * Z * Z :=
  match x with
  | S754_infinity true => (-2, 0, 0)
  | S754_finite true m e => (-1, - e, - Zpos m)
  | S754_zero _ => (0, 0, 0)
  | S754_nan => (0, 0, 0)
  | S754_finite false m e => (1, e, Zpos m)
  | S754_infinity false => (2, 0, 0)
  end.

Definition rank_lt (a b : Z * Z * Z) : Prop :=
  let '(c1, e1, m1) := a in
  let '(c2, e2, m2) := b in
  c1 < c2 ∨ (c1 = c2 ∧ (e1 < e2 ∨ (e1 = e2 ∧ m1 < m2))).

(** ** The materials of the second program *)

Module Scene.

(** The binary64 value nearest to a decimal literal, then converted to
    [float]: what a [double] literal such as [0.2] becomes when it
    initialises a [float] component. *)
Definition decimal_round (prec emax : Z) (neg : bool) (m e : Z) : spec_float :=
  match m with
  | Zpos p =>
      if 0 <=? e then binary_normalize prec emax (if neg then - (m * 10 ^ e) else m * 10 ^ e) 0 neg
      else
        let '(q, e', l) := SFdiv_core_binary prec emax m 0 (10 ^ (- e)) 0 in
        binary_round_aux prec emax neg q e' l
  | _ => S754_zero neg
  end.

Definition of_double_literal (m e : Z) : float :=
  match decimal_round 53 1024 false m e with
  | S754_finite s m' e' =>
      binary_normalize F32.prec F32.emax (if s then Zneg m' else Zpos m') e' s
  | d => d
  end.

Record vec4 : Type := Vec4 { x : float; y : float; z : float; w : float }.

Record Material : Type := MkMaterial {
  ambient : vec4;
  diffuse : vec4;
  specular : vec4;
  shininess : float
}.

(** [glm::vec4(a, b, c, d)] with literals given in tenths. *)
Definition tenths (a b c d : Z) : vec4 :=
  Vec4 (of_double_literal a (-1)) (of_double_literal b (-1))
       (of_double_literal c (-1)) (of_double_literal d (-1)).

(** The vector [materials] after the three [push_back]s of [main]. *)
Definition materials : list Material :=
  [ MkMaterial (tenths 2 2 2 10) (tenths 8 2 2 10) (tenths 5 5 5 10) (F32.of_Z 32);
    MkMaterial (tenths 6 2 2 10) (tenths 9 1 1 10) (tenths 8 8 8 10) (F32.of_Z 80);
    MkMaterial (tenths 1 1 3 10) (tenths 1 2 8 10) (tenths 2 2 9 10) (F32.of_Z 16) ].

(** [Material& mat = materials[currentMaterial]] of the render loop. *)
Definition frame_material (s : Part2.State) : option Material :=
  at_index materials (Part2.currentMaterial (Part2.globals s)).

End Scene.

(** ** Keys and modes *)

(** The keys each handler reacts to. *)
Definition part1_keys : list Z :=
  [GLFW.KEY_A; GLFW.KEY_D; GLFW.KEY_W; GLFW.KEY_S; GLFW.KEY_Q; GLFW.KEY_E;
   GLFW.KEY_P; GLFW.KEY_ESCAPE].

Definition part2_keys : list Z :=
  [GLFW.KEY_A; GLFW.KEY_D; GLFW.KEY_W; GLFW.KEY_S; GLFW.KEY_Q; GLFW.KEY_E;
   GLFW.KEY_J; GLFW.KEY_L; GLFW.KEY_I; GLFW.KEY_K; GLFW.KEY_U; GLFW.KEY_O;
   GLFW.KEY_P; GLFW.KEY_1; GLFW.KEY_2; GLFW.KEY_M; GLFW.KEY_ESCAPE].

(** A press or repeat of the quit key. *)
Definition is_quit (e : KeyEvent) : bool :=
  ((action e =? GLFW.PRESS) || (action e =? GLFW.REPEAT)) && (key e =? GLFW.KEY_ESCAPE).

(** The material index is one of the three materials and the shading
    mode one of the two programs. *)
Definition modes_ok (g : Part2.Globals) : Prop :=
  0 <= Part2.currentMaterial g < 3 ∧
  (Part2.shadingMode g = 1 ∨ Part2.shadingMode g = 2).

(** The mesh a [main] goes on with: what the loader returns for the file
    named by the first argument, when there is one and it opens. *)
Definition mesh_of (env : Env) (argv : list string) : option (list vec3 * list uvec3) :=
  if (length argv <? 2)%nat then None
  else
    match Part1.loadSMF env (default EmptyString (argv !! 1%nat)) [] [] with
    | (true, ps, fs) => Some (ps, fs)
    | _ => None
    end.

Definition graphics_ok (env : Env) : bool :=
  glfwInit env && glfwCreateWindow env && gladLoadGLLoader env.

(** ** Passes of the render loop *)

(** The render-loop state of the first program on an empty mesh, as its
    initialisers set the globals. *)
Definition part1_initial : Part1.State :=
  Part1.MkState F32.zero (F32.of_decimal false 25 (-1)) (F32.of_decimal false 5 (-1))
                true false [] [] [] Glm.vec3_0 F32.zero.

(** The events of one pass hold a request to close the window or a press
    or repeat of the quit key. *)
Definition quits (i : FrameInput) : bool :=
  close_request i || existsb is_quit (events i).

(** How many passes the render loop makes over the inputs when no
    assertion fails: all of them, or up to and including the first one
    that brings a quit event. *)
Fixpoint passes (inputs : list FrameInput) : nat :=
  match inputs with
  | [] => 0
  | i :: rest => if quits i then 1 else S (passes rest)
  end.

(** The aspect ratio of the pass passes the assertion of
    [glm::perspective]. *)
Definition aspect_accepted (i : FrameInput) : bool :=
  Glm.perspective_assert (F32.div (F32.of_Z (width i)) (F32.of_Z (height i))).

(** NaN or an infinity. *)
Definition not_finite (x : float) : bool := is_nan x || F32.is_infinity x.

(** A file of comment lines only. *)
Definition comment_file : string := ("# no geometry" ++ LF ++ "# at all" ++ LF)%string.

(** What the keys of the first program control, in either program: the
    camera angle, distance and height, the projection flag and the close
    flag of the window. *)
Definition view1 (s : Part1.State) : float * float * float * bool * bool :=
  (Part1.cameraTheta s, Part1.cameraRadius s, Part1.cameraHeight s,
   Part1.usePerspective s, Part1.windowShouldClose s).

Definition view2 (s : Part2.State) : float * float * float * bool * bool :=
  (Part2.camAngle (Part2.globals s), Part2.camRadius (Part2.globals s),
   Part2.camHeight (Part2.globals s), Part2.perspectiveProj (Part2.globals s),
   Part2.windowShouldClose s).

(** ** Changes of scale

    What scaling a mesh by a power of two, or mirroring it, does to the
    binary32 computation of the centroid and the bounding radius. *)

Definition is_zero (x : float) : bool :=
  match x with S754_zero _ => true | _ => false end.

(** The exact product of [x] and 2^k: the exponent of a finite number is
    moved by [k], everything else stays. *)
Definition scale2 (k : Z) (x : float) : float :=
  match x with
  | S754_finite s m e => S754_finite s m (e + k)
  | _ => x
  end.

Definition vscale2 (k : Z) (v : vec3) : vec3 :=
  Vec (scale2 k (Glm.x v)) (scale2 k (Glm.y v)) (scale2 k (Glm.z v)).

(** [room K x]: [x] is a finite number other than zero whose exponent
    keeps more than [K] binades away from both ends of the binary32
    range, so that it neither overflows nor becomes subnormal when its
    scale changes by up to [K] binades. *)
Definition room (K : Z) (x : float) : bool :=
  match x with
  | S754_finite _ _ e =>
      (emin F32.prec F32.emax + K + 2 <? e) && (e + K <=? F32.emax - F32.prec)
  | _ => false
  end.

(** An operation on [x] and [y] with result [z] is steady: the result has
    room, or an operand is zero (so that nothing is rounded). *)
Definition steady (K : Z) (x y z : float) : bool :=
  room K z || is_zero x || is_zero y.

(** An addition or subtraction is also steady when it cancels exactly. *)
Definition steady_add (K : Z) (x y : float) : bool :=
  steady K x y (F32.add x y) || bool_decide (y = SFopp x).

Definition steady_sub (K : Z) (x y : float) : bool :=
  steady K x y (F32.sub x y) || bool_decide (y = x).

Definition steady_mul (K : Z) (x y : float) : bool := steady K x y (F32.mul x y).
Definition steady_div (K : Z) (x y : float) : bool := steady K x y (F32.div x y).
Definition steady_sqrt (K : Z) (x : float) : bool := room K (F32.sqrt x) || is_zero x.

Definition steady_vadd (K : Z) (a b : vec3) : bool :=
  steady_add K (Glm.x a) (Glm.x b) && steady_add K (Glm.y a) (Glm.y b) &&
  steady_add K (Glm.z a) (Glm.z b).

Definition steady_vsub (K : Z) (a b : vec3) : bool :=
  steady_sub K (Glm.x a) (Glm.x b) && steady_sub K (Glm.y a) (Glm.y b) &&
  steady_sub K (Glm.z a) (Glm.z b).

Definition steady_vdiv (K : Z) (a : vec3) (n : float) : bool :=
  steady_div K (Glm.x a) n && steady_div K (Glm.y a) n && steady_div K (Glm.z a) n.

(** The steps of [glm::length]: three squares, two additions, a square
    root. *)
Definition steady_length (K : Z) (v : vec3) : bool :=
  let xx := F32.mul (Glm.x v) (Glm.x v) in
  let yy := F32.mul (Glm.y v) (Glm.y v) in
  let zz := F32.mul (Glm.z v) (Glm.z v) in
  steady_mul K (Glm.x v) (Glm.x v) && steady_mul K (Glm.y v) (Glm.y v) &&
  steady_mul K (Glm.z v) (Glm.z v) &&
  steady_add K xx yy && steady_add K (F32.add xx yy) zz &&
  steady_sqrt K (F32.add (F32.add xx yy) zz).

(** Every arithmetic step of the centroid, of the distances to it and of
    the half-extent is steady: the additions of the sum (one per prefix
    of the positions), its division by the number of positions, the
    subtractions and lengths of the radius loop, and the product of the
    radius and 2. *)
Definition steady_mesh (K : Z) (positions : list vec3) : Prop :=
  let c := mesh_centroid positions in
  (∀ i p, positions !! i = Some p →
     steady_vadd K (fold_left Glm.vadd (take i positions) Glm.vec3_0) p = true) ∧
  steady_vdiv K (fold_left Glm.vadd positions Glm.vec3_0)
              (F32.of_Z (Z.of_nat (length positions))) = true ∧
  (∀ p, p ∈ positions →
     steady_vsub K p c = true ∧ steady_length K (Glm.vsub p c) = true) ∧
  steady_mul K (mesh_max_radius positions c) F32.two = true.

(** [negated a b]: [a] is the negation of [b], or both are zeros of any
    sign. *)
Definition negated (a b : float) : Prop :=
  a = SFopp b ∨ (is_zero a = true ∧ is_zero b = true).

Definition vnegated (a b : vec3) : Prop :=
  negated (Glm.x a) (Glm.x b) ∧ negated (Glm.y a) (Glm.y b) ∧
  negated (Glm.z a) (Glm.z b).

(** The positions of [triangle_file], and the triangle scaled by 2. *)
Definition triangle_positions : list vec3 := [point 0 0 0; point 1 0 0; point 0 1 0].

Definition triangle_times_2_file : string :=
  ("v 0 0 0" ++ LF ++ "v 2 0 0" ++ LF ++ "v 0 2 0" ++ LF ++ "f 1 2 3" ++ LF)%string.

(** * Facts about the model *)

(** ** Scanning fields *)

Section Scanning.
Import Stream SMF.

(** [getlines] is the loop over [getline]: nothing at the end of the
    input, otherwise the next line and the lines of what follows it. *)
Lemma getlines_getline s :
  getlines s =
  match s with
  | [] => []
  | _ => (getline s).1 :: getlines (getline s).2
  end.
Proof.
  induction s as [|c r IH]; [done|]. cbn [getlines getline].
  destruct (Ascii.eqb c newline); [done|].
  rewrite IH. destruct r as [|d r']; [done|].
  by destruct (getline (d :: r')).
Qed.

Lemma space_not_digit c : isspace c = true → isdigit c = false.
Proof. unfold isspace, isdigit. generalize (code c). intros n H. lia. Qed.

Lemma digit_not_space c : isdigit c = true → isspace c = false.
Proof. unfold isspace, isdigit. generalize (code c). intros n H. lia. Qed.

Lemma eqb_of_space c d : isspace c = true → isspace d = false → Ascii.eqb c d = false.
Proof.
  intros Hc Hd. destruct (Ascii.eqb_spec c d) as [->|]; [congruence | done].
Qed.

Lemma eqb_of_digit c d : isdigit c = true → isdigit d = false → Ascii.eqb c d = false.
Proof.
  intros Hc Hd. destruct (Ascii.eqb_spec c d) as [->|]; [congruence | done].
Qed.

Lemma exp_char_not_space c : is_exp_char c = true → isspace c = false.
Proof.
  unfold is_exp_char. intros H. apply orb_true_iff in H as [H|H];
    apply Ascii.eqb_eq in H; subst; reflexivity.
Qed.

Lemma exp_char_not_digit c : is_exp_char c = true → isdigit c = false.
Proof.
  unfold is_exp_char. intros H. apply orb_true_iff in H as [H|H];
    apply Ascii.eqb_eq in H; subst; reflexivity.
Qed.

Lemma space_not_exp_char c : isspace c = true → is_exp_char c = false.
Proof.
  intros H. destruct (is_exp_char c) eqn:E; [|done].
  apply exp_char_not_space in E. congruence.
Qed.

Lemma span_app p a rest :
  Forall (λ c, p c = true) a → stops p rest → span p (a ++ rest) = (a, rest).
Proof.
  intros Ha Hr. induction Ha as [|c a Hc _ IH]; simpl.
  - destruct rest as [|c r]; [done|]. simpl in *. by rewrite Hr.
  - by rewrite Hc, IH.
Qed.

Lemma skipws_app ws s :
  blanks ws → stops isspace s → skipws (ws ++ s) = s.
Proof.
  intros Hws Hs. induction Hws as [|c ws Hc _ IH]; simpl.
  - destruct s as [|c r]; [done|]. simpl in *. by rewrite Hs.
  - by rewrite Hc.
Qed.

Lemma delimited_stops_digit rest : delimited rest → stops isdigit rest.
Proof. destruct rest; [done|]. simpl. apply space_not_digit. Qed.

Lemma stops_app p a rest : a ≠ [] → stops p a → stops p (a ++ rest).
Proof. by destruct a. Qed.

Lemma stops_digits_space t rest : digits t → t ≠ [] → stops isspace (t ++ rest).
Proof.
  intros Ht Hne. destruct Ht as [|c t Hc _]; [done|]. simpl.
  by apply digit_not_space.
Qed.

(** *** Sign, then digits *)

Lemma scan_sign_text sgn neg s :
  sign_text sgn neg →
  match s with
  | [] => True
  | c :: _ => Ascii.eqb c "-" = false ∧ Ascii.eqb c "+" = false
  end →
  scan_sign (sgn ++ s) = (neg, s).
Proof.
  intros [] Hs; [|done..].
  destruct s as [|c r]; [done|]. simpl. destruct Hs as [-> ->]. done.
Qed.

Lemma not_sign_of_digit c :
  isdigit c = true → Ascii.eqb c "-" = false ∧ Ascii.eqb c "+" = false.
Proof. intros H. split; by apply eqb_of_digit. Qed.

Lemma not_sign_of_space c :
  isspace c = true → Ascii.eqb c "-" = false ∧ Ascii.eqb c "+" = false.
Proof. intros H. split; by apply eqb_of_space. Qed.

Lemma not_sign_of_exp_char c :
  is_exp_char c = true → Ascii.eqb c "-" = false ∧ Ascii.eqb c "+" = false.
Proof.
  unfold is_exp_char. intros H. apply orb_true_iff in H as [H|H];
    apply Ascii.eqb_eq in H; subst; done.
Qed.

(** The integer field: an index text is scanned whole. *)
Lemma scan_unsigned_index t n rest :
  index_text t n → delimited rest →
  scan_unsigned (t ++ rest) = Some (false, n, rest).
Proof.
  intros [t' Ht Hne Hle] Hrest. unfold scan_unsigned.
  assert (scan_sign (t' ++ rest) = (false, t' ++ rest)) as ->.
  { apply (scan_sign_text [] false); [constructor|].
    destruct Ht as [|c t'' Hc _]; [done|]. simpl. by apply not_sign_of_digit. }
  rewrite span_app by auto using delimited_stops_digit.
  by destruct t'.
Qed.

Lemma get_unsigned_index ws t n rest :
  blanks ws → index_text t n → delimited rest →
  get_unsigned (Iss (ws ++ t ++ rest) false) = (Some n, Iss rest false).
Proof.
  intros Hws Ht Hrest. unfold get_unsigned. simpl.
  inversion Ht as [t' Hd Hne Hle]; subst.
  rewrite skipws_app by auto using stops_digits_space.
  destruct (t ++ rest) as [|c0 r0] eqn:E; [by destruct t|].
  rewrite <- E, (scan_unsigned_index _ _ _ Ht Hrest).
  destruct (UINT_MAX <? digits_value t) eqn:E'; [lia | done].
Qed.

(** *** The float field *)

Lemma stops_exponent p ex e rest :
  exponent_text ex e → (∀ c, is_exp_char c = true → p c = false) →
  stops p rest → stops p (ex ++ rest).
Proof. intros [] Hp Hrest; simpl; auto. Qed.

Lemma scan_exponent_text ex e rest neg m k :
  exponent_text ex e → delimited rest →
  match ex ++ rest with
  | c :: r =>
      if is_exp_char c then
        let '(eneg, r1) := scan_sign r in
        let '(ed, r2) := span isdigit r1 in
        match ed with
        | [] => None
        | _ =>
            let e := if eneg then - digits_value ed else digits_value ed in
            Some (F32.of_decimal neg m (e - k), r2)
        end
      else Some (F32.of_decimal neg m (- k), ex ++ rest)
  | [] => Some (F32.of_decimal neg m (- k), ex ++ rest)
  end = Some (F32.of_decimal neg m (e - k), rest).
Proof.
  intros [|c sgn eneg ed Hc Hs Hed Hne] Hrest; simpl app.
  - change (0 - k) with (- k). destruct rest as [|c r]; [done|].
    simpl in Hrest. by rewrite (space_not_exp_char _ Hrest).
  - cbv iota. rewrite Hc, <- app_assoc.
    rewrite (scan_sign_text sgn eneg); [|done|].
    2:{ destruct ed as [|d ed]; [done|]. simpl. apply not_sign_of_digit.
        by inversion Hed. }
    rewrite span_app by auto using delimited_stops_digit.
    by destruct ed.
Qed.

Lemma scan_float_text t v rest :
  float_text t v → delimited rest → scan_float (t ++ rest) = Some (v, rest).
Proof.
  intros [sgn neg ip fr fp ex e Hs Hip Hfr Hne Hex Hfin] Hrest.
  unfold scan_float. rewrite <- !app_assoc.
  assert (stops isdigit (ex ++ rest)) as Hex_d.
  { eapply stops_exponent; eauto using exp_char_not_digit, delimited_stops_digit. }
  rewrite (scan_sign_text sgn neg); [|done|].
  2:{ destruct Hip as [|d ip Hd _]; simpl.
      - destruct Hfr as [|fp Hfp]; [done|]. simpl. done.
      - by apply not_sign_of_digit. }
  destruct Hfr as [|fp Hfp]; simpl app at 1.
  - rewrite span_app by done.
    assert (match ex ++ rest with
            | c :: r => if Ascii.eqb c "." then span isdigit r else ([], ex ++ rest)
            | [] => ([], ex ++ rest)
            end = ([], ex ++ rest)) as ->.
    { destruct (ex ++ rest) as [|c r] eqn:E; [done|].
      destruct (Ascii.eqb_spec c ".") as [Hdot|]; [exfalso|done].
      destruct Hex as [|c' sgn' neg' ed' Hc' _ _ _]; simpl in E.
      - subst rest c. done.
      - injection E as Hcc _. subst c c'. done. }
    rewrite app_nil_r in *. destruct ip as [|d ip]; [done|].
    apply scan_exponent_text; done.
  - rewrite span_app by done. simpl.
    rewrite span_app by done.
    destruct (ip ++ fp) as [|d l] eqn:E; [done|].
    apply scan_exponent_text; done.
Qed.

Lemma float_text_starts t v rest : float_text t v → stops isspace (t ++ rest).
Proof.
  intros [sgn neg ip fr fp ex e Hs Hip Hfr Hne Hex Hfin].
  destruct Hs; simpl; try done.
  destruct Hip as [|d ip Hd _]; simpl; [|by apply digit_not_space].
  destruct Hfr; simpl; done.
Qed.

Lemma float_text_nonempty t v : float_text t v → t ≠ [].
Proof.
  intros [sgn neg ip fr fp ex e Hs Hip Hfr Hne Hex Hfin].
  destruct Hs; simpl; try done.
  destruct ip; simpl; [|done]. destruct Hfr; simpl; done.
Qed.

Lemma float_text_finite t v : float_text t v → F32.is_infinity v = false.
Proof. by intros []. Qed.

Lemma get_float_text ws t v rest :
  blanks ws → float_text t v → delimited rest →
  get_float (Iss (ws ++ t ++ rest) false) = (Some v, Iss rest false).
Proof.
  intros Hws Ht Hrest. unfold get_float. simpl.
  rewrite skipws_app by eauto using float_text_starts.
  destruct (t ++ rest) as [|c0 r0] eqn:E.
  { apply float_text_nonempty in Ht. by destruct t. }
  rewrite <- E, (scan_float_text _ _ _ Ht Hrest).
  by rewrite (float_text_finite _ _ Ht).
Qed.

End Scanning.

(** ** The loaders on well-formed lines *)

Section Loaders.
Import Stream SMF.

Lemma delimited_blanks ws s : blanks ws → ws ≠ [] → delimited (ws ++ s).
Proof. intros [|c ws' Hc _] Hne; [done|]. exact Hc. Qed.

Lemma get_char_tag ws c rest :
  blanks ws → isspace c = false →
  get_char (open (ws ++ c :: rest)) = (Some c, Iss rest false).
Proof.
  intros Hws Hc. unfold get_char, open. simpl.
  by rewrite skipws_app.
Qed.

(** One iteration on a line that denotes [d] appends what [d] asks for,
    whatever the indeterminate locals hold. *)
Lemma loadSMF_body_denotes line d :
  line_denotes line d → ∀ u vs fs,
  Part1.loadSMF_body u line (vs, fs) = (vs ++ vertex_of d, fs ++ face_of d).
Proof.
  intros Hl u vs fs. unfold Part1.loadSMF_body.
  destruct Hl as
    [ | ws0 ws1 t1 ws2 t2 ws3 t3 rest x y z H0 H1 H2 N2 H3 N3 T1 T2 T3 Hr
      | ws0 ws1 t1 ws2 t2 ws3 t3 rest a b c H0 H1 H2 N2 H3 N3 T1 T2 T3 Hr
      | ws0 c rest H0 Hc Hv Hf ].
  - simpl. by rewrite !app_nil_r.
  - destruct (ws0 ++ _ :: _) as [|c0 l0] eqn:E; [by destruct ws0|]. rewrite <- E.
    rewrite get_char_tag by done. simpl store. simpl Ascii.eqb. cbv iota.
    rewrite (get_float_text ws1 t1 x) by auto using delimited_blanks.
    rewrite (get_float_text ws2 t2 y) by auto using delimited_blanks.
    rewrite (get_float_text ws3 t3 z) by auto using delimited_blanks.
    simpl. by rewrite app_nil_r.
  - destruct (ws0 ++ _ :: _) as [|c0 l0] eqn:E; [by destruct ws0|]. rewrite <- E.
    rewrite get_char_tag by done. simpl store. simpl Ascii.eqb. cbv iota.
    rewrite (get_unsigned_index ws1 t1 a) by auto using delimited_blanks.
    rewrite (get_unsigned_index ws2 t2 b) by auto using delimited_blanks.
    rewrite (get_unsigned_index ws3 t3 c) by auto using delimited_blanks.
    simpl. by rewrite app_nil_r.
  - destruct (ws0 ++ _ :: _) as [|c0 l0] eqn:E; [by destruct ws0|]. rewrite <- E.
    rewrite get_char_tag by done. simpl store.
    apply Ascii.eqb_neq in Hv, Hf. rewrite Hv, Hf. simpl.
    by rewrite !app_nil_r.
Qed.

Lemma loadSMF_loop_denotes lines ds :
  Forall2 line_denotes lines ds → ∀ u i vs fs,
  Part1.loadSMF_loop u i lines (vs, fs) = (vs ++ vertices_of ds, fs ++ faces_of ds).
Proof.
  unfold vertices_of, faces_of.
  induction 1 as [|line d lines ds Hl _ IH]; intros u i vs fs;
    cbn [Part1.loadSMF_loop map concat].
  - by rewrite !app_nil_r.
  - rewrite (loadSMF_body_denotes _ _ Hl), IH. by rewrite <- !app_assoc.
Qed.

(** The two loaders are the same program. *)
Lemma load_smf_body_eq u line acc :
  Part2.load_smf_body u line acc = Part1.loadSMF_body u line acc.
Proof. destruct acc, line; reflexivity. Qed.

Lemma load_smf_loop_eq u lines : ∀ i acc,
  Part2.load_smf_loop u i lines acc = Part1.loadSMF_loop u i lines acc.
Proof.
  induction lines as [|l lines IH]; intros i acc;
    cbn [Part2.load_smf_loop Part1.loadSMF_loop]; [done|].
  by rewrite load_smf_body_eq, IH.
Qed.

Lemma load_smf_eq env filename ps fs :
  Part2.load_smf env filename ps fs = Part1.loadSMF env filename ps fs.
Proof.
  unfold Part2.load_smf, Part1.loadSMF.
  destruct (fopen env filename); [|done]. by rewrite load_smf_loop_eq.
Qed.

Lemma loadSMF_denotes env filename content ds ps fs :
  fopen env filename = Some content →
  Forall2 line_denotes (getlines content) ds →
  Part1.loadSMF env filename ps fs = (true, vertices_of ds, faces_of ds).
Proof.
  intros Ho Hd. unfold Part1.loadSMF. rewrite Ho.
  by rewrite (loadSMF_loop_denotes _ _ Hd).
Qed.

End Loaders.

(** ** Loading a mesh file *)

Section LoaderFacts.
Import Stream SMF.

Lemma digits_value_acc ds : digits ds → ∀ acc, 0 <= acc →
  0 <= fold_left (λ acc c, 10 * acc + (code c - 48)) ds acc.
Proof.
  induction 1 as [|c ds Hc _ IH]; intros acc Hacc; simpl; [done|].
  apply IH. unfold isdigit in Hc. lia.
Qed.

Lemma index_text_range t n : index_text t n → 0 <= n <= UINT_MAX.
Proof.
  intros [t' Hd _ Hle]. split; [|done]. by apply digits_value_acc.
Qed.

Lemma file_faces_range lines ds :
  Forall2 line_denotes lines ds →
  Forall (λ '(a, b, c), 0 <= a <= UINT_MAX ∧ 0 <= b <= UINT_MAX ∧ 0 <= c <= UINT_MAX)
         (file_faces_of ds).
Proof.
  unfold file_faces_of.
  induction 1 as [|line d lines ds Hl _ IH]; simpl; [constructor|].
  destruct Hl as
    [ | ? ? ? ? ? ? ? ? ? ? ? _ _ _ _ _ _ _ _ _ _
      | ? ? ? ? ? ? ? ? a b c _ _ _ _ _ _ T1 T2 T3 _
      | ]; simpl; try done.
  constructor; [|done].
  apply index_text_range in T1, T2, T3. tauto.
Qed.

Lemma faces_of_file_faces ds :
  faces_of ds =
  map (λ '(a, b, c), Vec (wrap32 (a - 1)) (wrap32 (b - 1)) (wrap32 (c - 1)))
      (file_faces_of ds).
Proof.
  unfold faces_of, file_faces_of.
  induction ds as [|[[]|] ds IH]; simpl; by rewrite ?IH.
Qed.

Lemma wrap32_pred n : 1 <= n <= UINT_MAX → wrap32 (n - 1) = n - 1.
Proof. unfold wrap32, UINT_MAX. intros H. apply Z.mod_small. lia. Qed.

End LoaderFacts.

Section LoaderTheorems.
Import Stream SMF.

Local Ltac digits_tac := repeat first [done | constructor].

Lemma sample_mesh_denotes :
  Forall2 line_denotes (getlines (list_ascii_of_string sample_mesh)) sample_directives.
Proof.
  pose proof (λ ip H1 H2 H3, float_text_intro [] false ip [] [] [] 0
                sign_none H1 fraction_none H2 exponent_none H3) as int_text.
  assert (float_text ["0"%char] F32.zero) as T0 by (apply (int_text ["0"%char]); digits_tac).
  assert (float_text ["1"%char] F32.one) as T1 by (apply (int_text ["1"%char]); digits_tac).
  assert (float_text ["1"; "."; "0"]%char F32.one) as T10.
  { apply (float_text_intro [] false ["1"%char] ["."; "0"]%char ["0"%char] [] 0);
      digits_tac. }
  assert (float_text ["1"; "e"; "0"]%char F32.one) as T1e0.
  { apply (float_text_intro [] false ["1"%char] [] [] ["e"; "0"]%char 0); try digits_tac.
    apply (exponent_some "e" [] false ["0"%char]); digits_tac. }
  assert (float_text ["-"; "0"]%char (S754_zero true)) as Tm0.
  { apply (float_text_intro ["-"%char] true ["0"%char] [] [] [] 0); digits_tac. }
  assert (∀ c, isdigit c = true → code c - 48 <= UINT_MAX →
               index_text [c] (code c - 48)) as I.
  { intros c Hc Hle. apply (index_text_intro [c]); digits_tac. }
  let ls := eval vm_compute in (getlines (list_ascii_of_string sample_mesh)) in
  change (Forall2 line_denotes ls sample_directives).
  unfold sample_directives.
  repeat (apply List.Forall2_cons); [..|apply List.Forall2_nil].
  - apply (line_vertex [] [" "%char] ["0"%char] [" "%char] ["0"%char] [" "%char] ["0"%char] []);
      digits_tac.
  - apply (line_vertex [] [" "%char] ["1"; "."; "0"]%char [" "%char] ["0"%char] [" "%char] ["0"%char] []);
      digits_tac.
  - apply (line_vertex [] [" "%char] ["0"%char] [" "%char] ["1"; "e"; "0"]%char [" "%char] ["-"; "0"]%char []);
      digits_tac.
  - apply line_empty.
  - apply (line_other [] "#"); digits_tac.
  - apply (line_face [] [" "%char] ["1"%char] [" "%char] ["2"%char] [" "%char] ["3"%char] [] 1 2 3);
      try digits_tac; apply (I _ eq_refl); done.
Qed.

(** C1, as amended.  The tag of a line is its FIRST NON-BLANK CHARACTER.
    For every readable file whose lines are empty, vertex lines (tag [v],
    three decimal floats), face lines (tag [f], three indices) or lines
    with another first character, both loaders succeed and return one
    vertex per vertex line, holding its three floats in the order x, y,
    z, and one face per face line, both in file order; empty lines and
    lines with another first character add nothing. *)
Theorem loaders_follow_the_lines env filename content ds ps fs :
  fopen env filename = Some content →
  Forall2 line_denotes (getlines content) ds →
  Part1.loadSMF env filename ps fs = (true, vertices_of ds, faces_of ds) ∧
  Part2.load_smf env filename ps fs = (true, vertices_of ds, faces_of ds) ∧
  length (vertices_of ds) = length (List.filter is_vertex ds) ∧
  length (faces_of ds) = length (List.filter is_face ds).
Proof.
  intros Ho Hd. rewrite load_smf_eq, (loadSMF_denotes _ _ _ _ _ _ Ho Hd).
  split_and!; try done; unfold vertices_of, faces_of; clear Hd.
  - induction ds as [|[[]|] ds IH]; simpl; by rewrite ?IH.
  - induction ds as [|[[]|] ds IH]; simpl; by rewrite ?IH.
Qed.

Lemma loaders_follow_the_lines_witness :
  fopen (file_env sample_mesh) "mesh.smf" = Some (list_ascii_of_string sample_mesh) ∧
  Forall2 line_denotes (getlines (list_ascii_of_string sample_mesh)) sample_directives ∧
  Part1.loadSMF (file_env sample_mesh) "mesh.smf" [] [] =
    (true,
     [Vec F32.zero F32.zero F32.zero; Vec F32.one F32.zero F32.zero;
      Vec F32.zero F32.one (S754_zero true)],
     [Vec 0 1 2]).
Proof.
  split; [reflexivity|]. split; [exact sample_mesh_denotes|].
  exact (proj1 (loaders_follow_the_lines (file_env sample_mesh) "mesh.smf" _
                  sample_directives [] [] eq_refl sample_mesh_denotes)).
Defined.

(** C1, as stated, fails: the line [v1 2 3] has the first token [v1], a
    tag other than [v] and [f], yet both loaders read a vertex from it. *)
Lemma other_tag_line_not_ignored :
  first_token (list_ascii_of_string "v1 2 3") = list_ascii_of_string "v1" ∧
  Part1.loadSMF (file_env "v1 2 3") "mesh.smf" [] [] =
    (true, [Vec (F32.of_Z 1) (F32.of_Z 2) (F32.of_Z 3)], []) ∧
  Part2.load_smf (file_env "v1 2 3") "mesh.smf" [] [] =
    (true, [Vec (F32.of_Z 1) (F32.of_Z 2) (F32.of_Z 3)], []).
Proof. split_and!; vm_compute; reflexivity. Qed.

(** C2.  For every readable file of well-formed lines whose face numbers
    are one-based (at least 1), each stored face index is the number in
    the file minus one, for every face, in both loaders. *)
Theorem face_indices_are_file_numbers_minus_one env filename content ds ps fs :
  fopen env filename = Some content →
  Forall2 line_denotes (getlines content) ds →
  Forall (λ '(a, b, c), 1 <= a ∧ 1 <= b ∧ 1 <= c) (file_faces_of ds) →
  (Part1.loadSMF env filename ps fs).2 =
    map (λ '(a, b, c), Vec (a - 1) (b - 1) (c - 1)) (file_faces_of ds) ∧
  (Part2.load_smf env filename ps fs).2 =
    map (λ '(a, b, c), Vec (a - 1) (b - 1) (c - 1)) (file_faces_of ds).
Proof.
  intros Ho Hd Hone. rewrite load_smf_eq, (loadSMF_denotes _ _ _ _ _ _ Ho Hd).
  simpl. rewrite faces_of_file_faces.
  pose proof (file_faces_range _ _ Hd) as Hrange.
  assert (map (λ '(a, b, c), Vec (wrap32 (a - 1)) (wrap32 (b - 1)) (wrap32 (c - 1)))
              (file_faces_of ds) =
          map (λ '(a, b, c), Vec (a - 1) (b - 1) (c - 1)) (file_faces_of ds)) as ->; [|done].
  revert Hone Hrange. generalize (file_faces_of ds). clear.
  induction l as [|[[a b] c] l IH]; intros Hone Hrange; [done|].
  apply Forall_cons in Hone as [Habc Hone], Hrange as [Habc' Hrange].
  simpl. rewrite !wrap32_pred by lia. by rewrite IH.
Qed.

Lemma face_indices_are_file_numbers_minus_one_witness :
  fopen (file_env sample_mesh) "mesh.smf" = Some (list_ascii_of_string sample_mesh) ∧
  Forall2 line_denotes (getlines (list_ascii_of_string sample_mesh)) sample_directives ∧
  Forall (λ '(a, b, c), 1 <= a ∧ 1 <= b ∧ 1 <= c) (file_faces_of sample_directives) ∧
  (Part1.loadSMF (file_env sample_mesh) "mesh.smf" [] []).2 = [Vec (1 - 1) (2 - 1) (3 - 1)].
Proof.
  assert (Forall (λ '(a, b, c), 1 <= a ∧ 1 <= b ∧ 1 <= c)
                 (file_faces_of sample_directives)) as Hone.
  { repeat constructor; lia. }
  split; [reflexivity|]. split; [exact sample_mesh_denotes|]. split; [exact Hone|].
  exact (proj1 (face_indices_are_file_numbers_minus_one (file_env sample_mesh) "mesh.smf" _
                  sample_directives [] [] eq_refl sample_mesh_denotes Hone)).
Defined.

End LoaderTheorems.

(** ** The flat variant *)

Section Flat.
Import Part1.

Lemma at_index_lookup {A} (v : list A) i :
  0 <= i → at_index v i = v !! Z.to_nat i.
Proof. unfold at_index. intros H. destruct (i <? 0) eqn:E; [lia | done]. Qed.

Lemma at_index_in_range {A} (v : list A) i :
  0 <= i < Z.of_nat (length v) → is_Some (at_index v i).
Proof.
  intros H. rewrite at_index_lookup by lia. apply lookup_lt_is_Some. lia.
Qed.

Lemma at_index_out_of_range {A} (v : list A) i :
  Z.of_nat (length v) <= i → at_index v i = None.
Proof.
  intros H. rewrite at_index_lookup by lia. apply lookup_ge_None. lia.
Qed.

Lemma flat_loop_spec positions faces :
  Forall (in_range (length positions)) faces → ∀ acc,
  ∃ vs, flat_loop positions faces acc = Some vs ∧
        length vs = (length acc + 3 * length faces)%nat ∧
        (∀ j, (j < length acc)%nat → vs !! j = acc !! j) ∧
        ∀ i f, faces !! i = Some f →
          ∃ p0 p1 p2,
            at_index positions (Glm.x f) = Some p0 ∧
            at_index positions (Glm.y f) = Some p1 ∧
            at_index positions (Glm.z f) = Some p2 ∧
            let n := Glm.normalize (Glm.cross (Glm.vsub p1 p0) (Glm.vsub p2 p0)) in
            vs !! (length acc + 3 * i)%nat = Some (MkVertex p0 n (Glm.abs n)) ∧
            vs !! (length acc + 3 * i + 1)%nat = Some (MkVertex p1 n (Glm.abs n)) ∧
            vs !! (length acc + 3 * i + 2)%nat = Some (MkVertex p2 n (Glm.abs n)).
Proof.
  induction 1 as [|f faces (Hx & Hy & Hz) _ IH]; intros acc.
  - exists acc. simpl. split_and!; [done | lia | done | intros i f Hf; done].
  - destruct (at_index_in_range positions _ Hx) as [p0 E0].
    destruct (at_index_in_range positions _ Hy) as [p1 E1].
    destruct (at_index_in_range positions _ Hz) as [p2 E2].
    cbn [flat_loop]. unfold flat_face. rewrite E0, E1, E2. simpl.
    set (n := Glm.normalize _).
    destruct (IH (acc ++ [MkVertex p0 n (Glm.abs n); MkVertex p1 n (Glm.abs n);
                          MkVertex p2 n (Glm.abs n)]))
      as (vs & Hvs & Hlen & Hold & Hnew).
    rewrite length_app in Hlen, Hold, Hnew. simpl in Hlen, Hold, Hnew.
    exists vs. split_and!; [done | lia | |].
    + intros j Hj. rewrite Hold by lia. by rewrite lookup_app_l.
    + intros [|i] g Hg; simpl in Hg.
      * injection Hg as <-. exists p0, p1, p2. split_and!; try done.
        -- rewrite Hold, lookup_app_r by lia.
           by replace (_ - _)%nat with 0%nat by lia.
        -- rewrite Hold, lookup_app_r by lia.
           by replace (_ - _)%nat with 1%nat by lia.
        -- rewrite Hold, lookup_app_r by lia.
           by replace (_ - _)%nat with 2%nat by lia.
      * destruct (Hnew i g Hg) as (q0 & q1 & q2 & ? & ? & ? & H0 & H1 & H2).
        exists q0, q1, q2. split_and!; try done.
        -- rewrite <- H0. f_equal. lia.
        -- rewrite <- H1. f_equal. lia.
        -- rewrite <- H2. f_equal. lia.
Qed.

(** [glm::abs] on one component: the absolute value, except that a
    negative zero is returned as it is. *)
Lemma abs1_cases a :
  Glm.abs1 a = if decide (a = S754_zero true) then a else SFabs a.
Proof. by destruct a as [[]|[]| |[] m e]. Qed.

(** C3.  For faces whose indices reference loaded positions, the flat
    processor emits three vertices per face, in face order; those of a
    face with corner positions p0, p1, p2 carry the positions in that
    order, the normal normalize(cross(p1 - p0, p2 - p0)) and the colour
    abs(normal).  The list has 3 times as many vertices as there are
    faces, and the normal of the face (0,0,0), (1,0,0), (0,1,0) is
    (0,0,1).  Each colour component is the absolute value of the normal's
    component: bit for bit unless that component is a negative zero,
    which [glm::abs] hands back unchanged, and equal to it as a number
    unless it is NaN. *)
Theorem flat_vertices_per_face positions faces :
  Forall (in_range (length positions)) faces →
  (∃ vs, flat_vertices positions faces = Some vs ∧
         length vs = (3 * length faces)%nat ∧
         ∀ i f, faces !! i = Some f →
           ∃ p0 p1 p2,
             at_index positions (Glm.x f) = Some p0 ∧
             at_index positions (Glm.y f) = Some p1 ∧
             at_index positions (Glm.z f) = Some p2 ∧
             let n := Glm.normalize (Glm.cross (Glm.vsub p1 p0) (Glm.vsub p2 p0)) in
             vs !! (3 * i)%nat = Some (MkVertex p0 n (Glm.abs n)) ∧
             vs !! (3 * i + 1)%nat = Some (MkVertex p1 n (Glm.abs n)) ∧
             vs !! (3 * i + 2)%nat = Some (MkVertex p2 n (Glm.abs n))) ∧
  Glm.normalize (Glm.cross (Glm.vsub (point 1 0 0) (point 0 0 0))
                           (Glm.vsub (point 0 1 0) (point 0 0 0))) = point 0 0 1 ∧
  (∀ n : vec3,
     Glm.abs n = Vec (Glm.abs1 (Glm.x n)) (Glm.abs1 (Glm.y n)) (Glm.abs1 (Glm.z n))) ∧
  (∀ a, (a ≠ S754_zero true → Glm.abs1 a = SFabs a) ∧
        (a = S754_zero true → Glm.abs1 a = a) ∧
        (is_nan a = false → SFeqb (Glm.abs1 a) (SFabs a) = true)).
Proof.
  intros Hr. split_and!; [|vm_compute; reflexivity|done|].
  - destruct (flat_loop_spec positions faces Hr []) as (vs & Hvs & Hlen & _ & Hnew).
    exists vs. split_and!; [done | simpl in Hlen; lia | exact Hnew].
  - intros a. split_and!.
    + intros Ha. rewrite abs1_cases. case_decide; [contradiction | reflexivity].
    + intros ->. reflexivity.
    + destruct a as [[]|[]| |[] m e]; try done; intros _; cbn;
        unfold SFeqb, SFcompare; by rewrite Z.compare_refl, Pos.compare_cont_refl.
Qed.

Lemma flat_vertices_per_face_witness :
  let faces : list uvec3 := [Vec 1 3 2; Vec 3 1 2] in
  Forall (in_range (length flat_quad_positions)) faces ∧
  ∃ vs, flat_vertices flat_quad_positions faces = Some vs ∧
        length vs = 6%nat ∧
        vs !! 0%nat =
          Some (MkVertex (point 1 0 0)
                  (Vec (S754_zero false) (S754_zero true) F32.one)
                  (Vec (S754_zero false) (S754_zero true) F32.one)) ∧
        vs !! 3%nat =
          Some (MkVertex (point 1 1 0)
                  (Vec (S754_zero true) (S754_zero true) (SFopp F32.one))
                  (Vec (S754_zero true) (S754_zero true) F32.one)).
Proof.
  intros faces.
  assert (Forall (in_range (length flat_quad_positions)) faces) as Hr
    by (repeat constructor; simpl; lia).
  split; [exact Hr|].
  destruct (flat_vertices_per_face flat_quad_positions faces Hr)
    as [(vs & Hvs & Hlen & Hnew) _].
  exists vs. split; [exact Hvs|]. split; [exact Hlen|].
  destruct (Hnew 0%nat (Vec 1 3 2) eq_refl) as (p0 & p1 & p2 & E0 & E1 & E2 & V0 & _).
  destruct (Hnew 1%nat (Vec 3 1 2) eq_refl) as (q0 & q1 & q2 & G0 & G1 & G2 & W0 & _).
  vm_compute in E0, E1, E2, G0, G1, G2.
  injection E0 as <-. injection E1 as <-. injection E2 as <-.
  injection G0 as <-. injection G1 as <-. injection G2 as <-.
  split; [exact V0 | exact W0].
Defined.

Example flat_triangle :
  flat_vertices [point 0 0 0; point 1 0 0; point 0 1 0] [Vec 0 1 2] =
    Some [MkVertex (point 0 0 0) (point 0 0 1) (point 0 0 1);
          MkVertex (point 1 0 0) (point 0 0 1) (point 0 0 1);
          MkVertex (point 0 1 0) (point 0 0 1) (point 0 0 1)].
Proof. vm_compute. reflexivity. Qed.

End Flat.

(** ** The smooth variant *)

Section Smooth.
Import Part2.

Lemma modify_in_range {A} (g : A → A) i (v : list A) :
  0 <= i < Z.of_nat (length v) → modify g i v = Some (alter g (Z.to_nat i) v).
Proof.
  intros H. unfold modify.
  destruct (at_index_in_range v i H) as [a ->]. done.
Qed.

Lemma lookup_alter_decide {A} (g : A → A) (k j : nat) (l : list A) :
  alter g k l !! j = (if decide (k = j) then g else id) <$> l !! j.
Proof.
  rewrite list_lookup_alter.
  destruct (decide (k = j)) as [->|Hne]; [done|]. by destruct (l !! j).
Qed.

Lemma face_normals_in_range positions faces :
  Forall (in_range (length positions)) faces →
  ∃ ns, face_normals positions faces = Some ns ∧ length ns = length faces.
Proof.
  induction 1 as [|f faces (Hx & Hy & Hz) _ (ns & IH & Hlen)]; simpl.
  - by exists [].
  - unfold face_normal.
    destruct (at_index_in_range positions _ Hx) as [p0 ->].
    destruct (at_index_in_range positions _ Hy) as [p1 ->].
    destruct (at_index_in_range positions _ Hz) as [p2 ->].
    simpl. rewrite IH. simpl. eexists. split; [done|]. simpl. by rewrite Hlen.
Qed.

(** One pass of the accumulation loop, seen from vertex [j]. *)
Lemma accumulate_face_spec n f nrm sums counts :
  in_range n f → length sums = n → length counts = n →
  ∃ sums' counts',
    accumulate_face f nrm (sums, counts) = Some (sums', counts') ∧
    length sums' = n ∧ length counts' = n ∧
    ∀ j : nat,
      sums' !! j = (λ s, fold_left Glm.vadd (corner_normals (Z.of_nat j) f nrm) s) <$> sums !! j ∧
      counts' !! j =
        (λ c, c + Z.of_nat (length (corner_normals (Z.of_nat j) f nrm))) <$> counts !! j.
Proof.
  intros (Hx & Hy & Hz) Hs Hc. unfold accumulate_face.
  rewrite (modify_in_range _ (Glm.x f)) by lia. simpl.
  rewrite (modify_in_range _ (Glm.y f)) by (rewrite length_alter; lia). simpl.
  rewrite (modify_in_range _ (Glm.z f)) by (rewrite !length_alter; lia). simpl.
  rewrite (modify_in_range _ (Glm.x f)) by lia. simpl.
  rewrite (modify_in_range _ (Glm.y f)) by (rewrite length_alter; lia). simpl.
  rewrite (modify_in_range _ (Glm.z f)) by (rewrite !length_alter; lia). simpl.
  eexists _, _. split; [done|]. rewrite !length_alter. split_and!; [done..|].
  intros j. rewrite !lookup_alter_decide. unfold corner_normals.
  destruct (sums !! j) as [s|], (counts !! j) as [c|]; simpl;
    repeat match goal with
           | |- context [decide (Z.to_nat ?a = j)] =>
               destruct (decide (Z.to_nat a = j)), (decide (a = Z.of_nat j)); try lia
           end; simpl; split; try done; f_equal; lia.
Qed.

Lemma accumulate_spec n faces : ∀ ns sums counts,
  Forall (in_range n) faces → length ns = length faces →
  length sums = n → length counts = n →
  ∃ sums' counts',
    accumulate faces ns (sums, counts) = Some (sums', counts') ∧
    length sums' = n ∧ length counts' = n ∧
    ∀ j : nat,
      sums' !! j = (λ s, fold_left Glm.vadd (incident (Z.of_nat j) faces ns) s) <$> sums !! j ∧
      counts' !! j =
        (λ c, c + Z.of_nat (length (incident (Z.of_nat j) faces ns))) <$> counts !! j.
Proof.
  induction faces as [|f faces IH]; intros ns sums counts Hr Hlen Hs Hc.
  - exists sums, counts. simpl. split_and!; try done.
    intros j. destruct (sums !! j), (counts !! j); simpl; split; try done;
      f_equal; lia.
  - destruct ns as [|nrm ns]; [done|]. apply Forall_cons in Hr as [Hf Hr].
    destruct (accumulate_face_spec n f nrm sums counts Hf Hs Hc)
      as (s1 & c1 & E1 & Hs1 & Hc1 & H1).
    destruct (IH ns s1 c1 Hr) as (s2 & c2 & E2 & Hs2 & Hc2 & H2);
      [simpl in Hlen; lia | done | done |].
    exists s2, c2. cbn [accumulate]. rewrite E1. simpl. split_and!; try done.
    intros j. destruct (H1 j) as [A1 B1], (H2 j) as [A2 B2].
    rewrite A2, B2, A1, B1. cbn [incident].
    destruct (sums !! j), (counts !! j); simpl; split; try done;
      rewrite ?fold_left_app, ?length_app; try done; f_equal; lia.
Qed.

(** What the three loops leave in [vertexNormals]. *)
Lemma vertex_normals_spec positions faces :
  Forall (in_range (length positions)) faces →
  ∃ fns vns,
    face_normals positions faces = Some fns ∧
    vertex_normals positions faces = Some vns ∧
    length vns = length positions ∧
    ∀ j : nat, (j < length positions)%nat →
      vns !! j =
        Some (finish_normal
                (fold_left Glm.vadd (incident (Z.of_nat j) faces fns) Glm.vec3_0)
                (Z.of_nat (length (incident (Z.of_nat j) faces fns)))).
Proof.
  intros Hr. destruct (face_normals_in_range _ _ Hr) as (fns & Hfns & Hlen).
  destruct (accumulate_spec (length positions) faces fns
              (replicate (length positions) Glm.vec3_0)
              (replicate (length positions) 0) Hr Hlen)
    as (sums & counts & Hacc & Hs & Hc & Hj); [by rewrite length_replicate..|].
  exists fns, (zip_with finish_normal sums counts).
  unfold vertex_normals. rewrite Hfns. simpl. rewrite Hacc. simpl.
  split_and!; [done | done | rewrite length_zip_with; lia |].
  intros j Hlt. destruct (Hj j) as [A B].
  rewrite lookup_replicate_2 in A by done. rewrite lookup_replicate_2 in B by done.
  simpl in A, B.
  rewrite lookup_zip_with, A. simpl. by rewrite B.
Qed.





Example flat_quad_smooth_normals :
  vertex_normals flat_quad_positions flat_quad_faces =
    Some [point 0 0 1; point 0 0 1; point 0 0 1; point 0 0 1; Glm.vec3_0].
Proof. vm_compute. reflexivity. Qed.



End Smooth.

(** ** Key events *)

Section Keys.

(** C5, as amended.  In the first program a key-repeat event updates the
    state exactly as a key-press event of the same key does, for every
    key and state.  In the second program the same holds for every key
    except the material key M, for which a repeat event changes
    nothing: the material is cycled on the initial press only. *)
Theorem repeat_acts_as_press_except_material :
  (∀ s key, Part1.onKey s key GLFW.REPEAT = Part1.onKey s key GLFW.PRESS) ∧
  (∀ s key,
     Part2.key_callback s key GLFW.REPEAT =
     if key =? GLFW.KEY_M then s else Part2.key_callback s key GLFW.PRESS).
Proof.
  split; [reflexivity|]. intros s key. unfold Part2.key_callback.
  change ((GLFW.REPEAT =? GLFW.PRESS) || (GLFW.REPEAT =? GLFW.REPEAT)) with true.
  change ((GLFW.PRESS =? GLFW.PRESS) || (GLFW.PRESS =? GLFW.REPEAT)) with true.
  change (GLFW.REPEAT =? GLFW.PRESS) with false.
  change (GLFW.PRESS =? GLFW.PRESS) with true.
  cbv iota. rewrite andb_false_r.
  destruct (key =? GLFW.KEY_M) eqn:E; [|reflexivity].
  apply Z.eqb_eq in E. subst key. reflexivity.
Qed.

(** C5, as stated, fails: with the second program's initial globals a
    press of M selects material 1, a repeat of M leaves material 0. *)
Lemma material_key_ignores_repeat :
  Part2.currentMaterial
    (Part2.globals (Part2.key_callback part2_initial GLFW.KEY_M GLFW.PRESS)) = 1 ∧
  Part2.currentMaterial
    (Part2.globals (Part2.key_callback part2_initial GLFW.KEY_M GLFW.REPEAT)) = 0 ∧
  Part2.key_callback part2_initial GLFW.KEY_M GLFW.REPEAT ≠
  Part2.key_callback part2_initial GLFW.KEY_M GLFW.PRESS.
Proof.
  split_and!; [reflexivity..|].
  intros H. apply (f_equal (λ s, Part2.currentMaterial (Part2.globals s))) in H.
  vm_compute in H. discriminate.
Qed.

Lemma onKey_frame s key action :
  let s' := Part1.onKey s key action in
  Part1.positions s' = Part1.positions s ∧ Part1.faces s' = Part1.faces s ∧
  Part1.vertices s' = Part1.vertices s ∧ Part1.centroid s' = Part1.centroid s ∧
  Part1.maxRadius s' = Part1.maxRadius s.
Proof.
  unfold Part1.onKey.
  repeat match goal with |- context [if ?c then _ else _] => destruct c end;
    done.
Qed.

Lemma same_mesh_when c stmt s0 s :
  (∀ s, same_mesh s (stmt s)) → same_mesh s0 s → same_mesh s0 (Part2.when c stmt s).
Proof.
  intros Hstmt H. unfold Part2.when. destruct c; [|done].
  specialize (Hstmt s). unfold same_mesh in *. intuition congruence.
Qed.

Lemma key_callback_frame s key action :
  same_mesh s (Part2.key_callback s key action).
Proof.
  unfold Part2.key_callback. cbv zeta.
  destruct ((action =? GLFW.PRESS) || (action =? GLFW.REPEAT)); [|done].
  repeat (apply same_mesh_when; [done|]). done.
Qed.

Lemma poll_events1_frame evs : ∀ s,
  let s' := Part1.poll_events s evs in
  Part1.positions s' = Part1.positions s ∧ Part1.faces s' = Part1.faces s ∧
  Part1.vertices s' = Part1.vertices s ∧ Part1.centroid s' = Part1.centroid s ∧
  Part1.maxRadius s' = Part1.maxRadius s.
Proof.
  induction evs as [|e evs IH]; intros s; [done|].
  unfold Part1.poll_events in *. cbn [fold_left].
  destruct (IH (Part1.onKey s (key e) (action e))) as (-> & -> & -> & -> & ->).
  apply onKey_frame.
Qed.

Lemma poll_events2_frame evs : ∀ s,
  let s' := Part2.poll_events s evs in
  Part2.positions s' = Part2.positions s ∧ Part2.faces s' = Part2.faces s ∧
  Part2.vertexNormals s' = Part2.vertexNormals s ∧
  Part2.vertices s' = Part2.vertices s ∧ Part2.centroid s' = Part2.centroid s ∧
  Part2.maxrad s' = Part2.maxrad s.
Proof.
  induction evs as [|e evs IH]; intros s; [done|].
  unfold Part2.poll_events in *. cbn [fold_left].
  destruct (IH (Part2.key_callback s (key e) (action e))) as (-> & -> & -> & -> & -> & ->).
  apply (key_callback_frame s).
Qed.

Lemma glfwPollEvents1_frame i s :
  let s' := Part1.glfwPollEvents s i in
  Part1.positions s' = Part1.positions s ∧ Part1.faces s' = Part1.faces s ∧
  Part1.vertices s' = Part1.vertices s ∧ Part1.centroid s' = Part1.centroid s ∧
  Part1.maxRadius s' = Part1.maxRadius s.
Proof.
  unfold Part1.glfwPollEvents. pose proof (poll_events1_frame (events i) s) as H.
  by destruct (close_request i).
Qed.

Lemma glfwPollEvents2_frame i s :
  let s' := Part2.glfwPollEvents s i in
  Part2.positions s' = Part2.positions s ∧ Part2.faces s' = Part2.faces s ∧
  Part2.vertexNormals s' = Part2.vertexNormals s ∧
  Part2.vertices s' = Part2.vertices s ∧ Part2.centroid s' = Part2.centroid s ∧
  Part2.maxrad s' = Part2.maxrad s.
Proof.
  unfold Part2.glfwPollEvents. pose proof (poll_events2_frame (events i) s) as H.
  by destruct (close_request i).
Qed.

Lemma render_loop1_frame asserts inputs : ∀ s,
  let r := Part1.render_loop asserts s inputs in
  (Part1.positions (final r) = Part1.positions s ∧
   Part1.faces (final r) = Part1.faces s ∧
   Part1.vertices (final r) = Part1.vertices s) ∧
  Forall (λ fr, Part1.drawn fr = length (Part1.vertices s)) (frames r).
Proof.
  induction inputs as [|i inputs IH]; intros s; cbn [Part1.render_loop]; [done|].
  destruct (Part1.windowShouldClose s); [done|].
  destruct (glfwPollEvents1_frame i s) as (P & F & V & _).
  destruct (frame_aborts _ _ _ _); [done|].
  specialize (IH (Part1.glfwPollEvents s i)). cbv zeta in IH |- *. cbn [final frames].
  destruct IH as [(-> & -> & ->) Hfr]. rewrite V in Hfr.
  split; [done|]. constructor; [|done]. unfold Part1.render. simpl. by rewrite V.
Qed.

Lemma render_loop2_frame asserts inputs : ∀ s,
  let r := Part2.render_loop asserts s inputs in
  (Part2.positions (final r) = Part2.positions s ∧
   Part2.faces (final r) = Part2.faces s ∧
   Part2.vertices (final r) = Part2.vertices s) ∧
  Forall (λ fr, Part2.drawn fr = length (Part2.vertices s)) (frames r).
Proof.
  induction inputs as [|i inputs IH]; intros s; cbn [Part2.render_loop]; [done|].
  destruct (Part2.windowShouldClose s); [done|].
  destruct (glfwPollEvents2_frame i s) as (P & F & _ & V & _).
  destruct (frame_aborts _ _ _ _); [done|].
  specialize (IH (Part2.glfwPollEvents s i)). cbv zeta in IH |- *. cbn [final frames].
  destruct IH as [(-> & -> & ->) Hfr]. rewrite V in Hfr.
  split; [done|]. constructor; [|done]. unfold Part2.render. simpl. by rewrite V.
Qed.

(** The close flag of the window is written by the quit key alone. *)
Lemma onKey_window s key action :
  Part1.windowShouldClose (Part1.onKey s key action) =
  Part1.windowShouldClose s ||
  (((action =? GLFW.PRESS) || (action =? GLFW.REPEAT)) && (key =? GLFW.KEY_ESCAPE)).
Proof.
  unfold Part1.onKey.
  destruct ((action =? GLFW.PRESS) || (action =? GLFW.REPEAT)); [|by rewrite orb_false_r].
  destruct (key =? GLFW.KEY_ESCAPE) eqn:E.
  { apply Z.eqb_eq in E. subst key. rewrite orb_true_r. reflexivity. }
  rewrite orb_false_r.
  repeat match goal with |- context [if ?c then _ else _] => destruct c end;
    reflexivity.
Qed.

Lemma when_keeps_window c stmt s0 s :
  (∀ s, Part2.windowShouldClose (stmt s) = Part2.windowShouldClose s) →
  Part2.windowShouldClose s = Part2.windowShouldClose s0 →
  Part2.windowShouldClose (Part2.when c stmt s) = Part2.windowShouldClose s0.
Proof. intros Hstmt H. unfold Part2.when. destruct c; [|done]. by rewrite Hstmt. Qed.

Lemma when_true stmt s : Part2.when true stmt s = stmt s.
Proof. reflexivity. Qed.

Lemma when_false stmt s : Part2.when false stmt s = s.
Proof. reflexivity. Qed.

Lemma on_globals_window g s :
  Part2.windowShouldClose (Part2.on_globals g s) = Part2.windowShouldClose s.
Proof. reflexivity. Qed.

Lemma key_callback_window s key action :
  Part2.windowShouldClose (Part2.key_callback s key action) =
  Part2.windowShouldClose s ||
  (((action =? GLFW.PRESS) || (action =? GLFW.REPEAT)) && (key =? GLFW.KEY_ESCAPE)).
Proof.
  unfold Part2.key_callback. cbv zeta.
  destruct ((action =? GLFW.PRESS) || (action =? GLFW.REPEAT)); [|by rewrite orb_false_r].
  destruct (key =? GLFW.KEY_ESCAPE) eqn:E.
  { rewrite when_true, orb_true_r. reflexivity. }
  rewrite when_false, orb_false_r.
  repeat (apply when_keeps_window; [intros; apply on_globals_window|]). reflexivity.
Qed.

(** C9.  Whatever key events are delivered, in either program, the
    loaded positions, the faces and the built vertex list are the ones
    from before the events, so the vertex and face counts do not change;
    over a whole run of the render loop (key events, requests to close
    the window, any framebuffer sizes, with or without assertions) the
    state keeps the same mesh and every frame draws the same number of
    vertices.  Apart from the camera, light, mode and material globals a
    handler writes one thing, the close flag of the window, and only for
    the quit key. *)
Theorem key_events_leave_the_mesh s1 s2 evs asserts inputs key action :
  let s1' := Part1.poll_events s1 evs in
  let s2' := Part2.poll_events s2 evs in
  (Part1.positions s1' = Part1.positions s1 ∧ Part1.faces s1' = Part1.faces s1 ∧
   Part1.vertices s1' = Part1.vertices s1) ∧
  (Part2.positions s2' = Part2.positions s2 ∧ Part2.faces s2' = Part2.faces s2 ∧
   Part2.vertices s2' = Part2.vertices s2) ∧
  (let r := Part1.render_loop asserts s1 inputs in
   (Part1.positions (final r) = Part1.positions s1 ∧
    Part1.faces (final r) = Part1.faces s1 ∧
    Part1.vertices (final r) = Part1.vertices s1) ∧
   Forall (λ fr, Part1.drawn fr = length (Part1.vertices s1)) (frames r)) ∧
  (let r := Part2.render_loop asserts s2 inputs in
   (Part2.positions (final r) = Part2.positions s2 ∧
    Part2.faces (final r) = Part2.faces s2 ∧
    Part2.vertices (final r) = Part2.vertices s2) ∧
   Forall (λ fr, Part2.drawn fr = length (Part2.vertices s2)) (frames r)) ∧
  Part1.windowShouldClose (Part1.onKey s1 key action) =
    Part1.windowShouldClose s1 ||
    (((action =? GLFW.PRESS) || (action =? GLFW.REPEAT)) && (key =? GLFW.KEY_ESCAPE)) ∧
  Part2.windowShouldClose (Part2.key_callback s2 key action) =
    Part2.windowShouldClose s2 ||
    (((action =? GLFW.PRESS) || (action =? GLFW.REPEAT)) && (key =? GLFW.KEY_ESCAPE)) ∧
  Part1.centroid (Part1.onKey s1 key action) = Part1.centroid s1 ∧
  Part1.maxRadius (Part1.onKey s1 key action) = Part1.maxRadius s1 ∧
  Part2.vertexNormals (Part2.key_callback s2 key action) = Part2.vertexNormals s2 ∧
  Part2.centroid (Part2.key_callback s2 key action) = Part2.centroid s2 ∧
  Part2.maxrad (Part2.key_callback s2 key action) = Part2.maxrad s2.
Proof.
  intros s1' s2'.
  destruct (poll_events1_frame evs s1) as (P1 & F1 & V1 & _).
  destruct (poll_events2_frame evs s2) as (P2 & F2 & _ & V2 & _).
  destruct (onKey_frame s1 key action) as (_ & _ & _ & C1 & R1).
  destruct (key_callback_frame s2 key action) as (_ & _ & N2 & _ & C2 & R2).
  split_and!; try done.
  - apply render_loop1_frame.
  - apply render_loop2_frame.
  - apply onKey_window.
  - apply key_callback_window.
Qed.

End Keys.

(** ** The two [main] functions *)

Section Main.
Import Stream SMF.

Lemma loadSMF_result env filename ps fs :
  match fopen env filename with
  | None => Part1.loadSMF env filename ps fs = (false, ps, fs)
  | Some _ => ∃ vs fs', Part1.loadSMF env filename ps fs = (true, vs, fs')
  end.
Proof.
  unfold Part1.loadSMF. destruct (fopen env filename) as [content|]; [|done].
  destruct (Part1.loadSMF_loop _ _ _ _) as [vs fs']. by exists vs, fs'.
Qed.

Lemma second_argument (argv : list string) :
  (length argv <? 2)%nat = false → ∃ f, argv !! 1%nat = Some f.
Proof.
  intros H. apply Nat.ltb_ge in H.
  destruct (lookup_lt_is_Some_2 argv 1 ltac:(lia)) as [f Hf]. by exists f.
Qed.

(** Why [main] of the first program can end before its render loop. *)
Lemma main1_exit env argv status :
  Part1.main env argv = Exit status →
  status = -1 ∧
  ((length argv < 2)%nat ∨ (∃ f, argv !! 1%nat = Some f ∧ fopen env f = None) ∨
   glfwInit env = false ∨ glfwCreateWindow env = false ∨ gladLoadGLLoader env = false).
Proof.
  unfold Part1.main. destruct (length argv <? 2)%nat eqn:Hargc.
  { intros [= <-]. split; [done|]. left. by apply Nat.ltb_lt. }
  destruct (second_argument _ Hargc) as [f Hf]. rewrite Hf. simpl.
  pose proof (loadSMF_result env f [] []) as Hload.
  destruct (fopen env f) as [content|] eqn:Hopen.
  - destruct Hload as (vs & fs' & ->). simpl.
    destruct (Part1.flat_vertices vs fs'); [|done].
    destruct (glfwInit env), (glfwCreateWindow env), (gladLoadGLLoader env); simpl;
      intros [= <-] || done; split; try done; tauto.
  - rewrite Hload. simpl. intros [= <-]. split; [done|]. right. left. by exists f.
Qed.

Lemma main2_exit env argv status :
  Part2.main env argv = Exit status →
  status = -1 ∧
  ((length argv < 2)%nat ∨ (∃ f, argv !! 1%nat = Some f ∧ fopen env f = None) ∨
   glfwInit env = false ∨ glfwCreateWindow env = false ∨ gladLoadGLLoader env = false).
Proof.
  unfold Part2.main. destruct (length argv <? 2)%nat eqn:Hargc.
  { intros [= <-]. split; [done|]. left. by apply Nat.ltb_lt. }
  destruct (second_argument _ Hargc) as [f Hf]. rewrite Hf. simpl.
  rewrite load_smf_eq.
  pose proof (loadSMF_result env f [] []) as Hload.
  destruct (fopen env f) as [content|] eqn:Hopen.
  - destruct Hload as (vs & fs' & ->). simpl.
    destruct (Part2.vertex_normals vs fs') as [vns|]; [|done].
    destruct (Part2.triangle_list vs vns fs' []); [|done].
    destruct (glfwInit env), (glfwCreateWindow env), (gladLoadGLLoader env); simpl;
      intros [= <-] || done; split; try done; tauto.
  - rewrite Hload. simpl. intros [= <-]. split; [done|]. right. left. by exists f.
Qed.

(** C6, as amended.  Each loader returns false exactly when the path
    cannot be opened, leaving its outputs as they were, and returns true
    on every file that opens, whatever its content.  Each [main] exits
    with the non-zero status -1 when the argument is missing or the file
    cannot be opened, and whenever it exits before the render loop the
    status is -1 and the cause is one of: missing argument, unopenable
    file, or a failed graphics start-up call ([glfwInit],
    [glfwCreateWindow], [gladLoadGLLoader]). *)
Theorem loader_fails_only_on_open env filename ps fs argv :
  (fopen env filename = None →
   Part1.loadSMF env filename ps fs = (false, ps, fs) ∧
   Part2.load_smf env filename ps fs = (false, ps, fs)) ∧
  (∀ content, fopen env filename = Some content →
   ∃ vs fs', Part1.loadSMF env filename ps fs = (true, vs, fs') ∧
             Part2.load_smf env filename ps fs = (true, vs, fs')) ∧
  ((length argv < 2)%nat →
   Part1.main env argv = Exit (-1) ∧ Part2.main env argv = Exit (-1)) ∧
  (argv !! 1%nat = Some filename → fopen env filename = None →
   Part1.main env argv = Exit (-1) ∧ Part2.main env argv = Exit (-1)) ∧
  (∀ status,
   Part1.main env argv = Exit status ∨ Part2.main env argv = Exit status →
   status = -1 ∧
   ((length argv < 2)%nat ∨ (∃ f, argv !! 1%nat = Some f ∧ fopen env f = None) ∨
    glfwInit env = false ∨ glfwCreateWindow env = false ∨
    gladLoadGLLoader env = false)).
Proof.
  pose proof (loadSMF_result env filename ps fs) as Hload.
  split_and!.
  - intros Ho. rewrite load_smf_eq. rewrite Ho in Hload. done.
  - intros content Ho. rewrite load_smf_eq. rewrite Ho in Hload.
    destruct Hload as (vs & fs' & ->). by exists vs, fs'.
  - intros Hargc. apply Nat.ltb_lt in Hargc.
    unfold Part1.main, Part2.main. by rewrite Hargc.
  - intros Hf Ho.
    assert ((length argv <? 2)%nat = false) as Hargc.
    { apply Nat.ltb_ge. apply lookup_lt_Some in Hf. lia. }
    unfold Part1.main, Part2.main. rewrite Hargc, Hf. simpl.
    rewrite load_smf_eq. unfold Part1.loadSMF. by rewrite Ho.
  - intros status [H|H]; [by apply main1_exit | by apply main2_exit].
Qed.

Lemma loader_fails_only_on_open_witness :
  fopen (file_env sample_mesh) "mesh.smf" = Some (list_ascii_of_string sample_mesh) ∧
  (length ["viewer"%string] < 2)%nat ∧
  (∃ vs fs', Part1.loadSMF (file_env sample_mesh) "mesh.smf" [] [] = (true, vs, fs') ∧
             Part2.load_smf (file_env sample_mesh) "mesh.smf" [] [] = (true, vs, fs')) ∧
  Part1.main (file_env sample_mesh) ["viewer"%string] = Exit (-1) ∧
  Part2.main (file_env sample_mesh) ["viewer"%string] = Exit (-1).
Proof.
  assert (length ["viewer"%string] < 2)%nat as Hargc by (simpl; lia).
  split; [reflexivity|]. split; [exact Hargc|].
  destruct (loader_fails_only_on_open (file_env sample_mesh) "mesh.smf" [] []
              ["viewer"%string]) as (_ & Hok & Hmissing & _).
  split; [exact (Hok _ eq_refl) | exact (Hmissing Hargc)].
Defined.

(** C6, as stated, fails: with the argument given and the file opened,
    both programs still exit with status -1 when [glfwInit] fails. *)
Lemma exit_without_argument_or_file_error :
  length ["viewer"; "mesh.smf"]%string = 2%nat ∧
  fopen (no_glfw_env triangle_file) "mesh.smf" =
    Some (list_ascii_of_string triangle_file) ∧
  Part1.main (no_glfw_env triangle_file) ["viewer"; "mesh.smf"]%string = Exit (-1) ∧
  Part2.main (no_glfw_env triangle_file) ["viewer"; "mesh.smf"]%string = Exit (-1).
Proof. split_and!; vm_compute; reflexivity. Qed.

End Main.

(** ** Indices outside the mesh *)

Section OutOfRange.
Import Stream SMF.

Lemma face_of_directive ds a b c :
  Some (DFace a b c) ∈ ds →
  Vec (wrap32 (a - 1)) (wrap32 (b - 1)) (wrap32 (c - 1)) ∈ faces_of ds.
Proof.
  unfold faces_of. induction ds as [|d ds IH]; intros Hin.
  - by apply elem_of_nil in Hin.
  - cbn [map concat]. apply elem_of_app.
    apply elem_of_cons in Hin as [<-|Hin]; [left | right; by apply IH].
    simpl. by apply list_elem_of_singleton.
Qed.

(** A face with an index the positions do not have stops the flat
    processor at an out-of-range read. *)
Lemma flat_loop_out_of_range positions faces f :
  f ∈ faces →
  (at_index positions (Glm.x f) = None ∨ at_index positions (Glm.y f) = None ∨
   at_index positions (Glm.z f) = None) →
  ∀ acc, Part1.flat_loop positions faces acc = None.
Proof.
  intros Hin Hout. induction faces as [|g faces IH]; intros acc.
  - by apply elem_of_nil in Hin.
  - cbn [Part1.flat_loop].
    destruct (Part1.flat_face positions g acc) as [acc'|] eqn:E; [|done].
    simpl. apply elem_of_cons in Hin as [<-|Hin]; [|by apply IH].
    exfalso. unfold Part1.flat_face in E.
    destruct (at_index positions (Glm.x f)); [|done].
    destruct (at_index positions (Glm.y f)); [|done].
    destruct (at_index positions (Glm.z f)); [|done].
    destruct Hout as [?|[?|?]]; done.
Qed.

Lemma face_normals_out_of_range positions faces f :
  f ∈ faces →
  (at_index positions (Glm.x f) = None ∨ at_index positions (Glm.y f) = None ∨
   at_index positions (Glm.z f) = None) →
  Part2.face_normals positions faces = None.
Proof.
  intros Hin Hout. induction faces as [|g faces IH].
  - by apply elem_of_nil in Hin.
  - cbn [Part2.face_normals].
    destruct (Part2.face_normal positions g) as [n|] eqn:E; [|done].
    simpl. apply elem_of_cons in Hin as [<-|Hin]; [|by rewrite IH].
    exfalso. unfold Part2.face_normal in E.
    destruct (at_index positions (Glm.x f)); [|done].
    destruct (at_index positions (Glm.y f)); [|done].
    destruct (at_index positions (Glm.z f)); [|done].
    destruct Hout as [?|[?|?]]; done.
Qed.

(** C10.  In a readable file of well-formed lines, a face line with the
    number 0 makes neither loader fail: the face is stored with the index
    4294967295 = 2^32 - 1 in that place, whatever the number of vertices.
    The index then reaches the normal computation of both programs, where
    (the mesh having fewer than 2^32 vertices) it is an out-of-range read
    of the positions. *)
Theorem zero_index_wraps_to_uint_max env prog filename content ds ps fs a b c :
  fopen env filename = Some content →
  Forall2 line_denotes (getlines content) ds →
  Some (DFace a b c) ∈ ds →
  a = 0 ∨ b = 0 ∨ c = 0 →
  Z.of_nat (length (vertices_of ds)) <= 4294967295 →
  let f := Vec (wrap32 (a - 1)) (wrap32 (b - 1)) (wrap32 (c - 1)) in
  (a = 0 → Glm.x f = 4294967295) ∧
  (b = 0 → Glm.y f = 4294967295) ∧
  (c = 0 → Glm.z f = 4294967295) ∧
  (∃ faces,
     Part1.loadSMF env filename ps fs = (true, vertices_of ds, faces) ∧
     Part2.load_smf env filename ps fs = (true, vertices_of ds, faces) ∧
     f ∈ faces ∧
     Part1.flat_vertices (vertices_of ds) faces = None ∧
     Part2.vertex_normals (vertices_of ds) faces = None) ∧
  Part1.main env [prog; filename] = Undefined ∧
  Part2.main env [prog; filename] = Undefined.
Proof.
  intros Ho Hd Hin Hzero Hsize f.
  assert (f ∈ faces_of ds) as Hf by (apply face_of_directive; exact Hin).
  assert (at_index (vertices_of ds) (Glm.x f) = None ∨
          at_index (vertices_of ds) (Glm.y f) = None ∨
          at_index (vertices_of ds) (Glm.z f) = None) as Hout.
  { destruct Hzero as [-> | [-> | ->]]; [left | right; left | right; right];
      apply at_index_out_of_range; exact Hsize. }
  assert (Part1.flat_vertices (vertices_of ds) (faces_of ds) = None) as Hflat.
  { by apply (flat_loop_out_of_range _ _ f). }
  assert (Part2.vertex_normals (vertices_of ds) (faces_of ds) = None) as Hsmooth.
  { unfold Part2.vertex_normals. by rewrite (face_normals_out_of_range _ _ f). }
  pose proof (loadSMF_denotes env filename content ds [] [] Ho Hd) as Hload.
  split_and!.
  - by intros ->.
  - by intros ->.
  - by intros ->.
  - exists (faces_of ds). rewrite load_smf_eq.
    by rewrite (loadSMF_denotes env filename content ds ps fs Ho Hd).
  - unfold Part1.main. simpl. by rewrite Hload, Hflat.
  - unfold Part2.main. simpl. by rewrite load_smf_eq, Hload, Hsmooth.
Qed.

Lemma zero_index_file_denotes :
  Forall2 line_denotes (getlines (list_ascii_of_string zero_index_file))
          [Some (DFace 0 1 2)].
Proof.
  assert (∀ c, isdigit c = true → index_text [c] (code c - 48)) as Hdigit.
  { intros c Hc. apply (index_text_intro [c]).
    - by repeat constructor.
    - done.
    - unfold isdigit in Hc. unfold digits_value, UINT_MAX. simpl. lia. }
  apply List.Forall2_cons; [|apply List.Forall2_nil].
  apply (line_face [] [" "%char] ["0"%char] [" "%char] ["1"%char] [" "%char] ["2"%char] []
                   0 1 2); try (by repeat constructor); by apply (Hdigit _ eq_refl).
Qed.

Lemma zero_index_wraps_to_uint_max_witness :
  fopen (file_env zero_index_file) "mesh.smf" =
    Some (list_ascii_of_string zero_index_file) ∧
  Forall2 line_denotes (getlines (list_ascii_of_string zero_index_file))
          [Some (DFace 0 1 2)] ∧
  Some (DFace 0 1 2) ∈ [Some (DFace 0 1 2)] ∧
  (∃ faces,
     Part1.loadSMF (file_env zero_index_file) "mesh.smf" [] [] = (true, [], faces) ∧
     Vec 4294967295 0 1 ∈ faces) ∧
  Part1.main (file_env zero_index_file) ["viewer"; "mesh.smf"]%string = Undefined ∧
  Part2.main (file_env zero_index_file) ["viewer"; "mesh.smf"]%string = Undefined.
Proof.
  assert (Some (DFace 0 1 2) ∈ [Some (DFace 0 1 2)]) as Hin by apply list_elem_of_here.
  split; [reflexivity|]. split; [exact zero_index_file_denotes|]. split; [exact Hin|].
  destruct (zero_index_wraps_to_uint_max (file_env zero_index_file) "viewer" "mesh.smf"
              _ [Some (DFace 0 1 2)] [] [] 0 1 2 eq_refl zero_index_file_denotes Hin
              (or_introl eq_refl) ltac:(simpl; lia))
    as (_ & _ & _ & (faces & Hload & _ & Hf & _) & Hmain1 & Hmain2).
  split; [|split; [exact Hmain1 | exact Hmain2]].
  exists faces. split; [exact Hload | exact Hf].
Defined.

End OutOfRange.

(** ** The projection of a frame *)

Section Projections.

Lemma main1_running env argv st :
  Part1.main env argv = Running st →
  Part1.maxRadius st =
    mesh_max_radius (Part1.positions st) (mesh_centroid (Part1.positions st)).
Proof.
  unfold Part1.main. destruct (length argv <? 2)%nat; [done|].
  destruct (Part1.loadSMF _ _ _ _) as [[ok vs] fs]. destruct ok; [|done]. simpl.
  destruct (Part1.flat_vertices vs fs); [|done].
  destruct (glfwInit env), (glfwCreateWindow env), (gladLoadGLLoader env); simpl;
    try done.
  by intros [= <-].
Qed.

Lemma main2_running env argv st :
  Part2.main env argv = Running st →
  Part2.maxrad st =
    mesh_max_radius (Part2.positions st) (mesh_centroid (Part2.positions st)).
Proof.
  unfold Part2.main. destruct (length argv <? 2)%nat; [done|].
  destruct (Part2.load_smf _ _ _ _) as [[ok vs] fs]. destruct ok; [|done]. simpl.
  destruct (Part2.vertex_normals vs fs) as [vns|]; [|done].
  destruct (Part2.triangle_list vs vns fs []); [|done].
  destruct (glfwInit env), (glfwCreateWindow env), (gladLoadGLLoader env); simpl;
    try done.
  by intros [= <-].
Qed.

(** The projection as a function of the mode flag, the bounding radius
    [r] of the mesh and the framebuffer size. *)
Lemma frame_projection_cases persp r w h :
  frame_projection persp r w h =
  let aspect := F32.div (F32.of_Z w) (F32.of_Z h) in
  if persp then
    perspective (Glm.radians (F32.of_Z 45)) aspect
                (F32.of_decimal false 1 (-2)) (F32.of_Z 100)
  else
    ortho (F32.mul (SFopp (F32.mul r F32.two)) aspect)
          (F32.mul (F32.mul r F32.two) aspect)
          (SFopp (F32.mul r F32.two)) (F32.mul r F32.two)
          (SFopp (F32.of_Z 100)) (F32.of_Z 100).
Proof. reflexivity. Qed.

(** C8, as stated, fails: for the triangle (0,0,0), (1,0,0), (0,1,0) the
    orthographic half-extent of the mesh scaled by 3 is not 3 times the
    half-extent of the mesh (the two differ in the last bit), and that of
    the mesh scaled by -1 is not -1 times it (it is the same positive
    number). *)
Lemma half_extent_not_proportional :
  ∃ t t3 tm,
    part1_ortho_top triangle_file = Some t ∧
    part1_ortho_top triangle_times_3_file = Some t3 ∧
    part1_ortho_top triangle_times_minus_1_file = Some tm ∧
    SFeqb t3 (F32.mul (F32.of_Z 3) t) = false ∧
    SFeqb tm (F32.mul (F32.of_Z (-1)) t) = false.
Proof. eexists _, _, _. split_and!; vm_compute; reflexivity. Qed.

End Projections.

(** * Further facts about the two programs *)

(** ** The loaders on arbitrary text *)

Section LoadersAnyText.
Import Stream SMF Lines.

Lemma skipws_blanks ws : blanks ws → skipws ws = [].
Proof. intros H. rewrite <- (app_nil_r ws). by apply skipws_app. Qed.

(** What one iteration does to the two vectors, by the character read
    into [type] (the indeterminate one when the line holds blanks only):
    exactly one vertex for [v], exactly one face for [f], nothing
    otherwise; what was stored before stays in place. *)
Lemma loadSMF_body_shape u line vs fs :
  line ≠ [] →
  let t := default (i_type u) (first_char line) in
  ∃ v f,
    Part1.loadSMF_body u line (vs, fs) =
      if Ascii.eqb t "v" then (vs ++ [v], fs)
      else if Ascii.eqb t "f" then (vs, fs ++ [f])
      else (vs, fs).
Proof.
  intros Hne t. unfold Part1.loadSMF_body.
  destruct line as [|c0 l0]; [done|].
  assert (get_char (open (c0 :: l0)) =
          (first_char (c0 :: l0),
           match skipws (c0 :: l0) with [] => Iss [] true | _ :: r => Iss r false end)) as ->.
  { unfold get_char, open, first_char. cbn [failed buf].
    by destruct (skipws (c0 :: l0)). }
  cbv zeta. change (store (i_type u) (first_char (c0 :: l0))) with t. clearbody t.
  destruct (Ascii.eqb t "v").
  - destruct (get_float _) as [r1 s1]. destruct (get_float s1) as [r2 s2].
    destruct (get_float s2) as [r3 s3]. eexists _, (Vec 0 0 0). reflexivity.
  - destruct (Ascii.eqb t "f").
    + destruct (get_unsigned _) as [r1 s1]. destruct (get_unsigned s1) as [r2 s2].
      destruct (get_unsigned s2) as [r3 s3]. eexists Glm.vec3_0, _. reflexivity.
    + exists Glm.vec3_0, (Vec 0 0 0). reflexivity.
Qed.

Lemma loadSMF_loop_counts u lines : ∀ i vs fs,
  Forall (λ l, blank_only l = false) lines →
  let '(vs', fs') := Part1.loadSMF_loop u i lines (vs, fs) in
  length vs' = (length vs + length (List.filter (has_tag "v") lines))%nat ∧
  length fs' = (length fs + length (List.filter (has_tag "f") lines))%nat.
Proof.
  induction lines as [|l lines IH]; intros i vs fs Hb; cbn [Part1.loadSMF_loop].
  { simpl. clear. lia. }
  apply Forall_cons in Hb as [Hl Hb].
  destruct l as [|c0 l0].
  - specialize (IH (S i) vs fs Hb). cbn [Part1.loadSMF_body List.filter has_tag first_char skipws head].
    exact IH.
  - destruct (loadSMF_body_shape (u i) (c0 :: l0) vs fs ltac:(done)) as (v & f & Hbody).
    unfold blank_only in Hl.
    destruct (first_char (c0 :: l0)) as [t|] eqn:Ef; [|done].
    cbn [default from_option id] in Hbody.
    assert (∀ c, has_tag c (c0 :: l0) = Ascii.eqb t c) as Htag.
    { intros c. unfold has_tag. by rewrite Ef. }
    cbn [List.filter]. rewrite !Htag, Hbody. clear Hbody Htag Ef Hl.
    destruct (Ascii.eqb_spec t "v") as [->|Hv].
    + specialize (IH (S i) (vs ++ [v]) fs Hb).
      destruct (Part1.loadSMF_loop _ _ _ _) as [vs' fs'].
      rewrite length_app in IH. simpl in *. clear -IH. lia.
    + destruct (Ascii.eqb t "f").
      * specialize (IH (S i) vs (fs ++ [f]) Hb).
        destruct (Part1.loadSMF_loop _ _ _ _) as [vs' fs'].
        rewrite length_app in IH. simpl in *. clear -IH. lia.
      * exact (IH (S i) vs fs Hb).
Qed.


(** X2.  Whatever the numbers on the lines look like (missing, malformed,
    out of range), in a file that opens and has no line of blanks only
    the loader returns as many vertices as there are lines whose first
    non-blank character is [v] and as many faces as there are lines whose
    first non-blank character is [f]. *)
Theorem counts_follow_first_characters env filename content ps fs :
  fopen env filename = Some content →
  Forall (λ l, blank_only l = false) (getlines content) →
  ∃ vs' fs',
    Part1.loadSMF env filename ps fs = (true, vs', fs') ∧
    length vs' = length (List.filter (has_tag "v") (getlines content)) ∧
    length fs' = length (List.filter (has_tag "f") (getlines content)).
Proof.
  intros Ho Hb. unfold Part1.loadSMF. rewrite Ho.
  pose proof (loadSMF_loop_counts (indet env) (getlines content) 0 [] [] Hb) as H.
  destruct (Part1.loadSMF_loop _ _ _ _) as [vs' fs'].
  exists vs', fs'. simpl in H. tauto.
Qed.

Lemma counts_follow_first_characters_witness :
  fopen (file_env ragged_file) "mesh.smf" = Some (list_ascii_of_string ragged_file) ∧
  Forall (λ l, blank_only l = false) (getlines (list_ascii_of_string ragged_file)) ∧
  ∃ vs' fs',
    Part1.loadSMF (file_env ragged_file) "mesh.smf" [] [] = (true, vs', fs') ∧
    length vs' = 3%nat ∧ length fs' = 2%nat.
Proof.
  assert (Forall (λ l, blank_only l = false)
                 (getlines (list_ascii_of_string ragged_file))) as Hb.
  { vm_compute. repeat constructor. }
  split; [reflexivity|]. split; [exact Hb|].
  exact (counts_follow_first_characters (file_env ragged_file) "mesh.smf" _ [] []
           eq_refl Hb).
Defined.

Lemma get_float_failed s : failed s = true → get_float s = (None, s).
Proof. unfold get_float. by intros ->. Qed.

Lemma get_unsigned_failed s : failed s = true → get_unsigned s = (None, s).
Proof. unfold get_unsigned. by intros ->. Qed.

Lemma get_float_at_end ws :
  blanks ws → get_float (Iss ws false) = (None, Iss [] true).
Proof. intros H. unfold get_float. simpl. by rewrite skipws_blanks. Qed.

(** X3.  A vertex line that ends after its second number still adds a
    vertex: x and y are the two numbers read, z is whatever the
    uninitialised local [z] held. *)
Theorem short_vertex_line_adds_vertex u ws0 ws1 t1 ws2 t2 ws3 x y vs fs :
  blanks ws0 → blanks ws1 → blanks ws2 → ws2 ≠ [] → blanks ws3 →
  float_text t1 x → float_text t2 y →
  Part1.loadSMF_body u (ws0 ++ "v"%char :: ws1 ++ t1 ++ ws2 ++ t2 ++ ws3) (vs, fs) =
    (vs ++ [Vec x y (i_z u)], fs).
Proof.
  intros H0 H1 H2 N2 H3 T1 T2. unfold Part1.loadSMF_body.
  destruct (ws0 ++ _ :: _) as [|c0 l0] eqn:E; [by destruct ws0|]. rewrite <- E.
  rewrite get_char_tag by done. simpl store. simpl Ascii.eqb. cbv iota.
  rewrite (get_float_text ws1 t1 x) by auto using delimited_blanks.
  assert (delimited ws3) as D3 by (destruct H3; done).
  rewrite (get_float_text ws2 t2 y) by done.
  rewrite get_float_at_end by done. reflexivity.
Qed.

Lemma short_vertex_line_adds_vertex_witness :
  Part1.loadSMF_body indet_marked (list_ascii_of_string "v 1 0") ([], []) =
    ([Vec F32.one F32.zero (F32.of_Z 9)], []).
Proof.
  assert (float_text ["1"%char] F32.one) as T1.
  { apply (float_text_intro [] false ["1"%char] [] [] [] 0);
      repeat first [done | constructor]. }
  assert (float_text ["0"%char] F32.zero) as T0.
  { apply (float_text_intro [] false ["0"%char] [] [] [] 0);
      repeat first [done | constructor]. }
  exact (short_vertex_line_adds_vertex indet_marked [] [" "%char] ["1"%char]
           [" "%char] ["0"%char] [] F32.one F32.zero [] []
           ltac:(constructor) ltac:(repeat constructor) ltac:(repeat constructor)
           ltac:(done) ltac:(constructor) T1 T0).
Defined.

Lemma scan_float_no_number c rest :
  starts_no_number c = true → scan_float (c :: rest) = None.
Proof.
  unfold starts_no_number. intros H.
  repeat (apply andb_true_iff in H as [H ?]).
  apply negb_true_iff in H.
  repeat match goal with Hn : negb _ = true |- _ => apply negb_true_iff in Hn end.
  unfold scan_float, scan_sign.
  match goal with H1 : Ascii.eqb c "-" = false |- _ => rewrite H1 end.
  match goal with H1 : Ascii.eqb c "+" = false |- _ => rewrite H1 end.
  cbn [span].
  match goal with H1 : isdigit c = false |- _ => rewrite H1 end.
  match goal with H1 : Ascii.eqb c "." = false |- _ => rewrite H1 end.
  reflexivity.
Qed.

(** X4.  A vertex line whose first field is not a number adds the vertex
    (0, y, z) with y and z the uninitialised locals: after the failed
    extraction nothing more is read, even when valid numbers follow. *)
Theorem malformed_field_stops_reading u ws0 ws1 c rest vs fs :
  blanks ws0 → blanks ws1 → starts_no_number c = true →
  Part1.loadSMF_body u (ws0 ++ "v"%char :: ws1 ++ c :: rest) (vs, fs) =
    (vs ++ [Vec F32.zero (i_y u) (i_z u)], fs).
Proof.
  intros H0 H1 Hc. unfold Part1.loadSMF_body.
  destruct (ws0 ++ _ :: _) as [|c0 l0] eqn:E; [by destruct ws0|]. rewrite <- E.
  rewrite get_char_tag by done. simpl store. simpl Ascii.eqb. cbv iota.
  assert (isspace c = false) as Hsp.
  { unfold starts_no_number in Hc. destruct (isspace c); [done|reflexivity]. }
  assert (get_float (Iss (ws1 ++ c :: rest) false) =
          (Some F32.zero, Iss (c :: rest) true)) as ->.
  { unfold get_float. cbn [failed buf]. rewrite skipws_app by done.
    by rewrite scan_float_no_number. }
  rewrite !get_float_failed by done. reflexivity.
Qed.

Lemma malformed_field_stops_reading_witness :
  Part1.loadSMF_body indet_marked (list_ascii_of_string "v x 2 3") ([], []) =
    ([Vec F32.zero (F32.of_Z 8) (F32.of_Z 9)], []).
Proof.
  exact (malformed_field_stops_reading indet_marked [] [" "%char] "x"
           (list_ascii_of_string " 2 3") [] []
           ltac:(constructor) ltac:(repeat constructor) eq_refl).
Defined.

(** X5.  A face line whose first number does not fit an [unsigned int]
    stores 4294967294 (the largest value minus one) as its first index
    and takes the other two from the uninitialised locals: the rest of
    the line is not read. *)
Theorem oversized_index_saturates u ws0 ws1 t rest vs fs :
  blanks ws0 → blanks ws1 → digits t → t ≠ [] → delimited rest →
  UINT_MAX < digits_value t →
  Part1.loadSMF_body u (ws0 ++ "f"%char :: ws1 ++ t ++ rest) (vs, fs) =
    (vs, fs ++ [Vec 4294967294 (wrap32 (i_b u - 1)) (wrap32 (i_c u - 1))]).
Proof.
  intros H0 H1 Ht Hne Hrest Hbig. unfold Part1.loadSMF_body.
  destruct (ws0 ++ _ :: _) as [|c0 l0] eqn:E; [by destruct ws0|]. rewrite <- E.
  rewrite get_char_tag by done. simpl store. simpl Ascii.eqb. cbv iota.
  assert (get_unsigned (Iss (ws1 ++ t ++ rest) false) =
          (Some UINT_MAX, Iss rest true)) as ->.
  { unfold get_unsigned. cbn [failed buf].
    rewrite skipws_app by auto using stops_digits_space.
    destruct (t ++ rest) as [|c1 r1] eqn:E1; [by destruct t|]. rewrite <- E1.
    unfold scan_unsigned.
    assert (scan_sign (t ++ rest) = (false, t ++ rest)) as ->.
    { apply (scan_sign_text [] false); [constructor|].
      destruct Ht as [|d t' Hd _]; [done|]. simpl. by apply not_sign_of_digit. }
    rewrite span_app by auto using delimited_stops_digit.
    destruct t; [done|].
    apply Z.ltb_lt in Hbig. by rewrite Hbig. }
  rewrite !get_unsigned_failed by done. reflexivity.
Qed.

Lemma oversized_index_saturates_witness :
  Part1.loadSMF_body indet_marked (list_ascii_of_string "f 4294967296 2 3") ([], []) =
    ([], [Vec 4294967294 7 8]).
Proof.
  exact (oversized_index_saturates indet_marked [] [" "%char]
           (list_ascii_of_string "4294967296") (list_ascii_of_string " 2 3") [] []
           ltac:(constructor) ltac:(repeat constructor) ltac:(repeat constructor)
           ltac:(done) eq_refl eq_refl).
Defined.

(** X6.  A line that is not empty but holds blanks only (such as the
    carriage return a CRLF file leaves on an empty line) is not skipped:
    nothing is extracted from it, and the body acts on the uninitialised
    locals, adding a vertex or a face made of them when the uninitialised
    [type] is [v] or [f]. *)
Theorem blank_line_uses_uninitialised_tag u line vs fs :
  blanks line → line ≠ [] →
  Part1.loadSMF_body u line (vs, fs) =
    if Ascii.eqb (i_type u) "v" then (vs ++ [Vec (i_x u) (i_y u) (i_z u)], fs)
    else if Ascii.eqb (i_type u) "f" then
      (vs, fs ++ [Vec (wrap32 (i_a u - 1)) (wrap32 (i_b u - 1)) (wrap32 (i_c u - 1))])
    else (vs, fs).
Proof.
  intros Hb Hne. unfold Part1.loadSMF_body.
  destruct line as [|c0 l0]; [done|].
  assert (get_char (open (c0 :: l0)) = (None, Iss [] true)) as ->.
  { unfold get_char, open. cbn [failed buf]. by rewrite skipws_blanks. }
  rewrite !get_float_failed, !get_unsigned_failed by done. reflexivity.
Qed.

Lemma blank_line_uses_uninitialised_tag_witness :
  Part1.loadSMF_body indet_marked [ascii_of_N 13] ([], []) =
    ([Vec (F32.of_Z 7) (F32.of_Z 8) (F32.of_Z 9)], []).
Proof.
  exact (blank_line_uses_uninitialised_tag indet_marked [ascii_of_N 13] [] []
           ltac:(repeat constructor) ltac:(done)).
Defined.

Lemma getlines_final_newline s :
  s ≠ [] → last s ≠ Some newline → getlines (s ++ [newline]) = getlines s.
Proof.
  induction s as [|c s IH]; [done|]. intros _ Hlast.
  destruct s as [|d s'].
  - simpl in *. by destruct (Ascii.eqb_spec c newline) as [->|].
  - specialize (IH ltac:(done) Hlast).
    change ((c :: d :: s') ++ [newline]) with (c :: ((d :: s') ++ [newline])).
    cbn [getlines] in *. by rewrite IH.
Qed.

(** X7.  A newline after the last line of a file makes no difference: for
    a text that is not empty and does not end in a newline, the loader
    returns the same on the text and on the text followed by a
    newline. *)
Theorem final_newline_is_optional env env' filename content ps fs :
  content ≠ [] → last content ≠ Some newline →
  fopen env filename = Some content →
  fopen env' filename = Some (content ++ [newline]) →
  indet env' = indet env →
  Part1.loadSMF env' filename ps fs = Part1.loadSMF env filename ps fs.
Proof.
  intros Hne Hlast Ho Ho' Hu. unfold Part1.loadSMF.
  by rewrite Ho, Ho', Hu, getlines_final_newline.
Qed.

Lemma final_newline_is_optional_witness :
  Part1.loadSMF (file_env ("v 1 2 3" ++ LF)) "mesh.smf" [] [] =
  Part1.loadSMF (file_env "v 1 2 3") "mesh.smf" [] [].
Proof.
  exact (final_newline_is_optional (file_env "v 1 2 3") (file_env ("v 1 2 3" ++ LF))
           "mesh.smf" (list_ascii_of_string "v 1 2 3") [] []
           ltac:(done) ltac:(vm_compute; discriminate) eq_refl eq_refl eq_refl).
Defined.

End LoadersAnyText.

(** ** Which meshes the normal processors accept *)

Section Accepted.

Lemma at_index_Some_range {A} (v : list A) i a :
  at_index v i = Some a → 0 <= i < Z.of_nat (length v).
Proof.
  unfold at_index. destruct (i <? 0) eqn:E; [done|]. intros H.
  apply lookup_lt_Some in H. lia.
Qed.

Lemma flat_loop_Some positions faces : ∀ acc vs,
  Part1.flat_loop positions faces acc = Some vs →
  Forall (in_range (length positions)) faces.
Proof.
  induction faces as [|f faces IH]; intros acc vs H; [constructor|].
  cbn [Part1.flat_loop] in H.
  destruct (Part1.flat_face positions f acc) as [acc'|] eqn:E; [|done].
  simpl in H. constructor; [|by eapply IH].
  unfold Part1.flat_face in E.
  destruct (at_index positions (Glm.x f)) eqn:Ex; [|done].
  destruct (at_index positions (Glm.y f)) eqn:Ey; [|done].
  destruct (at_index positions (Glm.z f)) eqn:Ez; [|done].
  apply at_index_Some_range in Ex, Ey, Ez. unfold in_range. tauto.
Qed.

Lemma face_normals_Some positions faces : ∀ ns,
  Part2.face_normals positions faces = Some ns →
  Forall (in_range (length positions)) faces.
Proof.
  induction faces as [|f faces IH]; intros ns H; [constructor|].
  cbn [Part2.face_normals] in H.
  destruct (Part2.face_normal positions f) as [n|] eqn:E; [|done].
  simpl in H. destruct (Part2.face_normals positions faces) as [ns'|]; [|done].
  constructor; [|by eapply IH].
  unfold Part2.face_normal in E.
  destruct (at_index positions (Glm.x f)) eqn:Ex; [|done].
  destruct (at_index positions (Glm.y f)) eqn:Ey; [|done].
  destruct (at_index positions (Glm.z f)) eqn:Ez; [|done].
  apply at_index_Some_range in Ex, Ey, Ez. unfold in_range. tauto.
Qed.

(** The triangle list of the smooth variant, corner by corner. *)
Lemma triangle_list_spec positions vns faces :
  length vns = length positions →
  Forall (in_range (length positions)) faces → ∀ acc,
  ∃ vs, Part2.triangle_list positions vns faces acc = Some vs ∧
        length vs = (length acc + 3 * length faces)%nat ∧
        (∀ j, (j < length acc)%nat → vs !! j = acc !! j) ∧
        ∀ i f, faces !! i = Some f →
          vs !! (length acc + 3 * i)%nat = Part2.corner positions vns (Glm.x f) ∧
          vs !! (length acc + 3 * i + 1)%nat = Part2.corner positions vns (Glm.y f) ∧
          vs !! (length acc + 3 * i + 2)%nat = Part2.corner positions vns (Glm.z f) ∧
          is_Some (Part2.corner positions vns (Glm.x f)) ∧
          is_Some (Part2.corner positions vns (Glm.y f)) ∧
          is_Some (Part2.corner positions vns (Glm.z f)).
Proof.
  intros Hlen. induction 1 as [|f faces (Hx & Hy & Hz) _ IH]; intros acc.
  - exists acc. simpl. split_and!; [done | lia | done | intros i f Hf; done].
  - assert (∀ i, 0 <= i < Z.of_nat (length positions) →
                 is_Some (Part2.corner positions vns i)) as Hc.
    { intros i Hi. unfold Part2.corner.
      destruct (at_index_in_range positions i Hi) as [p ->].
      destruct (at_index_in_range vns i ltac:(lia)) as [n ->]. by eexists. }
    destruct (Hc _ Hx) as [v0 E0], (Hc _ Hy) as [v1 E1], (Hc _ Hz) as [v2 E2].
    cbn [Part2.triangle_list]. rewrite E0, E1, E2. simpl.
    destruct (IH (acc ++ [v0; v1; v2])) as (vs & Hvs & Hl & Hold & Hnew).
    rewrite length_app in Hl, Hold, Hnew. simpl in Hl, Hold, Hnew.
    exists vs. split_and!; [done | lia | |].
    + intros j Hj. rewrite Hold by lia. by rewrite lookup_app_l.
    + intros [|i] g Hg; simpl in Hg.
      * injection Hg as <-. rewrite E0, E1, E2. split_and!; try done.
        -- rewrite Hold, lookup_app_r by lia.
           by replace (_ - _)%nat with 0%nat by lia.
        -- rewrite Hold, lookup_app_r by lia.
           by replace (_ - _)%nat with 1%nat by lia.
        -- rewrite Hold, lookup_app_r by lia.
           by replace (_ - _)%nat with 2%nat by lia.
      * destruct (Hnew i g Hg) as (H0 & H1 & H2 & S0 & S1 & S2).
        split_and!; try done.
        -- rewrite <- H0. f_equal. lia.
        -- rewrite <- H1. f_equal. lia.
        -- rewrite <- H2. f_equal. lia.
Qed.

(** X8.  The flat processor finishes without an out-of-range read exactly
    when every index of every face is below the number of positions. *)
Theorem flat_vertices_defined_iff_in_range positions faces :
  is_Some (Part1.flat_vertices positions faces) ↔
  Forall (in_range (length positions)) faces.
Proof.
  split.
  - intros [vs H]. by eapply flat_loop_Some.
  - intros H. destruct (flat_loop_spec positions faces H []) as (vs & Hvs & _).
    by exists vs.
Qed.

Lemma flat_vertices_defined_iff_in_range_witness :
  Forall (in_range (length flat_quad_positions)) flat_quad_faces ∧
  is_Some (Part1.flat_vertices flat_quad_positions flat_quad_faces).
Proof.
  assert (Forall (in_range (length flat_quad_positions)) flat_quad_faces) as Hr.
  { repeat constructor; simpl; lia. }
  split; [exact Hr|].
  exact (proj2 (flat_vertices_defined_iff_in_range flat_quad_positions flat_quad_faces) Hr).
Defined.

(** X9.  The smooth processor (face normals, accumulation, final
    normalisation, triangle list) finishes without an out-of-range read
    exactly when every index of every face is below the number of
    positions; it then has one normal per position and three vertices
    per face. *)
Theorem smooth_defined_iff_in_range positions faces :
  (is_Some (Part2.vertex_normals positions faces) ↔
   Forall (in_range (length positions)) faces) ∧
  (Forall (in_range (length positions)) faces →
   ∃ vns vs,
     Part2.vertex_normals positions faces = Some vns ∧
     Part2.triangle_list positions vns faces [] = Some vs ∧
     length vns = length positions ∧ length vs = (3 * length faces)%nat).
Proof.
  split; [split|].
  - intros [vns H]. unfold Part2.vertex_normals in H.
    destruct (Part2.face_normals positions faces) as [ns|] eqn:E; [|done].
    by eapply face_normals_Some.
  - intros H. destruct (vertex_normals_spec _ _ H) as (fns & vns & _ & Hv & _).
    by exists vns.
  - intros H. destruct (vertex_normals_spec _ _ H) as (fns & vns & _ & Hv & Hlen & _).
    destruct (triangle_list_spec positions vns faces Hlen H []) as (vs & Hvs & Hl & _).
    exists vns, vs. split_and!; try done; simpl in Hl; lia.
Qed.

Lemma smooth_defined_iff_in_range_witness :
  Forall (in_range (length flat_quad_positions)) flat_quad_faces ∧
  ∃ vns vs,
    Part2.vertex_normals flat_quad_positions flat_quad_faces = Some vns ∧
    Part2.triangle_list flat_quad_positions vns flat_quad_faces [] = Some vs ∧
    length vns = 5%nat ∧ length vs = 6%nat.
Proof.
  assert (Forall (in_range (length flat_quad_positions)) flat_quad_faces) as Hr.
  { repeat constructor; simpl; lia. }
  split; [exact Hr|].
  exact (proj2 (smooth_defined_iff_in_range flat_quad_positions flat_quad_faces) Hr).
Defined.

(** X10.  In the triangle list of the smooth variant the three vertices
    of face number i sit at 3i, 3i+1, 3i+2 and are the (position,
    averaged normal) pairs of its three vertex indices; so two corners,
    of the same or of different faces, that name the same vertex index
    carry the same position and the same normal. *)
Theorem smooth_corners_share_normals positions faces :
  Forall (in_range (length positions)) faces →
  ∃ vns vs,
    Part2.vertex_normals positions faces = Some vns ∧
    Part2.triangle_list positions vns faces [] = Some vs ∧
    (∀ i f, faces !! i = Some f →
       ∃ p0 p1 p2 n0 n1 n2,
         at_index positions (Glm.x f) = Some p0 ∧ at_index vns (Glm.x f) = Some n0 ∧
         at_index positions (Glm.y f) = Some p1 ∧ at_index vns (Glm.y f) = Some n1 ∧
         at_index positions (Glm.z f) = Some p2 ∧ at_index vns (Glm.z f) = Some n2 ∧
         vs !! (3 * i)%nat = Some (Part2.MkVertex p0 n0) ∧
         vs !! (3 * i + 1)%nat = Some (Part2.MkVertex p1 n1) ∧
         vs !! (3 * i + 2)%nat = Some (Part2.MkVertex p2 n2)) ∧
    (∀ i f j g, faces !! i = Some f → faces !! j = Some g →
       (Glm.x f = Glm.x g → vs !! (3 * i)%nat = vs !! (3 * j)%nat) ∧
       (Glm.x f = Glm.y g → vs !! (3 * i)%nat = vs !! (3 * j + 1)%nat) ∧
       (Glm.x f = Glm.z g → vs !! (3 * i)%nat = vs !! (3 * j + 2)%nat) ∧
       (Glm.y f = Glm.y g → vs !! (3 * i + 1)%nat = vs !! (3 * j + 1)%nat) ∧
       (Glm.y f = Glm.z g → vs !! (3 * i + 1)%nat = vs !! (3 * j + 2)%nat) ∧
       (Glm.z f = Glm.z g → vs !! (3 * i + 2)%nat = vs !! (3 * j + 2)%nat)).
Proof.
  intros H. destruct (vertex_normals_spec _ _ H) as (fns & vns & _ & Hv & Hlen & _).
  destruct (triangle_list_spec positions vns faces Hlen H [])
    as (vs & Hvs & _ & _ & Hnew).
  exists vns, vs. split_and!; [done..| |].
  - intros i f Hf. destruct (Hnew i f Hf) as (H0 & H1 & H2 & S0 & S1 & S2).
    simpl in H0, H1, H2. unfold Part2.corner in *.
    destruct (at_index positions (Glm.x f)) as [p0|]; [|by destruct S0].
    destruct (at_index vns (Glm.x f)) as [n0|]; [|by destruct S0].
    destruct (at_index positions (Glm.y f)) as [p1|]; [|by destruct S1].
    destruct (at_index vns (Glm.y f)) as [n1|]; [|by destruct S1].
    destruct (at_index positions (Glm.z f)) as [p2|]; [|by destruct S2].
    destruct (at_index vns (Glm.z f)) as [n2|]; [|by destruct S2].
    by exists p0, p1, p2, n0, n1, n2.
  - intros i f j g Hf Hg.
    destruct (Hnew i f Hf) as (F0 & F1 & F2 & _), (Hnew j g Hg) as (G0 & G1 & G2 & _).
    simpl in *. rewrite F0, F1, F2, G0, G1, G2.
    split_and!; by intros ->.
Qed.

Lemma smooth_corners_share_normals_witness :
  Forall (in_range (length flat_quad_positions)) flat_quad_faces ∧
  ∃ vns vs,
    Part2.vertex_normals flat_quad_positions flat_quad_faces = Some vns ∧
    Part2.triangle_list flat_quad_positions vns flat_quad_faces [] = Some vs ∧
    vs !! 1%nat = vs !! 3%nat.
Proof.
  assert (Forall (in_range (length flat_quad_positions)) flat_quad_faces) as Hr.
  { repeat constructor; simpl; lia. }
  split; [exact Hr|].
  destruct (smooth_corners_share_normals flat_quad_positions flat_quad_faces Hr)
    as (vns & vs & Hv & Ht & _ & Hshare).
  exists vns, vs. split; [exact Hv|]. split; [exact Ht|].
  destruct (Hshare 0%nat (Vec 0 1 2) 1%nat (Vec 1 3 2) eq_refl eq_refl)
    as (_ & _ & _ & _ & _ & _).
  destruct (Hshare 1%nat (Vec 1 3 2) 0%nat (Vec 0 1 2) eq_refl eq_refl)
    as (_ & Hxy & _).
  symmetry. exact (Hxy eq_refl).
Defined.

End Accepted.

(** ** Degenerate faces *)

Section Degenerate.

Lemma sub_diag_zero_or_nan a : zero_or_nan (F32.sub a a) = true.
Proof.
  unfold F32.sub. destruct a as [[]|[]| |s m e]; try reflexivity.
  simpl. by rewrite Z.sub_diag.
Qed.

Lemma mul_zero_or_nan_l a b : zero_or_nan a = true → zero_or_nan (F32.mul a b) = true.
Proof. destruct a as [?|?| |? ? ?], b as [?|?| |? ? ?]; done. Qed.

Lemma mul_zero_or_nan_r a b : zero_or_nan b = true → zero_or_nan (F32.mul a b) = true.
Proof. destruct a as [?|?| |? ? ?], b as [?|?| |? ? ?]; done. Qed.

Lemma sub_zero_or_nan a b :
  zero_or_nan a = true → zero_or_nan b = true → zero_or_nan (F32.sub a b) = true.
Proof. destruct a as [[]|?| |? ? ?], b as [[]|?| |? ? ?]; done. Qed.

Lemma add_zero_or_nan a b :
  zero_or_nan a = true → zero_or_nan b = true → zero_or_nan (F32.add a b) = true.
Proof. destruct a as [[]|?| |? ? ?], b as [[]|?| |? ? ?]; done. Qed.

(** Normalising a vector of zeros and NaNs gives NaN in every component:
    a zero length is inverted to infinity and multiplied by zero. *)
Lemma normalize_zero_or_nan v :
  zero_or_nan (Glm.x v) = true → zero_or_nan (Glm.y v) = true →
  zero_or_nan (Glm.z v) = true → Glm.normalize v = vec3_nan.
Proof.
  destruct v as [a b c]. simpl.
  destruct a as [[]|?| |? ? ?], b as [[]|?| |? ? ?], c as [[]|?| |? ? ?];
    try done; intros _ _ _; vm_compute; reflexivity.
Qed.

Lemma cross_diag_zero_or_nan a :
  let c := Glm.cross a a in
  zero_or_nan (Glm.x c) = true ∧ zero_or_nan (Glm.y c) = true ∧
  zero_or_nan (Glm.z c) = true.
Proof. simpl. split_and!; apply sub_diag_zero_or_nan. Qed.

Lemma cross_zero_or_nan_l a b :
  zero_or_nan (Glm.x a) = true → zero_or_nan (Glm.y a) = true →
  zero_or_nan (Glm.z a) = true →
  let c := Glm.cross a b in
  zero_or_nan (Glm.x c) = true ∧ zero_or_nan (Glm.y c) = true ∧
  zero_or_nan (Glm.z c) = true.
Proof.
  intros Hx Hy Hz. simpl.
  split_and!; apply sub_zero_or_nan;
    auto using mul_zero_or_nan_l, mul_zero_or_nan_r.
Qed.

Lemma cross_zero_or_nan_r a b :
  zero_or_nan (Glm.x b) = true → zero_or_nan (Glm.y b) = true →
  zero_or_nan (Glm.z b) = true →
  let c := Glm.cross a b in
  zero_or_nan (Glm.x c) = true ∧ zero_or_nan (Glm.y c) = true ∧
  zero_or_nan (Glm.z c) = true.
Proof.
  intros Hx Hy Hz. simpl.
  split_and!; apply sub_zero_or_nan;
    auto using mul_zero_or_nan_l, mul_zero_or_nan_r.
Qed.

(** The normal of a triangle two of whose corners are the same point. *)
Lemma degenerate_normal p0 p1 p2 :
  p0 = p1 ∨ p0 = p2 ∨ p1 = p2 →
  Glm.normalize (Glm.cross (Glm.vsub p1 p0) (Glm.vsub p2 p0)) = vec3_nan.
Proof.
  intros [-> | [-> | ->]].
  - destruct (cross_zero_or_nan_l (Glm.vsub p1 p1) (Glm.vsub p2 p1))
      as (Hx & Hy & Hz); [apply sub_diag_zero_or_nan..|].
    by apply normalize_zero_or_nan.
  - destruct (cross_zero_or_nan_r (Glm.vsub p1 p2) (Glm.vsub p2 p2))
      as (Hx & Hy & Hz); [apply sub_diag_zero_or_nan..|].
    by apply normalize_zero_or_nan.
  - destruct (cross_diag_zero_or_nan (Glm.vsub p2 p0)) as (Hx & Hy & Hz).
    by apply normalize_zero_or_nan.
Qed.

Lemma degenerate_face_normal positions f :
  in_range (length positions) f → degenerate f →
  Part2.face_normal positions f = Some vec3_nan.
Proof.
  intros (Hx & Hy & Hz) Hd.
  destruct (at_index_in_range positions _ Hx) as [p0 E0].
  destruct (at_index_in_range positions _ Hy) as [p1 E1].
  destruct (at_index_in_range positions _ Hz) as [p2 E2].
  assert (p0 = p1 ∨ p0 = p2 ∨ p1 = p2) as Hp.
  { destruct Hd as [H | [H | H]]; rewrite H in *; [left | right; left | right; right];
      congruence. }
  unfold Part2.face_normal. rewrite E0, E1, E2. simpl.
  by rewrite (degenerate_normal p0 p1 p2 Hp).
Qed.

(** X11.  A face two of whose corners name the same vertex gets the
    normal (NaN, NaN, NaN) in both programs, whatever the positions are:
    the cross product is a zero (or NaN) vector and nothing guards its
    normalisation.  In the flat variant its three vertices carry that
    normal and the colour (NaN, NaN, NaN). *)
Theorem degenerate_face_normal_is_nan positions f acc :
  in_range (length positions) f → degenerate f →
  Part2.face_normal positions f = Some vec3_nan ∧
  ∃ p0 p1 p2,
    Part1.flat_face positions f acc =
      Some (acc ++ [Part1.MkVertex p0 vec3_nan vec3_nan;
                    Part1.MkVertex p1 vec3_nan vec3_nan;
                    Part1.MkVertex p2 vec3_nan vec3_nan]).
Proof.
  intros (Hx & Hy & Hz) Hd.
  destruct (at_index_in_range positions _ Hx) as [p0 E0].
  destruct (at_index_in_range positions _ Hy) as [p1 E1].
  destruct (at_index_in_range positions _ Hz) as [p2 E2].
  assert (p0 = p1 ∨ p0 = p2 ∨ p1 = p2) as Hp.
  { destruct Hd as [H | [H | H]]; rewrite H in *; [left | right; left | right; right];
      congruence. }
  unfold Part2.face_normal, Part1.flat_face. rewrite E0, E1, E2. simpl.
  rewrite (degenerate_normal p0 p1 p2 Hp). split; [done|]. by exists p0, p1, p2.
Qed.

Lemma degenerate_face_normal_is_nan_witness :
  in_range (length flat_quad_positions) (Vec 0 0 1) ∧ degenerate (Vec 0 0 1) ∧
  Part2.face_normal flat_quad_positions (Vec 0 0 1) = Some vec3_nan.
Proof.
  assert (in_range (length flat_quad_positions) (Vec 0 0 1)) as Hr
    by (unfold in_range; simpl; lia).
  assert (degenerate (Vec 0 0 1)) as Hd by (left; reflexivity).
  split; [exact Hr|]. split; [exact Hd|].
  exact (proj1 (degenerate_face_normal_is_nan flat_quad_positions (Vec 0 0 1) [] Hr Hd)).
Defined.

End Degenerate.

(** ** NaN normals spread to the vertices *)

Section Poison.

Lemma vadd_nan_l v : Glm.vadd vec3_nan v = vec3_nan.
Proof. reflexivity. Qed.

Lemma vadd_nan_r v : Glm.vadd v vec3_nan = vec3_nan.
Proof. destruct v as [[] [] []]; reflexivity. Qed.

Lemma fold_vadd_from_nan l : fold_left Glm.vadd l vec3_nan = vec3_nan.
Proof. induction l as [|v l IH]; [done|]. simpl. by rewrite vadd_nan_l. Qed.

Lemma fold_vadd_with_nan l : ∀ s, vec3_nan ∈ l → fold_left Glm.vadd l s = vec3_nan.
Proof.
  induction l as [|v l IH]; intros s Hin; [by apply elem_of_nil in Hin|].
  simpl. apply elem_of_cons in Hin as [<-|Hin]; [|by apply IH].
  by rewrite vadd_nan_r, fold_vadd_from_nan.
Qed.

Lemma finish_normal_nan count : 0 < count → Part2.finish_normal vec3_nan count = vec3_nan.
Proof.
  intros H. unfold Part2.finish_normal.
  destruct (0 <? count) eqn:E; [reflexivity | lia].
Qed.

Lemma face_normals_lookup positions faces : ∀ fns i f,
  Part2.face_normals positions faces = Some fns → faces !! i = Some f →
  ∃ n, Part2.face_normal positions f = Some n ∧ fns !! i = Some n.
Proof.
  induction faces as [|g faces IH]; intros fns i f H Hf; [done|].
  cbn [Part2.face_normals] in H.
  destruct (Part2.face_normal positions g) as [n|] eqn:E; [|done]. simpl in H.
  destruct (Part2.face_normals positions faces) as [ns|] eqn:E'; [|done].
  injection H as <-. destruct i as [|i]; simpl in Hf |- *.
  - injection Hf as <-. by exists n.
  - by eapply IH.
Qed.

Lemma incident_elem j faces : ∀ fns i f n,
  faces !! i = Some f → fns !! i = Some n →
  Glm.x f = j ∨ Glm.y f = j ∨ Glm.z f = j →
  n ∈ incident j faces fns.
Proof.
  induction faces as [|g faces IH]; intros fns i f n Hf Hn Hj; [done|].
  destruct fns as [|m fns]; [done|]. cbn [incident]. apply elem_of_app.
  destruct i as [|i]; simpl in Hf, Hn.
  - injection Hf as <-. injection Hn as <-. left. unfold corner_normals.
    destruct Hj as [H | [H | H]]; rewrite (decide_True _ _ H);
      rewrite !elem_of_app; [left | right; left | right; right]; apply list_elem_of_here.
  - right. by eapply IH.
Qed.

(** X12.  In the smooth variant a face with the normal (NaN, NaN, NaN),
    such as a face two of whose corners name the same vertex, turns the
    normal of each of its three vertices into (NaN, NaN, NaN), whatever
    the other faces at those vertices are. *)
Theorem degenerate_face_spoils_vertex_normals positions faces i f :
  Forall (in_range (length positions)) faces →
  faces !! i = Some f → degenerate f →
  ∃ vns,
    Part2.vertex_normals positions faces = Some vns ∧
    at_index vns (Glm.x f) = Some vec3_nan ∧
    at_index vns (Glm.y f) = Some vec3_nan ∧
    at_index vns (Glm.z f) = Some vec3_nan.
Proof.
  intros Hr Hf Hd.
  destruct (vertex_normals_spec _ _ Hr) as (fns & vns & Hfns & Hv & Hlen & Hj).
  destruct (face_normals_lookup _ _ _ _ _ Hfns Hf) as (n & Hn & Hi).
  assert (in_range (length positions) f) as Hin.
  { rewrite Forall_lookup in Hr. by eapply Hr. }
  rewrite (degenerate_face_normal positions f Hin Hd) in Hn.
  injection Hn as <-.
  assert (∀ c, 0 <= c < Z.of_nat (length positions) →
               Glm.x f = c ∨ Glm.y f = c ∨ Glm.z f = c →
               at_index vns c = Some vec3_nan) as Hc.
  { intros c Hc Hcorner. rewrite at_index_lookup by lia.
    rewrite (Hj (Z.to_nat c)) by lia. rewrite Z2Nat.id by lia.
    pose proof (incident_elem c faces fns i f vec3_nan Hf Hi Hcorner) as Hel.
    rewrite (fold_vadd_with_nan _ _ Hel).
    rewrite finish_normal_nan; [done|].
    destruct (incident c faces fns); [by apply elem_of_nil in Hel | simpl; lia]. }
  destruct Hin as (Hx & Hy & Hz).
  exists vns. split_and!; [done | apply Hc; auto..].
Qed.

Lemma degenerate_face_spoils_vertex_normals_witness :
  Forall (in_range (length flat_quad_positions)) [Vec 0 1 2; Vec 1 1 3] ∧
  degenerate (Vec 1 1 3) ∧
  ∃ vns,
    Part2.vertex_normals flat_quad_positions [Vec 0 1 2; Vec 1 1 3] = Some vns ∧
    at_index vns 1 = Some vec3_nan ∧ at_index vns 3 = Some vec3_nan.
Proof.
  assert (Forall (in_range (length flat_quad_positions)) [Vec 0 1 2; Vec 1 1 3]) as Hr.
  { repeat constructor; simpl; lia. }
  assert (degenerate (Vec 1 1 3)) as Hd by (left; reflexivity).
  split; [exact Hr|]. split; [exact Hd|].
  destruct (degenerate_face_spoils_vertex_normals flat_quad_positions
              [Vec 0 1 2; Vec 1 1 3] 1 (Vec 1 1 3) Hr eq_refl Hd)
    as (vns & Hv & Hx & _ & Hz).
  exists vns. split; [exact Hv|]. split; [exact Hx | exact Hz].
Defined.

End Poison.

(** ** The bounding radius *)

Section BoundingRadius.

Lemma ltb_not_nan a b : F32.ltb a b = true → is_nan a = false ∧ is_nan b = false.
Proof. destruct a as [?|?| |? ? ?], b as [?|?| |? ? ?]; done. Qed.

(** [<] on floats that are not NaN is the order of their ranks. *)
Lemma ltb_rank a b :
  is_nan a = false → is_nan b = false →
  F32.ltb a b = true ↔ rank_lt (float_rank a) (float_rank b).
Proof.
  unfold F32.ltb, SFltb.
  destruct a as [sa|[]| |[] ma ea], b as [sb|[]| |[] mb eb]; intros Ha Hb;
    try discriminate Ha; try discriminate Hb; simpl;
    try (split; [discriminate | lia]); try (split; [lia | reflexivity]).
  all: change (Pos.compare_cont Eq ?p ?q) with (Pos.compare p q).
  all: destruct (Z.compare_spec ea eb); destruct (Pos.compare_spec ma mb); simpl;
    split; try discriminate; try reflexivity; try lia.
Qed.

Lemma ltb_trans a b c : F32.ltb a b = true → F32.ltb b c = true → F32.ltb a c = true.
Proof.
  intros Hab Hbc.
  destruct (ltb_not_nan _ _ Hab) as [Ha Hb], (ltb_not_nan _ _ Hbc) as [_ Hc].
  apply ltb_rank in Hab, Hbc; try done. apply ltb_rank; try done.
  unfold rank_lt in *.
  destruct (float_rank a) as [[? ?] ?], (float_rank b) as [[? ?] ?],
           (float_rank c) as [[? ?] ?]. lia.
Qed.

Lemma ltb_irrefl a : F32.ltb a a = false.
Proof.
  destruct (F32.ltb a a) eqn:E; [|done].
  destruct (ltb_not_nan _ _ E) as [Ha _]. apply ltb_rank in E; try done.
  unfold rank_lt in E. destruct (float_rank a) as [[? ?] ?]. lia.
Qed.

Lemma max_not_nan m d :
  is_nan m = false → F32.sign m = false →
  is_nan (F32.max m d) = false ∧ F32.sign (F32.max m d) = false.
Proof.
  intros Hm Hs. unfold F32.max. destruct (F32.ltb m d) eqn:E; [|done].
  unfold F32.ltb, SFltb in E.
  destruct m as [[]|[]| |[] ? ?], d as [[]|[]| |[] ? ?]; done.
Qed.

Lemma max_radius_fold (g : vec3 → float) positions : ∀ m,
  is_nan m = false → F32.sign m = false →
  let r := fold_left (λ m p, F32.max m (g p)) positions m in
  is_nan r = false ∧ F32.sign r = false ∧ F32.ltb r m = false ∧
  ∀ p, p ∈ positions → F32.ltb r (g p) = false.
Proof.
  induction positions as [|q positions IH]; intros m Hm Hs; simpl.
  { split_and!; try done. - apply ltb_irrefl. - intros p Hp. by apply elem_of_nil in Hp. }
  destruct (max_not_nan m (g q) Hm Hs) as [Hm' Hs'].
  destruct (IH (F32.max m (g q)) Hm' Hs') as (Hr & Hrs & Hrm & Hall).
  assert (∀ d, F32.ltb (F32.max m (g q)) d = false →
               F32.ltb (fold_left (λ m p, F32.max m (g p)) positions (F32.max m (g q))) d
               = false) as Hmono.
  { intros d Hd. destruct (F32.ltb (fold_left _ _ _) d) eqn:E; [|done].
    destruct (F32.ltb (F32.max m (g q)) (fold_left (λ m p, F32.max m (g p)) positions
                                                   (F32.max m (g q)))) eqn:E2.
    - by rewrite (ltb_trans _ _ _ E2 E) in Hd.
    - (* the fold result equals or exceeds its start: neither is below the other *)
      destruct (ltb_not_nan _ _ E) as [_ Hdn].
      apply ltb_rank in E; try done.
      assert (¬ rank_lt (float_rank (F32.max m (g q))) (float_rank d)) as Hn1.
      { intros H. apply ltb_rank in H; try done. congruence. }
      assert (¬ rank_lt (float_rank (F32.max m (g q)))
                (float_rank (fold_left (λ m p, F32.max m (g p)) positions
                                       (F32.max m (g q))))) as Hn2.
      { intros H. apply ltb_rank in H; try done. congruence. }
      assert (¬ rank_lt (float_rank (fold_left (λ m p, F32.max m (g p)) positions
                                               (F32.max m (g q))))
                (float_rank (F32.max m (g q)))) as Hn3.
      { intros H. apply ltb_rank in H; try done. congruence. }
      exfalso. unfold rank_lt in *.
      destruct (float_rank (F32.max m (g q))) as [[? ?] ?],
               (float_rank d) as [[? ?] ?],
               (float_rank (fold_left _ _ _)) as [[? ?] ?]. lia. }
  split_and!; try done.
  - apply Hmono. unfold F32.max. destruct (F32.ltb m (g q)) eqn:E; [|apply ltb_irrefl].
    destruct (F32.ltb (g q) m) eqn:E'; [|done].
    pose proof (ltb_trans _ _ _ E E') as Hc. by rewrite ltb_irrefl in Hc.
  - intros p Hp. apply elem_of_cons in Hp as [->|Hp]; [|by apply Hall].
    apply Hmono. unfold F32.max. destruct (F32.ltb m (g q)) eqn:E; [apply ltb_irrefl|done].
Qed.

Lemma shr_1_nonneg r : 0 <= shr_m r → 0 <= shr_m (shr_1 r).
Proof. destruct r as [[|[]|[]] ? ?]; simpl; lia. Qed.

Lemma iter_shr_nonneg p : ∀ r, 0 <= shr_m r → 0 <= shr_m (SpecFloat.iter_pos shr_1 p r).
Proof.
  induction p as [p IH|p IH|]; intros r Hr; simpl; auto using shr_1_nonneg.
Qed.

Lemma shr_fexp_nonneg m e l :
  0 <= m → 0 <= shr_m (fst (shr_fexp F32.prec F32.emax m e l)).
Proof.
  intros Hm. unfold shr_fexp, shr.
  assert (0 <= shr_m (shr_record_of_loc m l)) as H0 by (by destruct l as [|[]]).
  destruct (_ - e) as [|p|p]; simpl; auto using iter_shr_nonneg.
Qed.

Lemma round_nearest_even_nonneg m l : 0 <= m → 0 <= round_nearest_even m l.
Proof.
  intros Hm. destruct l as [|[]]; simpl; try lia. destruct (Z.even m); lia.
Qed.

(** Rounding a non-negative mantissa gives a number of the sign asked
    for, never NaN. *)
Lemma binary_round_aux_sign sx mx ex lx :
  0 <= mx →
  is_nan (binary_round_aux F32.prec F32.emax sx mx ex lx) = false ∧
  F32.sign (binary_round_aux F32.prec F32.emax sx mx ex lx) = sx.
Proof.
  intros Hm. unfold binary_round_aux.
  pose proof (shr_fexp_nonneg mx ex lx Hm) as H1.
  destruct (shr_fexp F32.prec F32.emax mx ex lx) as [mrs' e']. simpl in H1.
  pose proof (shr_fexp_nonneg (round_nearest_even (shr_m mrs') (loc_of_shr_record mrs'))
                e' loc_Exact (round_nearest_even_nonneg _ _ H1)) as H2.
  destruct (shr_fexp F32.prec F32.emax _ e' loc_Exact) as [mrs'' e'']. simpl in H2.
  destruct (shr_m mrs'') as [|p|p]; [done| |lia].
  by destruct (e'' <=? F32.emax - F32.prec).
Qed.

Lemma mul_two_not_nan r :
  is_nan r = false → F32.sign r = false →
  is_nan (F32.mul r F32.two) = false ∧ F32.sign (F32.mul r F32.two) = false.
Proof.
  destruct r as [[]|[]| |[] m e]; try done. intros _ _.
  change F32.two with (S754_finite false 8388608 (-22)).
  unfold F32.mul, SFmul. apply (binary_round_aux_sign false). lia.
Qed.

(** X13.  Whatever the positions and the centroid are (infinite or NaN
    coordinates included), the bounding radius [maxRadius] is never NaN
    and never negative, and so is the orthographic half-extent computed
    from it: [std::max] keeps its first argument when the comparison
    with a NaN distance is false. *)
Theorem bounding_radius_is_a_number positions c w h :
  let r := mesh_max_radius positions c in
  is_nan r = false ∧ F32.sign r = false ∧
  ∃ s, ortho_top (frame_projection false r w h) = Some s ∧
       is_nan s = false ∧ F32.sign s = false.
Proof.
  intros r.
  destruct (max_radius_fold (λ p, Glm.length (Glm.vsub p c)) positions F32.zero
              eq_refl eq_refl) as (Hn & Hs & _).
  fold (mesh_max_radius positions c) in Hn, Hs. fold r in Hn, Hs.
  split_and!; [done..|]. exists (F32.mul r F32.two). split; [reflexivity|].
  by apply mul_two_not_nan.
Qed.

(** X14.  The bounding radius is never less than the distance of a
    loaded position from the centroid: no position lies outside it. *)
Theorem bounding_radius_covers_positions positions c p :
  p ∈ positions →
  F32.ltb (mesh_max_radius positions c) (Glm.length (Glm.vsub p c)) = false.
Proof.
  intros Hp.
  destruct (max_radius_fold (λ p, Glm.length (Glm.vsub p c)) positions F32.zero
              eq_refl eq_refl) as (_ & _ & _ & Hall).
  by apply Hall.
Qed.

Lemma bounding_radius_covers_positions_witness :
  point 1 0 0 ∈ flat_quad_positions ∧
  F32.ltb (mesh_max_radius flat_quad_positions (mesh_centroid flat_quad_positions))
          (Glm.length (Glm.vsub (point 1 0 0) (mesh_centroid flat_quad_positions))) = false.
Proof.
  assert (point 1 0 0 ∈ flat_quad_positions) as Hp.
  { apply list_elem_of_further, list_elem_of_here. }
  split; [exact Hp|].
  exact (bounding_radius_covers_positions flat_quad_positions
           (mesh_centroid flat_quad_positions) (point 1 0 0) Hp).
Defined.

End BoundingRadius.

(** ** More on the key handlers and the render loop *)

Section Controls.

Lemma when_inv (P : Part2.State → Prop) c stmt s :
  (∀ s, P s → P (stmt s)) → P s → P (Part2.when c stmt s).
Proof. intros Hstmt H. unfold Part2.when. destruct c; auto. Qed.

Lemma key_callback_modes s key action :
  modes_ok (Part2.globals s) →
  modes_ok (Part2.globals (Part2.key_callback s key action)).
Proof.
  intros H. unfold Part2.key_callback. cbv zeta.
  destruct ((action =? GLFW.PRESS) || (action =? GLFW.REPEAT)); [|done].
  repeat (apply (when_inv (λ s, modes_ok (Part2.globals s)));
          [intros s' [Hm Hs]; split; simpl; try done; try tauto|]); try done.
  pose proof (Z.rem_bound_pos (Part2.currentMaterial (Part2.globals s') + 1) 3).
  lia.
Qed.

Lemma poll_events2_modes evs : ∀ s,
  modes_ok (Part2.globals s) → modes_ok (Part2.globals (Part2.poll_events s evs)).
Proof.
  induction evs as [|e evs IH]; intros s H; [done|].
  unfold Part2.poll_events in *. cbn [fold_left]. apply IH.
  by apply key_callback_modes.
Qed.

Lemma frame_material_defined s :
  modes_ok (Part2.globals s) → is_Some (Scene.frame_material s).
Proof.
  intros [Hm _]. unfold Scene.frame_material. apply at_index_in_range. simpl. lia.
Qed.

Lemma main2_initial_modes env argv st :
  Part2.main env argv = Running st → modes_ok (Part2.globals st).
Proof.
  unfold Part2.main. destruct (length argv <? 2)%nat; [done|].
  destruct (Part2.load_smf _ _ _ _) as [[ok vs] fs]. destruct ok; [|done]. simpl.
  destruct (Part2.vertex_normals vs fs) as [vns|]; [|done].
  destruct (Part2.triangle_list vs vns fs []); [|done].
  destruct (glfwInit env), (glfwCreateWindow env), (gladLoadGLLoader env); simpl;
    try done.
  intros [= <-]. split; simpl; [lia | by left].
Qed.

Lemma glfwPollEvents2_modes i s :
  modes_ok (Part2.globals s) → modes_ok (Part2.globals (Part2.glfwPollEvents s i)).
Proof.
  intros H. unfold Part2.glfwPollEvents.
  pose proof (poll_events2_modes (events i) s H). by destruct (close_request i).
Qed.

(** X15.  From the state [main] of the second program enters the render
    loop with, and whatever key events and close requests arrive
    afterwards, the material index stays 0, 1 or 2, so
    [materials[currentMaterial]] is always an element of the three-entry
    vector, and the shading mode stays 1 or 2. *)
Theorem material_index_stays_in_range env argv st asserts inputs :
  Part2.main env argv = Running st →
  let r := Part2.render_loop asserts st inputs in
  is_Some (Scene.frame_material (final r)) ∧ modes_ok (Part2.globals (final r)) ∧
  Forall (λ fr, 0 <= Part2.material fr < 3) (frames r).
Proof.
  intros Hmain. apply main2_initial_modes in Hmain. revert st Hmain.
  induction inputs as [|i inputs IH]; intros st Hst; cbn [Part2.render_loop].
  { simpl. split_and!; [by apply frame_material_defined | done | constructor]. }
  destruct (Part2.windowShouldClose st).
  { simpl. split_and!; [by apply frame_material_defined | done | constructor]. }
  pose proof (glfwPollEvents2_modes i st Hst) as Hst'.
  destruct (frame_aborts _ _ _ _).
  { simpl. split_and!; [by apply frame_material_defined | done | constructor]. }
  specialize (IH _ Hst'). cbv zeta in IH |- *. cbn [final frames].
  destruct IH as (H1 & H2 & H3). split_and!; try done.
  constructor; [|done]. simpl. by destruct Hst'.
Qed.

Lemma material_index_stays_in_range_witness :
  ∃ st,
    Part2.main (file_env triangle_file) ["viewer"; "mesh.smf"]%string = Running st ∧
    is_Some (Scene.frame_material
               (final (Part2.render_loop true st
                         [MkFrame [MkKey GLFW.KEY_M GLFW.PRESS] false 1024 768]))).
Proof.
  eexists. split; [vm_compute; reflexivity|].
  refine (proj1 (material_index_stays_in_range (file_env triangle_file)
                   ["viewer"; "mesh.smf"]%string _ true
                   [MkFrame [MkKey GLFW.KEY_M GLFW.PRESS] false 1024 768] _)).
  vm_compute. reflexivity.
Defined.

Lemma material_key_press s :
  Part2.key_callback s GLFW.KEY_M GLFW.PRESS =
  Part2.on_globals
    (Part2.set_currentMaterial (Z.rem (Part2.currentMaterial (Part2.globals s) + 1) 3)) s.
Proof. reflexivity. Qed.

(** X16.  The material key cycles through the three materials: with the
    index in range, three presses of M bring back the state they started
    from, and one or two presses do not. *)
Theorem three_material_presses_cycle s :
  0 <= Part2.currentMaterial (Part2.globals s) < 3 →
  let press s := Part2.key_callback s GLFW.KEY_M GLFW.PRESS in
  press (press (press s)) = s ∧ press s ≠ s ∧ press (press s) ≠ s.
Proof.
  intros H press. subst press. cbv beta. rewrite !material_key_press.
  destruct s as [[a1 a2 a3 a4 a5 a6 a7 a8 cm] b c d e f g h]. simpl in *.
  assert (cm = 0 ∨ cm = 1 ∨ cm = 2) as [-> | [-> | ->]] by lia;
    (split_and!; [reflexivity | intros [=] | intros [=]]).
Qed.

Lemma three_material_presses_cycle_witness :
  0 <= Part2.currentMaterial (Part2.globals part2_initial) < 3 ∧
  Part2.key_callback
    (Part2.key_callback (Part2.key_callback part2_initial GLFW.KEY_M GLFW.PRESS)
                        GLFW.KEY_M GLFW.PRESS)
    GLFW.KEY_M GLFW.PRESS = part2_initial.
Proof.
  assert (0 <= Part2.currentMaterial (Part2.globals part2_initial) < 3) as H
    by (simpl; lia).
  split; [exact H|].
  exact (proj1 (three_material_presses_cycle part2_initial H)).
Defined.

Lemma projection_key1 s :
  Part1.onKey s GLFW.KEY_P GLFW.PRESS =
    Part1.set_usePerspective (negb (Part1.usePerspective s)) s ∧
  Part1.onKey s GLFW.KEY_P GLFW.REPEAT =
    Part1.set_usePerspective (negb (Part1.usePerspective s)) s.
Proof. split; reflexivity. Qed.

Lemma projection_key2 s :
  Part2.key_callback s GLFW.KEY_P GLFW.PRESS =
    Part2.on_globals
      (Part2.set_perspectiveProj (negb (Part2.perspectiveProj (Part2.globals s)))) s ∧
  Part2.key_callback s GLFW.KEY_P GLFW.REPEAT =
    Part2.on_globals
      (Part2.set_perspectiveProj (negb (Part2.perspectiveProj (Part2.globals s)))) s.
Proof. split; reflexivity. Qed.

(** X17.  The projection key is an involution: in either program two
    presses (or repeats) of P bring back the state they started from. *)
Theorem projection_key_twice_is_identity s1 s2 :
  Part1.onKey (Part1.onKey s1 GLFW.KEY_P GLFW.PRESS) GLFW.KEY_P GLFW.REPEAT = s1 ∧
  Part1.onKey (Part1.onKey s1 GLFW.KEY_P GLFW.PRESS) GLFW.KEY_P GLFW.PRESS = s1 ∧
  Part2.key_callback (Part2.key_callback s2 GLFW.KEY_P GLFW.PRESS)
                     GLFW.KEY_P GLFW.REPEAT = s2 ∧
  Part2.key_callback (Part2.key_callback s2 GLFW.KEY_P GLFW.PRESS)
                     GLFW.KEY_P GLFW.PRESS = s2.
Proof.
  rewrite !(proj1 (projection_key1 _)), !(proj2 (projection_key1 _)).
  rewrite !(proj1 (projection_key2 _)), !(proj2 (projection_key2 _)).
  destruct s1 as [a1 a2 a3 p1 b1 c1 d1 e1 f1 g1].
  destruct s2 as [[a b c d e f p2 sm cm] b2 c2 d2 e2 f2 g2 h2].
  cbn. by rewrite !negb_involutive.
Qed.

End Controls.

(** ** Events no handler is bound to *)

Section Unbound.

Lemma key_test_false (keys : list Z) key k :
  key ∉ keys → k ∈ keys → (key =? k) = false.
Proof. intros Hk Hin. apply Z.eqb_neq. intros ->. by apply Hk. Qed.

Ltac listed := repeat first [apply list_elem_of_here | apply list_elem_of_further].

Ltac drop_key_tests Hk :=
  repeat match goal with
  | |- context [?key =? ?k] =>
      rewrite (key_test_false _ key k Hk) by listed
  end.

(** X18.  An event whose action is neither press nor repeat (a release,
    say), or whose key is none of the keys the handler names, leaves the
    whole state of the program as it was; in particular the light, mode
    and material keys of the second program do nothing in the first. *)
Theorem unbound_events_change_nothing s1 s2 key action :
  ((action ≠ GLFW.PRESS ∧ action ≠ GLFW.REPEAT) ∨ key ∉ part1_keys →
   Part1.onKey s1 key action = s1) ∧
  ((action ≠ GLFW.PRESS ∧ action ≠ GLFW.REPEAT) ∨ key ∉ part2_keys →
   Part2.key_callback s2 key action = s2).
Proof.
  split.
  - unfold Part1.onKey. intros [[Hp Hr] | Hk].
    + by rewrite (proj2 (Z.eqb_neq _ _) Hp), (proj2 (Z.eqb_neq _ _) Hr).
    + destruct ((action =? GLFW.PRESS) || (action =? GLFW.REPEAT)); [|done].
      by drop_key_tests Hk.
  - unfold Part2.key_callback. intros [[Hp Hr] | Hk].
    + by rewrite (proj2 (Z.eqb_neq _ _) Hp), (proj2 (Z.eqb_neq _ _) Hr).
    + destruct ((action =? GLFW.PRESS) || (action =? GLFW.REPEAT)); [|done].
      cbv zeta. drop_key_tests Hk. cbn [andb]. by rewrite !when_false.
Qed.

Lemma unbound_events_change_nothing_witness :
  (GLFW.KEY_M ∉ part1_keys) ∧
  Part1.onKey part1_initial GLFW.KEY_M GLFW.PRESS = part1_initial ∧
  (GLFW.RELEASE ≠ GLFW.PRESS ∧ GLFW.RELEASE ≠ GLFW.REPEAT) ∧
  Part2.key_callback part2_initial GLFW.KEY_M GLFW.RELEASE = part2_initial.
Proof.
  assert (GLFW.KEY_M ∉ part1_keys) as Hk.
  { intros H. unfold part1_keys in H.
    repeat ((apply elem_of_cons in H as [H | H]); [done|]).
    by apply elem_of_nil in H. }
  assert (GLFW.RELEASE ≠ GLFW.PRESS ∧ GLFW.RELEASE ≠ GLFW.REPEAT) as Ha by done.
  split; [exact Hk|]. split.
  { exact (proj1 (unbound_events_change_nothing part1_initial part2_initial
                    GLFW.KEY_M GLFW.PRESS) (or_intror Hk)). }
  split; [exact Ha|].
  exact (proj2 (unbound_events_change_nothing part1_initial part2_initial
                  GLFW.KEY_M GLFW.RELEASE) (or_introl Ha)).
Defined.

End Unbound.

(** ** When the render loop ends *)

Section Quit.

Lemma poll_events1_window evs : ∀ s,
  Part1.windowShouldClose (Part1.poll_events s evs) =
  Part1.windowShouldClose s || existsb is_quit evs.
Proof.
  induction evs as [|e evs IH]; intros s; [by rewrite orb_false_r|].
  unfold Part1.poll_events in *. cbn [fold_left existsb].
  rewrite IH, onKey_window. unfold is_quit. by rewrite orb_assoc.
Qed.

Lemma poll_events2_window evs : ∀ s,
  Part2.windowShouldClose (Part2.poll_events s evs) =
  Part2.windowShouldClose s || existsb is_quit evs.
Proof.
  induction evs as [|e evs IH]; intros s; [by rewrite orb_false_r|].
  unfold Part2.poll_events in *. cbn [fold_left existsb].
  rewrite IH, key_callback_window. unfold is_quit. by rewrite orb_assoc.
Qed.

Lemma glfwPollEvents1_window i s :
  Part1.windowShouldClose (Part1.glfwPollEvents s i) =
  Part1.windowShouldClose s || quits i.
Proof.
  unfold Part1.glfwPollEvents, quits. pose proof (poll_events1_window (events i) s) as H.
  destruct (close_request i); [|done]. cbn. by rewrite orb_true_r.
Qed.

Lemma glfwPollEvents2_window i s :
  Part2.windowShouldClose (Part2.glfwPollEvents s i) =
  Part2.windowShouldClose s || quits i.
Proof.
  unfold Part2.glfwPollEvents, quits. pose proof (poll_events2_window (events i) s) as H.
  destruct (close_request i); [|done]. cbn. by rewrite orb_true_r.
Qed.

Lemma frame_aborts_accepted asserts persp i :
  asserts = false ∨ aspect_accepted i = true →
  frame_aborts asserts persp (width i) (height i) = false.
Proof.
  unfold frame_aborts, aspect_accepted. intros [-> | ->]; [done|].
  by rewrite andb_false_r.
Qed.

Lemma safe_inputs_tail asserts (i : FrameInput) inputs :
  asserts = false ∨ Forall (λ i, aspect_accepted i = true) (i :: inputs) →
  (asserts = false ∨ aspect_accepted i = true) ∧
  (asserts = false ∨ Forall (λ i, aspect_accepted i = true) inputs).
Proof.
  intros [-> | H]; [by split; left|]. apply Forall_cons in H as [H1 H2].
  by split; right.
Qed.

(** X19.  In either program, entered with the close flag unset, the
    render loop draws at most one frame per pass up to and including the
    first pass that brings a request to close the window or a press or
    repeat of Escape, and none after it.  When no assertion can fail (the
    program is built without assertions, or every pass has an aspect
    ratio [glm::perspective] accepts) it draws exactly those frames, the
    pass that receives the quit event included; the close flag at the
    end tells whether such an event arrived, and the loop is left exactly
    then: no other key and no later event clears the flag. *)
Theorem render_loop_stops_at_quit asserts s1 s2 inputs :
  let r1 := Part1.render_loop asserts s1 inputs in
  let r2 := Part2.render_loop asserts s2 inputs in
  (Part1.windowShouldClose s1 = false →
   (length (frames r1) ≤ passes inputs)%nat ∧
   (asserts = false ∨ Forall (λ i, aspect_accepted i = true) inputs →
    length (frames r1) = passes inputs ∧
    Part1.windowShouldClose (final r1) = existsb quits inputs ∧
    ending r1 = if existsb quits inputs then Closed else StillRunning)) ∧
  (Part2.windowShouldClose s2 = false →
   (length (frames r2) ≤ passes inputs)%nat ∧
   (asserts = false ∨ Forall (λ i, aspect_accepted i = true) inputs →
    length (frames r2) = passes inputs ∧
    Part2.windowShouldClose (final r2) = existsb quits inputs ∧
    ending r2 = if existsb quits inputs then Closed else StillRunning)).
Proof.
  cbv zeta. split.
  - revert s1. induction inputs as [|i inputs IH]; intros s Hs;
      cbn [Part1.render_loop passes existsb]; rewrite Hs; [done|].
    pose proof (glfwPollEvents1_window i s) as Hw. rewrite Hs in Hw. cbn [orb] in Hw.
    destruct (frame_aborts asserts _ (width i) (height i)) eqn:Ha.
    { split; [cbn; destruct (quits i); lia|]. intros Hsafe.
      apply safe_inputs_tail in Hsafe as [Hi _].
      by rewrite (frame_aborts_accepted _ _ _ Hi) in Ha. }
    cbn [final frames ending length].
    destruct (quits i) eqn:Q.
    + assert (Part1.render_loop asserts (Part1.glfwPollEvents s i) inputs =
              MkRun (Part1.glfwPollEvents s i) [] Closed) as ->.
      { destruct inputs; cbn [Part1.render_loop]; by rewrite Hw. }
      done.
    + specialize (IH _ Hw). destruct IH as [IH1 IH2]. split; [lia|].
      intros Hsafe. apply safe_inputs_tail in Hsafe as [_ Hrest].
      destruct (IH2 Hrest) as (-> & -> & ->). done.
  - revert s2. induction inputs as [|i inputs IH]; intros s Hs;
      cbn [Part2.render_loop passes existsb]; rewrite Hs; [done|].
    pose proof (glfwPollEvents2_window i s) as Hw. rewrite Hs in Hw. cbn [orb] in Hw.
    destruct (frame_aborts asserts _ (width i) (height i)) eqn:Ha.
    { split; [cbn; destruct (quits i); lia|]. intros Hsafe.
      apply safe_inputs_tail in Hsafe as [Hi _].
      by rewrite (frame_aborts_accepted _ _ _ Hi) in Ha. }
    cbn [final frames ending length].
    destruct (quits i) eqn:Q.
    + assert (Part2.render_loop asserts (Part2.glfwPollEvents s i) inputs =
              MkRun (Part2.glfwPollEvents s i) [] Closed) as ->.
      { destruct inputs; cbn [Part2.render_loop]; by rewrite Hw. }
      done.
    + specialize (IH _ Hw). destruct IH as [IH1 IH2]. split; [lia|].
      intros Hsafe. apply safe_inputs_tail in Hsafe as [_ Hrest].
      destruct (IH2 Hrest) as (-> & -> & ->). done.
Qed.

Lemma render_loop_stops_at_quit_witness :
  let inputs := [MkFrame [MkKey GLFW.KEY_P GLFW.PRESS] false 1024 768;
                 MkFrame [MkKey GLFW.KEY_A GLFW.PRESS] true 1024 768;
                 MkFrame [MkKey GLFW.KEY_A GLFW.PRESS] false 1024 768] in
  (Part1.windowShouldClose part1_initial = false ∧
   Forall (λ i, aspect_accepted i = true) inputs ∧
   length (frames (Part1.render_loop true part1_initial inputs)) = 2%nat ∧
   ending (Part1.render_loop true part1_initial inputs) = Closed) ∧
  (Part2.windowShouldClose part2_initial = false ∧
   length (frames (Part2.render_loop true part2_initial inputs)) = 2%nat).
Proof.
  intros inputs.
  assert (Forall (λ i, aspect_accepted i = true) inputs) as Hin
    by (repeat constructor).
  pose proof (render_loop_stops_at_quit true part1_initial part2_initial inputs)
    as [H1 H2].
  destruct (proj2 (H1 eq_refl) (or_intror Hin)) as (L1 & _ & E1).
  destruct (proj2 (H2 eq_refl) (or_intror Hin)) as (L2 & _).
  split; [split_and!; [reflexivity | exact Hin | exact L1 | exact E1]|].
  split; [reflexivity | exact L2].
Defined.

End Quit.

(** ** How the two [main] functions end *)

Section Outcome.

Lemma flat_vertices_out_of_range ps fs :
  ¬ Forall (in_range (length ps)) fs → Part1.flat_vertices ps fs = None.
Proof.
  intros Hn. destruct (Part1.flat_vertices ps fs) as [vs|] eqn:E; [|done].
  destruct Hn. by eapply flat_loop_Some.
Qed.

Lemma vertex_normals_out_of_range ps fs :
  ¬ Forall (in_range (length ps)) fs → Part2.vertex_normals ps fs = None.
Proof.
  intros Hn. destruct (Part2.vertex_normals ps fs) as [vns|] eqn:E; [|done].
  destruct Hn. unfold Part2.vertex_normals in E.
  destruct (Part2.face_normals ps fs) as [ns|] eqn:F; [|done].
  by eapply face_normals_Some.
Qed.

(** X20.  How each [main] ends, by the mesh it loaded.  Without a mesh
    (no argument, or a file that does not open) both exit with -1.  With
    a mesh that has a face index outside the positions, both run into
    the out-of-range read, before any graphics call and so whether or
    not the graphics start-up would have worked.  With every index in
    range both exit with -1 if a start-up call fails and otherwise enter
    the render loop with the loaded mesh and three vertices per face. *)
Theorem main_outcome_by_mesh env argv :
  (mesh_of env argv = None →
   Part1.main env argv = Exit (-1) ∧ Part2.main env argv = Exit (-1)) ∧
  (∀ ps fs, mesh_of env argv = Some (ps, fs) →
   (¬ Forall (in_range (length ps)) fs →
    Part1.main env argv = Undefined ∧ Part2.main env argv = Undefined) ∧
   (Forall (in_range (length ps)) fs →
    if graphics_ok env then
      ∃ st1 st2,
        Part1.main env argv = Running st1 ∧ Part2.main env argv = Running st2 ∧
        Part1.positions st1 = ps ∧ Part1.faces st1 = fs ∧
        Part2.positions st2 = ps ∧ Part2.faces st2 = fs ∧
        length (Part1.vertices st1) = (3 * length fs)%nat ∧
        length (Part2.vertices st2) = (3 * length fs)%nat
    else
      Part1.main env argv = Exit (-1) ∧ Part2.main env argv = Exit (-1))).
Proof.
  unfold mesh_of, Part1.main, Part2.main, graphics_ok. rewrite load_smf_eq.
  destruct (length argv <? 2)%nat.
  { split; [done|]. intros ps fs [=]. }
  destruct (Part1.loadSMF env _ [] []) as [[ok vs] fs']. destruct ok; cbn [negb].
  2:{ split; [done|]. intros ps fs [=]. }
  split; [done|]. intros ps fs [= -> ->]. split.
  - intros Hn.
    by rewrite (flat_vertices_out_of_range _ _ Hn), (vertex_normals_out_of_range _ _ Hn).
  - intros Hr.
    destruct (flat_loop_spec ps fs Hr []) as (vs1 & Hvs1 & Hl1 & _).
    destruct (vertex_normals_spec _ _ Hr) as (fns & vns & _ & Hv & Hlen & _).
    destruct (triangle_list_spec ps vns fs Hlen Hr []) as (vs2 & Hvs2 & Hl2 & _).
    unfold Part1.flat_vertices. rewrite Hvs1, Hv, Hvs2.
    destruct (glfwInit env), (glfwCreateWindow env), (gladLoadGLLoader env);
      cbn [negb andb]; try done.
    eexists _, _. split_and!; try reflexivity; simpl in *; lia.
Qed.

Lemma main_outcome_by_mesh_witness :
  mesh_of (file_env zero_index_file) ["viewer"; "mesh.smf"]%string =
    Some ([], [Vec 4294967295 0 1]) ∧
  ¬ Forall (in_range 0) [Vec 4294967295 0 1 : uvec3] ∧
  Part1.main (file_env zero_index_file) ["viewer"; "mesh.smf"]%string = Undefined ∧
  Part2.main (file_env zero_index_file) ["viewer"; "mesh.smf"]%string = Undefined.
Proof.
  assert (mesh_of (file_env zero_index_file) ["viewer"; "mesh.smf"]%string =
            Some ([], [Vec 4294967295 0 1])) as Hm by (vm_compute; reflexivity).
  assert (¬ Forall (in_range 0) [Vec 4294967295 0 1 : uvec3]) as Hn.
  { intros H. apply Forall_cons in H as [(H & _) _]. simpl in H. lia. }
  split_and!; [exact Hm | exact Hn | |].
  - exact (proj1 (proj1 (proj2 (main_outcome_by_mesh (file_env zero_index_file)
                                  ["viewer"; "mesh.smf"]%string) _ _ Hm) Hn)).
  - exact (proj2 (proj1 (proj2 (main_outcome_by_mesh (file_env zero_index_file)
                                  ["viewer"; "mesh.smf"]%string) _ _ Hm) Hn)).
Defined.

(** X21.  A file that gives no vertex (an empty file, or comment lines
    only): with a face line both programs run into the out-of-range
    read; without one they enter the render loop with nothing to draw,
    a centroid of three NaNs (0/0) and a bounding radius and camera
    distance of zero. *)
Theorem mesh_without_vertices env argv fs :
  mesh_of env argv = Some ([], fs) →
  (fs ≠ [] → Part1.main env argv = Undefined ∧ Part2.main env argv = Undefined) ∧
  (fs = [] → graphics_ok env = true →
   ∃ st1 st2,
     Part1.main env argv = Running st1 ∧ Part2.main env argv = Running st2 ∧
     Part1.vertices st1 = [] ∧ Part2.vertices st2 = [] ∧
     Part1.centroid st1 = vec3_nan ∧ Part2.centroid st2 = vec3_nan ∧
     Part1.maxRadius st1 = F32.zero ∧ Part2.maxrad st2 = F32.zero ∧
     Part1.cameraRadius st1 = F32.zero ∧
     Part2.camRadius (Part2.globals st2) = F32.zero).
Proof.
  unfold mesh_of, Part1.main, Part2.main, graphics_ok. rewrite load_smf_eq.
  destruct (length argv <? 2)%nat; [done|].
  destruct (Part1.loadSMF env _ [] []) as [[ok vs] fs']. destruct ok; [|done].
  intros [= -> ->]. cbn [negb]. split.
  - intros Hne.
    assert (¬ Forall (in_range (length (@nil vec3))) fs) as Hn.
    { destruct fs as [|f fs]; [done|]. intros H.
      apply Forall_cons in H as [(H & _) _]. simpl in H. lia. }
    by rewrite (flat_vertices_out_of_range _ _ Hn), (vertex_normals_out_of_range _ _ Hn).
  - intros -> Hg.
    destruct (glfwInit env), (glfwCreateWindow env), (gladLoadGLLoader env); try done.
    eexists _, _. split_and!; try reflexivity.
Qed.

Lemma mesh_without_vertices_witness :
  mesh_of (file_env comment_file) ["viewer"; "mesh.smf"]%string = Some ([], []) ∧
  graphics_ok (file_env comment_file) = true ∧
  ∃ st1, Part1.main (file_env comment_file) ["viewer"; "mesh.smf"]%string = Running st1 ∧
         Part1.centroid st1 = vec3_nan.
Proof.
  assert (mesh_of (file_env comment_file) ["viewer"; "mesh.smf"]%string = Some ([], []))
    as Hm by (vm_compute; reflexivity).
  assert (graphics_ok (file_env comment_file) = true) as Hg by reflexivity.
  split_and!; [exact Hm | exact Hg |].
  destruct (proj2 (mesh_without_vertices (file_env comment_file)
                     ["viewer"; "mesh.smf"]%string [] Hm) eq_refl Hg)
    as (st1 & st2 & H1 & _ & _ & _ & Hc & _).
  exists st1. by split.
Defined.

End Outcome.

(** ** The projection at the edges *)

Section ProjectionEdges.

Lemma div_by_zero_not_finite x : not_finite (F32.div x (F32.of_Z 0)) = true.
Proof. by destruct x as [[]|[]| |[] m e]. Qed.

Lemma mul_not_finite x a : not_finite a = true → not_finite (F32.mul x a) = true.
Proof. by destruct a as [[]|[]| |[] m e], x as [[]|[]| |[] m' e']. Qed.

(** X22.  The aspect ratio is computed as width / height with no guard:
    on a framebuffer of height 0 (a minimised window) it is NaN or an
    infinity whatever the width, and it reaches the projection as such,
    as the aspect of the perspective projection and in the left and
    right planes of the orthographic one. *)
Theorem zero_height_projection_not_finite persp r w :
  match frame_projection persp r w 0 with
  | perspective _ aspect _ _ => not_finite aspect = true
  | ortho l rt _ _ _ _ => not_finite l = true ∧ not_finite rt = true
  end.
Proof.
  unfold frame_projection. cbv zeta. destruct persp.
  - apply div_by_zero_not_finite.
  - split; apply mul_not_finite, div_by_zero_not_finite.
Qed.

Lemma binary_round_aux_opp sx mx ex lx :
  binary_round_aux F32.prec F32.emax (negb sx) mx ex lx =
  SFopp (binary_round_aux F32.prec F32.emax sx mx ex lx).
Proof.
  unfold binary_round_aux.
  destruct (shr_fexp F32.prec F32.emax mx ex lx) as [mrs' e'].
  destruct (shr_fexp F32.prec F32.emax _ e' loc_Exact) as [mrs'' e''].
  destruct (shr_m mrs'') as [|p|p]; [done| |done].
  by destruct (e'' <=? F32.emax - F32.prec).
Qed.

Lemma mul_opp_l x a : F32.mul (SFopp x) a = SFopp (F32.mul x a).
Proof.
  destruct x as [sx|sx| |sx m e], a as [sa|sa| |sa m' e']; try done;
    unfold F32.mul; simpl; try by destruct sx, sa.
  rewrite <- binary_round_aux_opp. by destruct sx, sa.
Qed.

(** X23.  The orthographic view volume is symmetric in every axis.  The
    top plane, twice the bounding radius, is never NaN; the bottom plane
    is its exact negation and the near plane that of the far plane.
    Where the right plane is a number (an infinity included) the left
    plane is its exact negation, the sign of a zero included; where the
    right plane is NaN (an aspect ratio of 0/0) the left plane is NaN as
    well. *)
Theorem ortho_volume_is_symmetric positions c w h :
  ∃ l rt top far,
    frame_projection false (mesh_max_radius positions c) w h =
      ortho l rt (SFopp top) top (SFopp far) far ∧
    is_nan top = false ∧ is_nan far = false ∧
    (is_nan rt = false → l = SFopp rt) ∧
    (is_nan rt = true → is_nan l = true).
Proof.
  destruct (max_radius_fold (λ p, Glm.length (Glm.vsub p c)) positions F32.zero
              eq_refl eq_refl) as (Hn & Hs & _).
  fold (mesh_max_radius positions c) in Hn, Hs.
  destruct (mul_two_not_nan _ Hn Hs) as [Ht _].
  unfold frame_projection. cbv zeta. eexists _, _, _, _.
  split; [reflexivity|]. rewrite mul_opp_l. split_and!; [done | done | done |].
  by destruct (F32.mul (F32.mul _ _) _).
Qed.

Lemma ortho_volume_is_symmetric_witness :
  ∃ l rt top far,
    frame_projection false
      (mesh_max_radius flat_quad_positions (mesh_centroid flat_quad_positions))
      1024 768 = ortho l rt (SFopp top) top (SFopp far) far ∧
    is_nan rt = false ∧ l = SFopp rt.
Proof.
  destruct (ortho_volume_is_symmetric flat_quad_positions
              (mesh_centroid flat_quad_positions) 1024 768)
    as (l & rt & top & far & E & _ & _ & H & _).
  exists l, rt, top, far. split; [exact E|].
  assert (is_nan rt = false) as Hrt.
  { vm_compute in E. injection E as _ <- _ _ _ _. reflexivity. }
  split; [exact Hrt | exact (H Hrt)].
Defined.

End ProjectionEdges.

(** ** The keys the two programs share *)

Section SharedKeys.

Lemma when_keeps_view c stmt s0 s :
  (∀ s, view2 (stmt s) = view2 s) → view2 s = view2 s0 →
  view2 (Part2.when c stmt s) = view2 s0.
Proof. intros Hstmt H. unfold Part2.when. destruct c; [|done]. by rewrite Hstmt. Qed.

Ltac closed_key_tests :=
  repeat match goal with
  | |- context [Part2.when (?a =? ?b) _ _] =>
      let v := eval vm_compute in (a =? b) in
      change (a =? b) with v; first [rewrite when_true | rewrite when_false]
  | |- context [Part2.when ((?a =? ?b) && ?c) _ _] =>
      let v := eval vm_compute in (a =? b) in
      change (a =? b) with v; cbn [andb]
  end.

Ltac listed_key := repeat first [apply list_elem_of_here | apply list_elem_of_further].

Lemma key_step_same_view s1 s2 key action :
  view1 s1 = view2 s2 →
  view1 (Part1.onKey s1 key action) = view2 (Part2.key_callback s2 key action).
Proof.
  intros H. unfold Part1.onKey, Part2.key_callback.
  destruct ((action =? GLFW.PRESS) || (action =? GLFW.REPEAT)) eqn:G; [|done].
  cbv zeta.
  destruct (decide (key ∈ part1_keys)) as [Hin | Hout].
  - unfold part1_keys in Hin.
    repeat ((apply elem_of_cons in Hin as [-> | Hin]);
            [closed_key_tests; rewrite ?when_false;
             unfold view1, view2 in *; injection H as H1 H2 H3 H4 H5;
             destruct s1, s2 as [[] ?]; simpl in *; congruence|]).
    by apply elem_of_nil in Hin.
  - repeat match goal with
    | |- context [key =? ?k] =>
        rewrite (key_test_false _ key k Hout) by listed_key
    end.
    rewrite !when_false, H. symmetry.
    repeat (apply when_keeps_view; [intros; reflexivity|]). reflexivity.
Qed.

Lemma poll_events_same_view evs : ∀ s1 s2,
  view1 s1 = view2 s2 →
  view1 (Part1.poll_events s1 evs) = view2 (Part2.poll_events s2 evs).
Proof.
  induction evs as [|e evs IH]; intros s1 s2 H; [done|].
  unfold Part1.poll_events, Part2.poll_events in *. cbn [fold_left].
  by apply IH, key_step_same_view.
Qed.

Lemma glfwPollEvents_same_view i s1 s2 :
  view1 s1 = view2 s2 →
  view1 (Part1.glfwPollEvents s1 i) = view2 (Part2.glfwPollEvents s2 i).
Proof.
  intros H. unfold Part1.glfwPollEvents, Part2.glfwPollEvents.
  pose proof (poll_events_same_view (events i) s1 s2 H) as H'.
  destruct (close_request i); [|done].
  unfold view1, view2 in *. cbn. congruence.
Qed.

(** X24.  The second program handles the keys of the first (A, D, W, S,
    Q, E, P, Escape) exactly as the first does, and its own keys touch
    nothing the first program has: from states that agree on camera
    angle, distance, height, projection flag and close flag, the same
    events lead to states that agree on them again, and with the same
    bounding radius the two render loops draw the same number of frames
    with the same projections and end in the same way. *)
Theorem shared_keys_act_alike s1 s2 evs asserts inputs :
  view1 s1 = view2 s2 →
  view1 (Part1.poll_events s1 evs) = view2 (Part2.poll_events s2 evs) ∧
  (Part1.maxRadius s1 = Part2.maxrad s2 →
   let r1 := Part1.render_loop asserts s1 inputs in
   let r2 := Part2.render_loop asserts s2 inputs in
   map Part1.proj (frames r1) = map Part2.proj (frames r2) ∧
   ending r1 = ending r2 ∧ view1 (final r1) = view2 (final r2)).
Proof.
  intros H. split; [by apply poll_events_same_view|]. intros Hr. cbv zeta.
  revert s1 s2 H Hr. induction inputs as [|i inputs IH]; intros s1 s2 H Hr;
    cbn [Part1.render_loop Part2.render_loop].
  { assert (Part1.windowShouldClose s1 = Part2.windowShouldClose s2) as ->
      by (unfold view1, view2 in H; congruence).
    done. }
  assert (Part1.windowShouldClose s1 = Part2.windowShouldClose s2) as ->
    by (unfold view1, view2 in H; congruence).
  destruct (Part2.windowShouldClose s2); [done|].
  pose proof (glfwPollEvents_same_view i s1 s2 H) as H'.
  destruct (glfwPollEvents1_frame i s1) as (_ & _ & _ & _ & R1).
  destruct (glfwPollEvents2_frame i s2) as (_ & _ & _ & _ & _ & R2).
  assert (Part1.maxRadius (Part1.glfwPollEvents s1 i) =
          Part2.maxrad (Part2.glfwPollEvents s2 i)) as Hr' by congruence.
  assert (Part1.usePerspective (Part1.glfwPollEvents s1 i) =
          Part2.perspectiveProj (Part2.globals (Part2.glfwPollEvents s2 i))) as ->
    by (unfold view1, view2 in H'; congruence).
  destruct (frame_aborts _ _ _ _) eqn:Ha; [done|].
  specialize (IH _ _ H' Hr'). destruct IH as (IH1 & IH2 & IH3).
  cbn [final frames ending map]. rewrite IH1. split_and!; [|done..]. f_equal.
  unfold Part1.render, Part2.render. cbn [Part1.proj Part2.proj].
  rewrite Hr'. unfold view1, view2 in H'. f_equal. congruence.
Qed.

Lemma shared_keys_act_alike_witness :
  let s1 := Part1.set_cameraHeight F32.zero (Part1.set_cameraRadius F32.two part1_initial) in
  let evs := [MkKey GLFW.KEY_P GLFW.PRESS; MkKey GLFW.KEY_M GLFW.PRESS;
              MkKey GLFW.KEY_ESCAPE GLFW.REPEAT] in
  view1 s1 = view2 part2_initial ∧
  view1 (Part1.poll_events s1 evs) = view2 (Part2.poll_events part2_initial evs).
Proof.
  intros s1 evs.
  assert (view1 s1 = view2 part2_initial) as H by reflexivity.
  split; [exact H|].
  exact (proj1 (shared_keys_act_alike s1 part2_initial evs true [] H)).
Defined.

End SharedKeys.

(** * Scaling and mirroring the mesh *)

(** ** Digits and shifts *)

Section Digits.

Lemma digits2_pos_bounds p :
  2 ^ (Zpos (digits2_pos p) - 1) <= Zpos p < 2 ^ Zpos (digits2_pos p).
Proof.
  induction p as [p IH|p IH|]; cbn [digits2_pos]; [| |simpl; lia].
  all: rewrite Pos2Z.inj_succ.
  all: replace (Z.succ (Zpos (digits2_pos p)) - 1) with (Z.succ (Zpos (digits2_pos p) - 1)) by lia.
  all: rewrite !Z.pow_succ_r by lia.
  all: set (a := 2 ^ (Zpos (digits2_pos p) - 1)) in *.
  all: set (b := 2 ^ Zpos (digits2_pos p)) in *.
  - rewrite Pos2Z.inj_xI. lia.
  - rewrite Pos2Z.inj_xO. lia.
Qed.

Lemma Zdigits2_nonneg m : 0 <= Zdigits2 m.
Proof. destruct m; simpl; lia. Qed.

Lemma Zdigits2_upper m : 0 <= m → m < 2 ^ Zdigits2 m.
Proof.
  intros Hm. destruct m as [|p|p]; [simpl; lia| |lia].
  apply digits2_pos_bounds.
Qed.

Lemma Zdigits2_le m t : 0 <= m → 0 <= t → m < 2 ^ t → Zdigits2 m <= t.
Proof.
  intros Hm Ht H. destruct m as [|p|p]; [simpl; lia| |lia].
  pose proof (digits2_pos_bounds p) as [Hl _]. simpl.
  destruct (Z.le_gt_cases (Zpos (digits2_pos p)) t) as [|Hgt]; [done|].
  assert (2 ^ t <= 2 ^ (Zpos (digits2_pos p) - 1)) by (apply Z.pow_le_mono_r; lia).
  lia.
Qed.

Lemma shr_m_shr_1 r : 0 <= shr_m r → shr_m (shr_1 r) = shr_m r / 2.
Proof.
  destruct r as [[|[p|p|]|p] rr ss]; cbn [shr_1 shr_m]; intros H; try lia.
  - reflexivity.
  - rewrite Pos2Z.inj_xI. apply Z.div_unique with 1; lia.
  - rewrite Pos2Z.inj_xO. apply Z.div_unique with 0; lia.
  - reflexivity.
Qed.

Lemma shr_m_iter p : ∀ r,
  0 <= shr_m r → shr_m (SpecFloat.iter_pos shr_1 p r) = shr_m r / 2 ^ Zpos p.
Proof.
  induction p as [p IH|p IH|]; intros r Hr; cbn [SpecFloat.iter_pos].
  - rewrite IH by auto using iter_shr_nonneg, shr_1_nonneg.
    rewrite IH by auto using shr_1_nonneg. rewrite shr_m_shr_1 by done.
    rewrite !Z.div_div by lia. f_equal.
    replace (Zpos p~1) with (1 + Zpos p + Zpos p) by lia.
    rewrite !Z.pow_add_r by lia. change (2 ^ 1) with 2. lia.
  - rewrite IH by auto using iter_shr_nonneg. rewrite IH by done.
    rewrite Z.div_div by lia. f_equal.
    replace (Zpos p~0) with (Zpos p + Zpos p) by lia.
    rewrite !Z.pow_add_r by lia. reflexivity.
  - rewrite shr_m_shr_1 by done. reflexivity.
Qed.

Lemma rne_bounds m l : 0 <= m → m <= round_nearest_even m l <= m + 1.
Proof. intros Hm. destruct l as [|[]]; simpl; try lia. destruct (Z.even m); lia. Qed.

End Digits.

(** ** Rounding at another scale

    A rounding whose result has room gives the same mantissa when the
    exponent it starts from is moved. *)

Section RoundShift.


Lemma fexp_eq x : fexp F32.prec F32.emax x = Z.max (x - 24) (-149).
Proof. reflexivity. Qed.

Lemma shr_record_m m l : shr_m (shr_record_of_loc m l) = m.
Proof. by destruct l as [|[]]. Qed.

(** The first shift of a rounding: the mantissa that is left has at most
    24 digits, and the exponent is the larger of the target exponent and
    the one given. *)
Lemma shr_fexp_spec m e l :
  0 <= m →
  0 <= shr_m (shr_fexp F32.prec F32.emax m e l).1 < 2 ^ 24 ∧
  (shr_fexp F32.prec F32.emax m e l).2 = Z.max (fexp F32.prec F32.emax (Zdigits2 m + e)) e.
Proof.
  intros Hm. unfold shr_fexp, shr. rewrite fexp_eq.
  pose proof (Zdigits2_upper m Hm) as Hd. pose proof (Zdigits2_nonneg m) as Hd0.
  destruct (Z.max (Zdigits2 m + e - 24) (-149) - e) as [|n|n] eqn:En; cbn [fst snd].
  - rewrite shr_record_m. split; [|lia]. split; [done|].
    assert (2 ^ Zdigits2 m <= 2 ^ 24) by (apply Z.pow_le_mono_r; lia). lia.
  - rewrite shr_m_iter by (rewrite shr_record_m; done). rewrite shr_record_m.
    split; [|lia]. split; [apply Z.div_pos; lia|].
    apply Z.div_lt_upper_bound; [lia|]. rewrite <- Z.pow_add_r by lia.
    assert (2 ^ Zdigits2 m <= 2 ^ (Zpos n + 24)) by (apply Z.pow_le_mono_r; lia). lia.
  - rewrite shr_record_m. split; [|lia]. split; [done|].
    assert (2 ^ Zdigits2 m <= 2 ^ 24) by (apply Z.pow_le_mono_r; lia). lia.
Qed.

(** The exponent of a rounded result is the exponent after the first
    shift, or one more. *)
Lemma round_exponent s m e l :
  0 <= m →
  match binary_round_aux F32.prec F32.emax s m e l with
  | S754_finite _ _ e'' => e'' <= Z.max (fexp F32.prec F32.emax (Zdigits2 m + e)) e + 1
  | _ => True
  end.
Proof.
  intros Hm. unfold binary_round_aux.
  destruct (shr_fexp_spec m e l Hm) as [Hm' He'].
  destruct (shr_fexp F32.prec F32.emax m e l) as [mrs' e']. cbn [fst snd] in Hm', He'.
  pose proof (rne_bounds (shr_m mrs') (loc_of_shr_record mrs') (proj1 Hm')) as Hr.
  set (m1 := round_nearest_even _ _) in *.
  assert (Zdigits2 m1 <= 25) as Hd1 by (apply Zdigits2_le; [lia | lia | change (2 ^ 25) with (2 * 2 ^ 24); lia]).
  destruct (shr_fexp_spec m1 e' loc_Exact ltac:(lia)) as [_ He''].
  destruct (shr_fexp F32.prec F32.emax m1 e' loc_Exact) as [mrs'' e'']. cbn [fst snd] in He''.
  destruct (shr_m mrs''); [done| |done].
  destruct (e'' <=? _); [|done].
  rewrite fexp_eq in He', He''. rewrite fexp_eq. lia.
Qed.

Lemma shr_fexp_shift m e l k :
  -149 + Z.abs k + 1 <= Z.max (Zdigits2 m + e - 24) e →
  shr_fexp F32.prec F32.emax m (e + k) l = ((shr_fexp F32.prec F32.emax m e l).1, (shr_fexp F32.prec F32.emax m e l).2 + k).
Proof.
  intros H. unfold shr_fexp, shr. rewrite !fexp_eq.
  destruct (Z.max (Zdigits2 m + e - 24) (-149) - e) as [|n|n] eqn:En;
    destruct (Z.max (Zdigits2 m + (e + k) - 24) (-149) - (e + k)) as [|n'|n'] eqn:En';
    cbn [fst snd]; try (f_equal; lia); try lia.
  assert (n' = n) as -> by lia. f_equal. lia.
Qed.

Lemma round_shift s m e l k K :
  0 <= m → Z.abs k <= K → room K (binary_round_aux F32.prec F32.emax s m e l) = true →
  binary_round_aux F32.prec F32.emax s m (e + k) l = scale2 k (binary_round_aux F32.prec F32.emax s m e l).
Proof.
  intros Hm Hk Hroom. pose proof (round_exponent s m e l Hm) as Hexp.
  unfold binary_round_aux in *.
  destruct (shr_fexp_spec m e l Hm) as [Hm' He'].
  rewrite fexp_eq in *.
  assert (-149 + Z.abs k + 1 <= Z.max (Zdigits2 m + e - 24) e) as H1.
  { destruct (shr_fexp F32.prec F32.emax m e l) as [mrs' e'].
    destruct (shr_fexp F32.prec F32.emax _ e' loc_Exact) as [mrs'' e''].
    destruct (shr_m mrs''); try done. destruct (e'' <=? _); [|done].
    unfold room in Hroom. change (emin F32.prec F32.emax) with (-149) in Hroom. lia. }
  rewrite (shr_fexp_shift m e l k H1).
  destruct (shr_fexp F32.prec F32.emax m e l) as [mrs' e']. cbn [fst snd] in *.
  set (m1 := round_nearest_even _ _) in *.
  assert (-149 + Z.abs k + 1 <= Z.max (Zdigits2 m1 + e' - 24) e') as H2 by lia.
  rewrite (shr_fexp_shift m1 e' loc_Exact k H2).
  destruct (shr_fexp F32.prec F32.emax m1 e' loc_Exact) as [mrs'' e'']. cbn [fst snd] in *.
  destruct (shr_m mrs''); try done.
  destruct (e'' <=? F32.emax - F32.prec) eqn:Ee; [|done].
  unfold room in Hroom. unfold F32.emax, F32.prec in *.
  destruct (e'' + k <=? 128 - 24) eqn:Ee'; [done|]. lia.
Qed.

End RoundShift.

(** ** Addition, subtraction and multiplication at another scale *)

Section OpShift.

Lemma digits_iter_xO m d :
  Zpos (digits2_pos (Pos.iter xO m d)) = Zpos (digits2_pos m) + Zpos d.
Proof.
  induction d as [|d IH] using Pos.peano_ind.
  - simpl. lia.
  - rewrite Pos.iter_succ. cbn [digits2_pos]. lia.
Qed.

Lemma shl_align_spec m e t :
  Zpos (digits2_pos (shl_align m e t).1) + (shl_align m e t).2 = Zpos (digits2_pos m) + e ∧
  (shl_align m e t).2 = Z.min e t.
Proof.
  unfold shl_align. destruct (t - e) as [|d|d] eqn:E; cbn [fst snd]; [lia|lia|].
  rewrite digits_iter_xO. lia.
Qed.

Lemma shl_align_shift m e t k :
  shl_align m (e + k) (t + k) = ((shl_align m e t).1, (shl_align m e t).2 + k).
Proof.
  unfold shl_align. replace (t + k - (e + k)) with (t - e) by lia.
  by destruct (t - e).
Qed.

Lemma binary_round_shift s m e k K :
  Z.abs k <= K → room K (binary_round F32.prec F32.emax s m e) = true →
  binary_round F32.prec F32.emax s m (e + k) =
    scale2 k (binary_round F32.prec F32.emax s m e).
Proof.
  intros Hk Hroom. unfold binary_round in *. rewrite !fexp_eq in *.
  destruct (shl_align_spec m e (Z.max (Zpos (digits2_pos m) + e - 24) (-149))) as [Hd He].
  assert (-149 + K + 2 <= Z.max (Zpos (digits2_pos m) + e - 24) (-149)) as Ht.
  { destruct (shl_align m e _) as [mz ez]. cbn [fst snd] in *.
    pose proof (round_exponent s (Zpos mz) ez loc_Exact ltac:(lia)) as Hexp.
    destruct (binary_round_aux _ _ s (Zpos mz) ez loc_Exact); try done.
    unfold room in Hroom. change (emin F32.prec F32.emax) with (-149) in Hroom.
    rewrite fexp_eq in Hexp. cbn [Zdigits2] in Hexp. lia. }
  replace (Z.max (Zpos (digits2_pos m) + (e + k) - 24) (-149))
    with (Z.max (Zpos (digits2_pos m) + e - 24) (-149) + k) by lia.
  rewrite shl_align_shift.
  destruct (shl_align m e _) as [mz ez]. cbn [fst snd] in *.
  by apply (round_shift _ _ _ _ _ K).
Qed.

Lemma normalize_shift M e k K :
  Z.abs k <= K →
  room K (binary_normalize F32.prec F32.emax M e false) = true ∨ M = 0 →
  binary_normalize F32.prec F32.emax M (e + k) false =
    scale2 k (binary_normalize F32.prec F32.emax M e false).
Proof.
  intros Hk [Hroom | ->]; [|done].
  destruct M as [|p|p]; [done|..]; by apply (binary_round_shift _ _ _ _ K).
Qed.

Lemma shl_align_fst_shift m e t k :
  (shl_align m (e + k) (t + k)).1 = (shl_align m e t).1.
Proof. by rewrite shl_align_shift. Qed.

Lemma shl_align_same m e : (shl_align m e e).1 = m.
Proof. unfold shl_align. by rewrite Z.sub_diag. Qed.

Lemma add_shift k K x y :
  Z.abs k <= K → steady_add K x y = true →
  F32.add (scale2 k x) (scale2 k y) = scale2 k (F32.add x y).
Proof.
  intros Hk H. unfold steady_add, steady in H.
  destruct x as [sx|sx| |sx mx ex], y as [sy|sy| |sy my ey];
    try (by destruct sx, sy); try done.
  all: try (cbn in H; case_bool_decide; done).
  unfold F32.add, SFadd in *. cbn [scale2].
  rewrite Z.add_min_distr_r, !shl_align_fst_shift.
  apply (normalize_shift _ _ _ K); [done|].
  cbn [is_zero orb] in H. rewrite !orb_false_r in H.
  apply orb_true_iff in H as [H | H]; [by left|]. right.
  case_bool_decide as E; [|done]. injection E as -> -> ->.
  rewrite Z.min_id, !shl_align_same. by destruct sx; cbn; lia.
Qed.

Lemma sub_shift k K x y :
  Z.abs k <= K → steady_sub K x y = true →
  F32.sub (scale2 k x) (scale2 k y) = scale2 k (F32.sub x y).
Proof.
  intros Hk H. unfold steady_sub, steady in H.
  destruct x as [sx|sx| |sx mx ex], y as [sy|sy| |sy my ey];
    try (by destruct sx, sy); try done.
  all: try (cbn in H; case_bool_decide; done).
  unfold F32.sub, SFsub in *. cbn [scale2].
  rewrite Z.add_min_distr_r, !shl_align_fst_shift.
  apply (normalize_shift _ _ _ K); [done|].
  cbn [is_zero orb] in H. rewrite !orb_false_r in H.
  apply orb_true_iff in H as [H | H]; [by left|]. right.
  case_bool_decide as E; [|done]. injection E as -> -> ->.
  rewrite Z.min_id, !shl_align_same. lia.
Qed.

Lemma mul_shift a b K x y :
  Z.abs (a + b) <= K → steady_mul K x y = true →
  F32.mul (scale2 a x) (scale2 b y) = scale2 (a + b) (F32.mul x y).
Proof.
  intros Hk H. unfold steady_mul, steady in H.
  destruct x as [sx|sx| |sx mx ex], y as [sy|sy| |sy my ey]; try done.
  unfold F32.mul, SFmul in *. cbn [scale2].
  replace (ex + a + (ey + b)) with (ex + ey + (a + b)) by lia.
  apply (round_shift _ _ _ _ _ K); [lia | done |].
  cbn [is_zero orb] in H. by rewrite !orb_false_r in H.
Qed.

End OpShift.

(** ** Division and square root at another scale *)

Section DivSqrtShift.

Lemma div_core_shift mx e1 my e2 k :
  -149 <= Zpos (digits2_pos mx) + e1 - (Zpos (digits2_pos my) + e2) - 24 →
  -149 <= Zpos (digits2_pos mx) + e1 + k - (Zpos (digits2_pos my) + e2) - 24 →
  SFdiv_core_binary F32.prec F32.emax (Zpos mx) (e1 + k) (Zpos my) e2 =
  let '(q, e', l) := SFdiv_core_binary F32.prec F32.emax (Zpos mx) e1 (Zpos my) e2 in
  (q, e' + k, l).
Proof.
  intros H1 H2. unfold SFdiv_core_binary. cbn [Zdigits2]. rewrite !fexp_eq.
  set (d1 := Zpos (digits2_pos mx)) in *. set (d2 := Zpos (digits2_pos my)) in *.
  replace (Z.min (Z.max (d1 + (e1 + k) - (d2 + e2) - 24) (-149)) (e1 + k - e2))
    with (Z.min (Z.max (d1 + e1 - (d2 + e2) - 24) (-149)) (e1 - e2) + k) by lia.
  set (e' := Z.min _ (e1 - e2)).
  replace (e1 + k - e2 - (e' + k)) with (e1 - e2 - e') by lia.
  by destruct (Z.div_eucl _ _).
Qed.

Lemma div_core_bound mx e1 my e2 :
  let '(q, e', l) := SFdiv_core_binary F32.prec F32.emax (Zpos mx) e1 (Zpos my) e2 in
  0 <= q ∧
  Z.max (fexp F32.prec F32.emax (Zdigits2 q + e')) e' <=
    fexp F32.prec F32.emax (Zpos (digits2_pos mx) + e1 - (Zpos (digits2_pos my) + e2)) + 1.
Proof.
  unfold SFdiv_core_binary. cbn [Zdigits2]. rewrite !fexp_eq.
  pose proof (digits2_pos_bounds mx) as [_ Hx]. pose proof (digits2_pos_bounds my) as [Hy _].
  set (d1 := Zpos (digits2_pos mx)) in *. set (d2 := Zpos (digits2_pos my)) in *.
  assert (0 < d1 ∧ 0 < d2) as [Hd1 Hd2] by (unfold d1, d2; lia).
  set (e' := Z.min _ (e1 - e2)).
  assert (e' <= Z.max (d1 + e1 - (d2 + e2) - 24) (-149) ∧ e' <= e1 - e2) as [He1 He2]
    by (unfold e'; lia).
  set (s := e1 - e2 - e') in *.
  assert (0 <= s) as Hs by (unfold s; lia).
  set (m' := match s with Zpos _ => Z.shiftl (Zpos mx) s | 0 => Zpos mx | Zneg _ => 0 end).
  assert (0 <= m' < 2 ^ (d1 + s)) as Hm'.
  { unfold m'. destruct s as [|p|p] eqn:Es; [rewrite Z.add_0_r; lia| |lia].
    rewrite Z.shiftl_mul_pow2, Z.pow_add_r by lia.
    assert (0 < 2 ^ Zpos p) by (apply Z.pow_pos_nonneg; lia). nia. }
  pose proof (Z_div_mod m' (Zpos my) ltac:(lia)) as Hdiv.
  destruct (Z.div_eucl m' (Zpos my)) as [q r]. destruct Hdiv as [Hq Hr].
  assert (0 <= q) as Hq0 by nia.
  split; [done|].
  assert (Zdigits2 q = 0 ∨ Zdigits2 q + e' <= d1 + e1 - (d2 + e2) + 1) as [Hz | Hd].
  { destruct (Z.le_gt_cases 0 (d1 + s - d2 + 1)) as [Ht | Ht].
    - right. assert (Zdigits2 q <= d1 + s - d2 + 1); [|unfold s in *; lia].
      apply Zdigits2_le; [done | done |].
      assert (2 ^ (d1 + s) = 2 ^ (d1 + s - d2 + 1) * 2 ^ (d2 - 1)) as Hp
        by (rewrite <- Z.pow_add_r by lia; f_equal; lia).
      assert (0 < 2 ^ (d2 - 1)) by (apply Z.pow_pos_nonneg; lia).
      assert (0 < 2 ^ (d1 + s - d2 + 1)) by (apply Z.pow_pos_nonneg; lia).
      nia.
    - left. assert (2 ^ (d1 + s) <= 2 ^ (d2 - 1)) by (apply Z.pow_le_mono_r; lia).
      assert (q = 0) as -> by nia. reflexivity. }
  - rewrite !fexp_eq, Hz. clear -He1. lia.
  - rewrite !fexp_eq. clear -Hd He1. lia.
Qed.

Lemma div_shift k K x y :
  Z.abs k <= K → steady_div K x y = true →
  F32.div (scale2 k x) y = scale2 k (F32.div x y).
Proof.
  intros Hk H. unfold steady_div, steady in H.
  destruct x as [sx|sx| |sx mx ex], y as [sy|sy| |sy my ey]; try done.
  unfold F32.div, SFdiv in *. cbn [scale2].
  cbn [is_zero orb] in H. rewrite !orb_false_r in H.
  pose proof (div_core_bound mx ex my ey) as Hb.
  pose proof (div_core_shift mx ex my ey k) as Hs.
  destruct (SFdiv_core_binary _ _ (Zpos mx) ex (Zpos my) ey) as [[q e'] l].
  destruct Hb as [Hq Hb].
  rewrite Hs; [by apply (round_shift _ _ _ _ _ K)|..].
  all: pose proof (round_exponent (xorb sx sy) q e' l Hq) as Hexp.
  all: destruct (binary_round_aux _ _ _ q e' l); try done.
  all: unfold room in H; change (emin F32.prec F32.emax) with (-149) in H.
  all: rewrite !fexp_eq in *; lia.
Qed.

Lemma div2_shift a k : Z.div2 (a + 2 * k) = Z.div2 a + k.
Proof. rewrite !Z.div2_div. rewrite (Z.mul_comm 2 k), Z.div_add by lia. done. Qed.

Lemma sqrt_core_shift m e k :
  -149 <= Z.div2 (Zpos (digits2_pos m) + e + 1) - 24 →
  -149 <= Z.div2 (Zpos (digits2_pos m) + e + 1) + k - 24 →
  SFsqrt_core_binary F32.prec F32.emax (Zpos m) (e + 2 * k) =
  let '(q, e', l) := SFsqrt_core_binary F32.prec F32.emax (Zpos m) e in
  (q, e' + k, l).
Proof.
  intros H1 H2. unfold SFsqrt_core_binary. cbn [Zdigits2]. rewrite !fexp_eq.
  set (d := Zpos (digits2_pos m)) in *.
  replace (d + (e + 2 * k) + 1) with (d + e + 1 + 2 * k) by lia.
  rewrite !div2_shift.
  replace (Z.min (Z.max (Z.div2 (d + e + 1) + k - 24) (-149)) (Z.div2 e + k))
    with (Z.min (Z.max (Z.div2 (d + e + 1) - 24) (-149)) (Z.div2 e) + k) by lia.
  set (e' := Z.min _ (Z.div2 e)).
  replace (e + 2 * k - 2 * (e' + k)) with (e - 2 * e') by lia.
  by destruct (Z.sqrtrem _).
Qed.

Lemma sqrt_core_bound m e :
  let '(q, e', l) := SFsqrt_core_binary F32.prec F32.emax (Zpos m) e in
  0 <= q ∧
  Z.max (fexp F32.prec F32.emax (Zdigits2 q + e')) e' <=
    fexp F32.prec F32.emax (Z.div2 (Zpos (digits2_pos m) + e + 1)).
Proof.
  unfold SFsqrt_core_binary. cbn [Zdigits2]. rewrite !fexp_eq.
  pose proof (digits2_pos_bounds m) as [_ Hx].
  set (d := Zpos (digits2_pos m)) in *.
  assert (0 < d) as Hd by (unfold d; lia).
  set (e' := Z.min _ (Z.div2 e)).
  assert (e' <= Z.max (Z.div2 (d + e + 1) - 24) (-149) ∧ e' <= Z.div2 e) as [He1 He2]
    by (unfold e'; lia).
  assert (2 * Z.div2 e <= e) as He by (rewrite Z.div2_div; pose proof (Z.mul_div_le e 2); lia).
  set (s := e - 2 * e') in *.
  assert (0 <= s) as Hs by (unfold s; lia).
  set (m' := match s with Zpos _ => Z.shiftl (Zpos m) s | 0 => Zpos m | Zneg _ => 0 end).
  assert (0 <= m' < 2 ^ (d + s)) as Hm'.
  { unfold m'. destruct s as [|p|p] eqn:Es; [rewrite Z.add_0_r; lia| |lia].
    rewrite Z.shiftl_mul_pow2, Z.pow_add_r by lia.
    assert (0 < 2 ^ Zpos p) by (apply Z.pow_pos_nonneg; lia). nia. }
  pose proof (Z.sqrtrem_spec m' ltac:(lia)) as Hsq.
  destruct (Z.sqrtrem m') as [q r]. destruct Hsq as [Hq Hr].
  split; [lia|].
  assert (Zdigits2 q <= Z.div2 (d + s + 1)) as Hdq.
  { assert (0 <= Z.div2 (d + s + 1)) as H0 by (rewrite Z.div2_div; apply Z.div_pos; lia).
    apply Zdigits2_le; [lia | done |].
    assert (d + s <= 2 * Z.div2 (d + s + 1)) as Hle.
    { rewrite Z.div2_div. pose proof (Z.div_mod (d + s + 1) 2 ltac:(lia)).
      pose proof (Z.mod_pos_bound (d + s + 1) 2 ltac:(lia)). lia. }
    assert (2 ^ (d + s) <= 2 ^ (2 * Z.div2 (d + s + 1))) as Hp
      by (apply Z.pow_le_mono_r; lia).
    rewrite Z.pow_mul_r in Hp by lia. change (2 ^ 2) with 4 in Hp.
    replace (2 * Z.div2 (d + s + 1)) with (Z.div2 (d + s + 1) + Z.div2 (d + s + 1)) in Hle by lia.
    assert (2 ^ (d + s) <= 2 ^ Z.div2 (d + s + 1) * 2 ^ Z.div2 (d + s + 1)) as Hp2.
    { rewrite <- Z.pow_add_r by lia. apply Z.pow_le_mono_r; lia. }
    assert (0 < 2 ^ Z.div2 (d + s + 1)) by (apply Z.pow_pos_nonneg; lia).
    nia. }
  assert (Z.div2 (d + s + 1) + e' = Z.div2 (d + e + 1)) as Heq.
  { unfold s. replace (d + (e - 2 * e') + 1) with (d + e + 1 + 2 * (- e')) by lia.
    rewrite div2_shift. lia. }
  rewrite !fexp_eq. clear -Hdq Heq He1. lia.
Qed.

Lemma sqrt_shift k K x :
  Z.abs k <= K → steady_sqrt K x = true →
  F32.sqrt (scale2 (2 * k) x) = scale2 k (F32.sqrt x).
Proof.
  intros Hk H. unfold steady_sqrt in H.
  destruct x as [sx|sx| |[] mx ex]; try done; try (by destruct sx).
  unfold F32.sqrt, SFsqrt in *. cbn [scale2].
  cbn [is_zero] in H. rewrite orb_false_r in H.
  pose proof (sqrt_core_bound mx ex) as Hb.
  pose proof (sqrt_core_shift mx ex k) as Hs.
  destruct (SFsqrt_core_binary _ _ (Zpos mx) ex) as [[q e'] l].
  destruct Hb as [Hq Hb].
  rewrite Hs; [by apply (round_shift _ _ _ _ _ K)|..].
  all: pose proof (round_exponent false q e' l Hq) as Hexp.
  all: destruct (binary_round_aux _ _ _ q e' l); try done.
  all: unfold room in H; change (emin F32.prec F32.emax) with (-149) in H.
  all: rewrite !fexp_eq in *; lia.
Qed.

End DivSqrtShift.

(** ** Centroid and bounding radius of a mesh scaled by a power of two *)

Section MeshShift.

Lemma vadd_shift k K a b :
  Z.abs k <= K → steady_vadd K a b = true →
  Glm.vadd (vscale2 k a) (vscale2 k b) = vscale2 k (Glm.vadd a b).
Proof.
  intros Hk H. unfold steady_vadd in H. apply andb_true_iff in H as [H Hz].
  apply andb_true_iff in H as [Hx Hy].
  unfold Glm.vadd, vscale2. cbn [Glm.x Glm.y Glm.z].
  by rewrite !(add_shift k K).
Qed.

Lemma vsub_shift k K a b :
  Z.abs k <= K → steady_vsub K a b = true →
  Glm.vsub (vscale2 k a) (vscale2 k b) = vscale2 k (Glm.vsub a b).
Proof.
  intros Hk H. unfold steady_vsub in H. apply andb_true_iff in H as [H Hz].
  apply andb_true_iff in H as [Hx Hy].
  unfold Glm.vsub, vscale2. cbn [Glm.x Glm.y Glm.z].
  by rewrite !(sub_shift k K).
Qed.

Lemma vdiv_shift k K a n :
  Z.abs k <= K → steady_vdiv K a n = true →
  Glm.vdiv (vscale2 k a) n = vscale2 k (Glm.vdiv a n).
Proof.
  intros Hk H. unfold steady_vdiv in H. apply andb_true_iff in H as [H Hz].
  apply andb_true_iff in H as [Hx Hy].
  unfold Glm.vdiv, vscale2. cbn [Glm.x Glm.y Glm.z].
  by rewrite !(div_shift k K).
Qed.

Lemma length_shift k K v :
  2 * Z.abs k <= K → steady_length K v = true →
  Glm.length (vscale2 k v) = scale2 k (Glm.length v).
Proof.
  intros Hk H. unfold steady_length in H. cbv zeta in H.
  repeat (apply andb_true_iff in H as [H ?]).
  unfold Glm.length, Glm.dot, vscale2. cbn [Glm.x Glm.y Glm.z].
  rewrite !(mul_shift k k K) by (done || lia).
  rewrite !(add_shift (k + k) K) by (done || lia).
  replace (k + k) with (2 * k) by lia.
  apply (sqrt_shift k K); [lia | done].
Qed.

Lemma ltb_shift k a b : F32.ltb (scale2 k a) (scale2 k b) = F32.ltb a b.
Proof.
  unfold F32.ltb, SFltb, SFcompare.
  destruct a as [sa|sa| |sa ma ea], b as [sb|sb| |sb mb eb]; try done.
  cbn. by rewrite !(Z.add_comm _ k), Z.add_compare_mono_l.
Qed.

Lemma max_shift k a b : F32.max (scale2 k a) (scale2 k b) = scale2 k (F32.max a b).
Proof. unfold F32.max. rewrite ltb_shift. by destruct (F32.ltb a b). Qed.

Lemma sum_shift k K ps : ∀ acc,
  Z.abs k <= K →
  (∀ i p, ps !! i = Some p →
     steady_vadd K (fold_left Glm.vadd (take i ps) acc) p = true) →
  fold_left Glm.vadd (map (vscale2 k) ps) (vscale2 k acc) =
    vscale2 k (fold_left Glm.vadd ps acc).
Proof.
  induction ps as [|p ps IH]; intros acc Hk H; [done|]. cbn [map fold_left].
  rewrite (vadd_shift k K) by (done || exact (H 0%nat p eq_refl)).
  apply IH; [done|]. intros i q Hq. exact (H (S i) q Hq).
Qed.

Lemma radius_fold_shift k (g g' : vec3 → float) ps : ∀ m,
  (∀ p, p ∈ ps → g' (vscale2 k p) = scale2 k (g p)) →
  fold_left (λ m p, F32.max m (g' p)) (map (vscale2 k) ps) (scale2 k m) =
    scale2 k (fold_left (λ m p, F32.max m (g p)) ps m).
Proof.
  induction ps as [|p ps IH]; intros m H; [done|]. cbn [map fold_left].
  rewrite H by apply list_elem_of_here. rewrite max_shift.
  apply IH. intros q Hq. apply H. by apply list_elem_of_further.
Qed.

Lemma mesh_scaling k K positions :
  2 * Z.abs k <= K → steady_mesh K positions →
  let scaled := map (vscale2 k) positions in
  mesh_centroid scaled = vscale2 k (mesh_centroid positions) ∧
  mesh_max_radius scaled (mesh_centroid scaled) =
    scale2 k (mesh_max_radius positions (mesh_centroid positions)) ∧
  F32.mul (mesh_max_radius scaled (mesh_centroid scaled)) F32.two =
    scale2 k (F32.mul (mesh_max_radius positions (mesh_centroid positions)) F32.two).
Proof.
  intros Hk (Hsum & Hdiv & Hdist & Htwo) scaled.
  assert (mesh_centroid scaled = vscale2 k (mesh_centroid positions)) as Hc.
  { unfold mesh_centroid, scaled. rewrite length_map.
    change Glm.vec3_0 with (vscale2 k Glm.vec3_0) at 1.
    rewrite (sum_shift k K) by (lia || done).
    apply (vdiv_shift k K); [lia | done]. }
  assert (mesh_max_radius scaled (mesh_centroid scaled) =
          scale2 k (mesh_max_radius positions (mesh_centroid positions))) as Hr.
  { rewrite Hc. unfold mesh_max_radius, scaled.
    change F32.zero with (scale2 k F32.zero) at 1.
    apply radius_fold_shift. intros p Hp. destruct (Hdist p Hp) as [Hs Hl].
    rewrite (vsub_shift k K) by (lia || done).
    by apply (length_shift k K). }
  split_and!; [done | done |]. rewrite Hr.
  change F32.two with (scale2 0 F32.two) at 1.
  rewrite (mul_shift k 0 K) by (lia || done). f_equal. lia.
Qed.

End MeshShift.

(** ** Centroid and bounding radius of a mirrored mesh *)

Section Mirror.

Lemma normalize_opp M e :
  M ≠ 0 →
  binary_normalize F32.prec F32.emax (- M) e false =
  SFopp (binary_normalize F32.prec F32.emax M e false).
Proof.
  intros HM. destruct M as [|p|p]; [done|..].
  - change (- Zpos p) with (Zneg p). unfold binary_normalize, binary_round.
    destruct (shl_align _ _ _) as [mz ez]. apply (binary_round_aux_opp false).
  - change (- Zneg p) with (Zpos p). unfold binary_normalize, binary_round.
    destruct (shl_align _ _ _) as [mz ez]. rewrite <- (binary_round_aux_opp true). reflexivity.
Qed.

Lemma normalize_negated M e :
  negated (binary_normalize F32.prec F32.emax (- M) e false)
          (binary_normalize F32.prec F32.emax M e false).
Proof.
  destruct (decide (M = 0)) as [-> | HM]; [by right|]. left. by apply normalize_opp.
Qed.

Lemma negated_zero a b : is_zero a = true → is_zero b = true → negated a b.
Proof. by right. Qed.

Lemma add_negated x' x y' y :
  negated x' x → negated y' y → negated (F32.add x' y') (F32.add x y).
Proof.
  intros [-> | [Hx' Hx]] [-> | [Hy' Hy]].
  - destruct x as [[]|[]| |sx mx ex], y as [[]|[]| |sy my ey];
      try (by left); try (by right).
    unfold F32.add, SFadd, SFopp.
    set (a := Zpos (shl_align mx ex (Z.min ex ey)).1).
    set (b := Zpos (shl_align my ey (Z.min ex ey)).1).
    replace (cond_Zopp (negb sx) a + cond_Zopp (negb sy) b)
      with (- (cond_Zopp sx a + cond_Zopp sy b)) by (destruct sx, sy; cbn; lia).
    apply normalize_negated.
  - destruct y' as [sy'| | |]; try done. destruct y as [sy| | |]; try done.
    destruct x as [[]|[]| |sx mx ex], sy', sy; try (by left); by right.
  - destruct x' as [sx'| | |]; try done. destruct x as [sx| | |]; try done.
    destruct y as [[]|[]| |sy my ey], sx', sx; try (by left); by right.
  - destruct x' as [[]| | |]; try done; destruct x as [[]| | |]; try done;
      destruct y' as [[]| | |]; try done; destruct y as [[]| | |]; try done; by right.
Qed.

Lemma sub_negated x' x y' y :
  negated x' x → negated y' y → negated (F32.sub x' y') (F32.sub x y).
Proof.
  intros [-> | [Hx' Hx]] [-> | [Hy' Hy]].
  - destruct x as [[]|[]| |sx mx ex], y as [[]|[]| |sy my ey];
      try (by left); try (by right).
    unfold F32.sub, SFsub, SFopp.
    set (a := Zpos (shl_align mx ex (Z.min ex ey)).1).
    set (b := Zpos (shl_align my ey (Z.min ex ey)).1).
    replace (cond_Zopp (negb sx) a - cond_Zopp (negb sy) b)
      with (- (cond_Zopp sx a - cond_Zopp sy b)) by (destruct sx, sy; cbn; lia).
    apply normalize_negated.
  - destruct y' as [sy'| | |]; try done. destruct y as [sy| | |]; try done.
    destruct x as [[]|[]| |sx mx ex], sy', sy; try (by left); by right.
  - destruct x' as [sx'| | |]; try done. destruct x as [sx| | |]; try done.
    destruct y as [[]|[]| |sy my ey], sx', sx; try (by left); by right.
  - destruct x' as [[]| | |]; try done; destruct x as [[]| | |]; try done;
      destruct y' as [[]| | |]; try done; destruct y as [[]| | |]; try done; by right.
Qed.

Lemma div_negated x' x n : negated x' x → negated (F32.div x' n) (F32.div x n).
Proof.
  intros [-> | [Hx' Hx]].
  - destruct x as [[]|[]| |sx mx ex], n as [[]|[]| |sn mn en]; try (by left);
      try (left; by destruct sn); try (left; by destruct sx).
    left. unfold F32.div, SFdiv. cbn [SFopp].
    destruct (SFdiv_core_binary _ _ _ _ _ _) as [[q e'] l].
    destruct sx, sn; cbn [xorb negb];
      first [apply (binary_round_aux_opp false) | by rewrite <- (binary_round_aux_opp true)].
  - destruct x' as [sx'| | |]; try done. destruct x as [sx| | |]; try done.
    destruct n as [sn|sn| |sn mn en]; try (by left); by right.
Qed.

Lemma square_negated x' x : negated x' x → F32.mul x' x' = F32.mul x x.
Proof.
  intros [-> | [Hx' Hx]].
  - by destruct x as [[]|[]| |[] mx ex].
  - destruct x' as [[]| | |]; try done; by destruct x as [[]| | |].
Qed.

Lemma length_negated v' v : vnegated v' v → Glm.length v' = Glm.length v.
Proof.
  intros (Hx & Hy & Hz). unfold Glm.length, Glm.dot.
  by rewrite (square_negated _ _ Hx), (square_negated _ _ Hy), (square_negated _ _ Hz).
Qed.

Lemma sum_negated ps' ps :
  Forall2 vnegated ps' ps → ∀ acc' acc,
  vnegated acc' acc →
  vnegated (fold_left Glm.vadd ps' acc') (fold_left Glm.vadd ps acc).
Proof.
  induction 1 as [|p' p ps' ps Hp _ IH]; intros acc' acc H; [done|].
  cbn [fold_left]. apply IH. destruct H as (Hx & Hy & Hz), Hp as (Px & Py & Pz).
  split_and!; by apply add_negated.
Qed.

Lemma mirrored_radius mirrored positions :
  Forall2 vnegated mirrored positions →
  mesh_max_radius mirrored (mesh_centroid mirrored) =
  mesh_max_radius positions (mesh_centroid positions).
Proof.
  intros Hm.
  assert (vnegated (mesh_centroid mirrored) (mesh_centroid positions)) as Hc.
  { unfold mesh_centroid. rewrite (Forall2_length _ _ _ Hm).
    destruct (sum_negated _ _ Hm Glm.vec3_0 Glm.vec3_0) as (Hx & Hy & Hz).
    { split_and!; by right. }
    split_and!; by apply div_negated. }
  unfold mesh_max_radius.
  generalize F32.zero. revert Hc. generalize (mesh_centroid mirrored).
  generalize (mesh_centroid positions). intros c c' Hc.
  induction Hm as [|p' p ps' ps Hp _ IH]; intros m; [done|]. cbn [fold_left].
  rewrite (length_negated (Glm.vsub p' c') (Glm.vsub p c)); [apply IH|].
  destruct Hc as (Hx & Hy & Hz), Hp as (Px & Py & Pz).
  split_and!; by apply sub_negated.
Qed.

Lemma scale2_0 x : scale2 0 x = x.
Proof. destruct x; try done. cbn. f_equal. lia. Qed.

Lemma scale2_is_mul k K x :
  Z.abs k <= K → room K x = true → F32.mul x (F32.of_Z 1) = x →
  F32.mul x (scale2 k (F32.of_Z 1)) = scale2 k x.
Proof.
  intros Hk Hx H1. rewrite <- (scale2_0 x) at 1.
  rewrite (mul_shift 0 k K); [by rewrite H1| done |].
  unfold steady_mul, steady. by rewrite H1, Hx.
Qed.

Lemma scale2_opp k x : scale2 k (SFopp x) = SFopp (scale2 k x).
Proof. by destruct x. Qed.

Lemma max_radius_attained (g : vec3 → float) ps : ∀ m,
  let r := fold_left (λ m p, F32.max m (g p)) ps m in
  r = m ∨ ∃ p, p ∈ ps ∧ r = g p.
Proof.
  induction ps as [|q ps IH]; intros m; [by left|]. cbn [fold_left].
  destruct (IH (F32.max m (g q))) as [-> | (p & Hp & ->)].
  - unfold F32.max. destruct (F32.ltb m (g q)); [right|by left].
    exists q. split; [apply list_elem_of_here | done].
  - right. exists p. split; [by apply list_elem_of_further | done].
Qed.

End Mirror.

(** ** The orthographic half-extent and the size of the mesh *)

Section HalfExtent.

(** C8, as amended.  In every frame of either program, after any key
    events, the projection is: in perspective mode the field of view
    radians(45) with near plane 0.01 and far plane 100, whatever the
    mesh; in orthographic mode the volume whose vertical half-extent is
    the binary32 product of the bounding radius r and 2 and whose
    horizontal half-extent is that times the aspect ratio.  The radius r
    is the largest distance of a loaded position from the centroid: it
    is never NaN or negative, no position lies farther from the centroid
    than r, and r is the distance of one of the positions (or 0).
    Scaling the mesh by a power of two 2^k scales r and the vertical
    half-extent by exactly 2^k, and the horizontal one as well, provided
    every arithmetic step involved is steady for some K >= 2|k| (a zero
    operand, an exact cancellation, or a result with K binades of room:
    nothing overflows or becomes subnormal); [scale2 k] is the
    multiplication by the float 2^k.  Mirroring the mesh (negating every
    coordinate, zeros of either sign) leaves r and the half-extent as
    they are. *)
Theorem projection_depends_on_bounding_radius env argv evs w h :
  let aspect := F32.div (F32.of_Z w) (F32.of_Z h) in
  let fixed := perspective (Glm.radians (F32.of_Z 45)) aspect
                           (F32.of_decimal false 1 (-2)) (F32.of_Z 100) in
  let extent r :=
    ortho (F32.mul (SFopp (F32.mul r F32.two)) aspect)
          (F32.mul (F32.mul r F32.two) aspect)
          (SFopp (F32.mul r F32.two)) (F32.mul r F32.two)
          (SFopp (F32.of_Z 100)) (F32.of_Z 100) in
  (∀ st, Part1.main env argv = Running st →
     let st' := Part1.poll_events st evs in
     let r := mesh_max_radius (Part1.positions st) (mesh_centroid (Part1.positions st)) in
     Part1.proj (Part1.render st' w h) =
       if Part1.usePerspective st' then fixed else extent r) ∧
  (∀ st, Part2.main env argv = Running st →
     let st' := Part2.poll_events st evs in
     let r := mesh_max_radius (Part2.positions st) (mesh_centroid (Part2.positions st)) in
     Part2.proj (Part2.render st' w h) =
       if Part2.perspectiveProj (Part2.globals st') then fixed else extent r) ∧
  (∀ positions,
     let c := mesh_centroid positions in
     let r := mesh_max_radius positions c in
     is_nan r = false ∧ F32.sign r = false ∧
     (∀ p, p ∈ positions → F32.ltb r (Glm.length (Glm.vsub p c)) = false) ∧
     (r = F32.zero ∨ ∃ p, p ∈ positions ∧ r = Glm.length (Glm.vsub p c))) ∧
  (∀ positions k K,
     2 * Z.abs k <= K → steady_mesh K positions →
     let r := mesh_max_radius positions (mesh_centroid positions) in
     let scaled := map (vscale2 k) positions in
     let r' := mesh_max_radius scaled (mesh_centroid scaled) in
     r' = scale2 k r ∧
     F32.mul r' F32.two = scale2 k (F32.mul r F32.two) ∧
     SFopp (F32.mul r' F32.two) = scale2 k (SFopp (F32.mul r F32.two)) ∧
     (steady_mul K (F32.mul r F32.two) aspect = true →
      extent r' =
        ortho (scale2 k (F32.mul (SFopp (F32.mul r F32.two)) aspect))
              (scale2 k (F32.mul (F32.mul r F32.two) aspect))
              (scale2 k (SFopp (F32.mul r F32.two)))
              (scale2 k (F32.mul r F32.two))
              (SFopp (F32.of_Z 100)) (F32.of_Z 100))) ∧
  (∀ k K x,
     Z.abs k <= K → room K x = true → F32.mul x F32.one = x →
     F32.mul x (scale2 k F32.one) = scale2 k x) ∧
  (∀ mirrored positions,
     Forall2 vnegated mirrored positions →
     mesh_max_radius mirrored (mesh_centroid mirrored) =
       mesh_max_radius positions (mesh_centroid positions) ∧
     extent (mesh_max_radius mirrored (mesh_centroid mirrored)) =
       extent (mesh_max_radius positions (mesh_centroid positions))).
Proof.
  intros aspect fixed extent. split_and!.
  - intros st Hmain st' r.
    destruct (poll_events1_frame evs st) as (_ & _ & _ & _ & Hr).
    unfold Part1.render. simpl. fold st' in Hr. rewrite Hr, (main1_running _ _ _ Hmain).
    rewrite frame_projection_cases. by destruct (Part1.usePerspective st').
  - intros st Hmain st' r.
    destruct (poll_events2_frame evs st) as (_ & _ & _ & _ & _ & Hr).
    unfold Part2.render. simpl. fold st' in Hr. rewrite Hr, (main2_running _ _ _ Hmain).
    rewrite frame_projection_cases. by destruct (Part2.perspectiveProj _).
  - intros positions c r.
    destruct (max_radius_fold (λ p, Glm.length (Glm.vsub p c)) positions F32.zero
                eq_refl eq_refl) as (Hn & Hs & _ & Hall).
    split_and!; [done | done | done |].
    destruct (max_radius_attained (λ p, Glm.length (Glm.vsub p c)) positions F32.zero)
      as [H | H]; [by left | by right].
  - intros positions k K Hk Hst r scaled r'.
    destruct (mesh_scaling k K positions Hk Hst) as (_ & Hr & Htwo).
    fold scaled in Hr, Htwo. fold r r' in Hr, Htwo.
    split_and!; [done | done | by rewrite Htwo, scale2_opp |].
    intros Ha. unfold extent. rewrite !mul_opp_l, Htwo, !scale2_opp.
    rewrite <- (scale2_0 aspect) at 1 2.
    rewrite !(mul_shift k 0 K) by (done || lia).
    by replace (k + 0) with k by lia.
  - intros k K x. apply scale2_is_mul.
  - intros mirrored positions Hm.
    by rewrite (mirrored_radius mirrored positions Hm).
Qed.

Lemma projection_depends_on_bounding_radius_witness :
  steady_mesh 2 triangle_positions ∧
  (let r := mesh_max_radius triangle_positions (mesh_centroid triangle_positions) in
   let scaled := map (vscale2 1) triangle_positions in
   F32.mul (mesh_max_radius scaled (mesh_centroid scaled)) F32.two =
     scale2 1 (F32.mul r F32.two)) ∧
  ∃ st,
    Part1.main (file_env triangle_file) ["viewer"; "mesh.smf"]%string = Running st ∧
    Part1.proj (Part1.render (Part1.poll_events st [MkKey GLFW.KEY_P GLFW.PRESS]) 1024 768) =
      if Part1.usePerspective (Part1.poll_events st [MkKey GLFW.KEY_P GLFW.PRESS])
      then perspective (Glm.radians (F32.of_Z 45)) (F32.div (F32.of_Z 1024) (F32.of_Z 768))
                       (F32.of_decimal false 1 (-2)) (F32.of_Z 100)
      else
        let r := mesh_max_radius (Part1.positions st) (mesh_centroid (Part1.positions st)) in
        ortho (F32.mul (SFopp (F32.mul r F32.two)) (F32.div (F32.of_Z 1024) (F32.of_Z 768)))
              (F32.mul (F32.mul r F32.two) (F32.div (F32.of_Z 1024) (F32.of_Z 768)))
              (SFopp (F32.mul r F32.two)) (F32.mul r F32.two)
              (SFopp (F32.of_Z 100)) (F32.of_Z 100).
Proof.
  assert (steady_mesh 2 triangle_positions) as Hst.
  { unfold steady_mesh. cbv zeta. split_and!.
    - intros [|[|[|i]]] p Hp; try discriminate Hp; injection Hp as <-;
        vm_compute; reflexivity.
    - vm_compute. reflexivity.
    - intros p Hp. unfold triangle_positions in Hp.
      repeat ((apply elem_of_cons in Hp as [-> | Hp]);
              [split; vm_compute; reflexivity|]).
      by apply elem_of_nil in Hp.
    - vm_compute. reflexivity. }
  pose proof (projection_depends_on_bounding_radius (file_env triangle_file)
                ["viewer"; "mesh.smf"]%string [MkKey GLFW.KEY_P GLFW.PRESS] 1024 768)
    as (T1 & _ & _ & T4 & _).
  split; [exact Hst|]. split.
  { exact (proj1 (proj2 (T4 triangle_positions 1 2 ltac:(lia) Hst))). }
  eexists. split; [vm_compute; reflexivity|].
  refine (T1 _ _). vm_compute. reflexivity.
Defined.

End HalfExtent.
